(** * Token selection and sequence termination
      (server/text_generation_server/utils/tokens.py)

    A shallow embedding of the token chooser, the stopping criteria, the
    n-gram speculation and the top-n extraction, followed by the properties
    that the design document states about them and by further properties of
    the code: its errors and edge cases, what it keeps invariant, and how
    its operations compose.

    Conventions.
    - Python [int] is [Z]; row numbers and list positions are [nat].
    - Python [float] and the entries of floating point tensors are binary64
      values, Rocq's primitive [float].
    - A one-dimensional tensor is the list of its entries, a two-dimensional
      tensor the list of its rows.
    - A Python exception is a [Raise] in the [result] monad.
    - [str] is [string]; a character is an [ascii]. *)

From Stdlib Require Import ZArith List Bool Ascii String Floats Sorted Lia.
From stdpp Require Import base option list gmap strings.

Local Open Scope Z_scope.

(** ** Exceptions *)

Inductive exn : Type :=
| ValueError
| IndexError
| RuntimeError
| AttributeError
| ReError
| NotModelled.

Inductive result (A : Type) : Type :=
| Ok (a : A)
| Raise (e : exn).
Arguments Ok {A} a.
Arguments Raise {A} e.

#[global] Instance result_ret : MRet result := fun A a => Ok a.
#[global] Instance result_bind : MBind result :=
  fun A B f m => match m with Ok a => f a | Raise e => Raise e end.
#[global] Instance result_fmap : FMap result :=
  fun A B f m => match m with Ok a => Ok (f a) | Raise e => Raise e end.

(** [for x in l: ...] where the body may raise. *)
Fixpoint traverse {A B : Type} (f : A -> result B) (l : list A) : result (list B) :=
  match l with
  | [] => Ok []
  | x :: l' => y ← f x; ys ← traverse f l'; Ok (y :: ys)
  end.

(** ** Python built-ins *)

(** [max(l)] on a list of integers: [ValueError] on the empty list. *)
Definition py_max (l : list Z) : result Z :=
  match l with
  | [] => Raise ValueError
  | x :: l' => Ok (fold_left Z.max l' x)
  end.

(** [any(l)]. *)
Definition any (l : list bool) : bool := existsb (fun b => b) l.

(** [l[i]] for a list: [IndexError] out of range. *)
Definition getitem {A : Type} (l : list A) (i : nat) : result A :=
  match l !! i with
  | Some x => Ok x
  | None => Raise IndexError
  end.

(** [s[-n:]] on a string. *)
Definition str_suffix (n : nat) (s : string) : string :=
  String.substring (String.length s - n) n s.

(** ** The fragment of Python's [re] that the stop sequences use

    [re.escape] (Python 3.7 and later) puts a backslash before each of the
    characters of [special_chars] and leaves every other character alone.
    The parser covers the patterns made of literal characters, escaped
    characters, [.] and [$]; every other construct is outside the fragment. *)

Module Re.

Inductive node : Type :=
| Literal (c : ascii)   (* this character *)
| AnyChar               (* [.]: any character except a newline *)
| AtEnd.                (* [$]: the end, or just before a final newline *)

Definition newline : ascii := ascii_of_nat 10.
Definition backslash : ascii := ascii_of_nat 92.

(** The keys of [re._special_chars_map]: ()[]{}?*+-|^$\.&~# and the blanks
    tab, newline, carriage return, vertical tab and form feed. *)
Definition special_chars : list ascii :=
  map ascii_of_nat
    [40; 41; 91; 93; 123; 125; 63; 42; 43; 45; 124; 94; 36; 92; 46; 38;
     126; 35; 32; 9; 10; 13; 11; 12]%nat.

Definition is_special (c : ascii) : bool :=
  existsb (Ascii.eqb c) special_chars.

(** Characters with a meaning of their own in a pattern. *)
Definition meta_chars : list ascii :=
  map ascii_of_nat [40; 41; 91; 93; 123; 125; 63; 42; 43; 124; 94]%nat.

Definition is_meta (c : ascii) : bool :=
  existsb (Ascii.eqb c) meta_chars.

(** ASCII letters, digits and the underscore: a backslash before one of
    them is a class, a back reference or an error, never that character. *)
Definition is_word (c : ascii) : bool :=
  let n := nat_of_ascii c in
  ((48 <=? n) && (n <=? 57) || (65 <=? n) && (n <=? 90)
   || (97 <=? n) && (n <=? 122) || (n =? 95))%nat.

Fixpoint escape_chars (s : list ascii) : list ascii :=
  match s with
  | [] => []
  | c :: s' =>
      if is_special c then backslash :: c :: escape_chars s'
      else c :: escape_chars s'
  end.

(** [re.escape(pattern)]. *)
Definition escape (pattern : string) : string :=
  string_of_list_ascii (escape_chars (list_ascii_of_string pattern)).

Fixpoint parse (p : list ascii) : result (list node) :=
  match p with
  | [] => Ok []
  | c :: p' =>
      if Ascii.eqb c backslash then
        match p' with
        | [] => Raise ReError
        | d :: p'' =>
            if is_word d then Raise NotModelled
            else ns ← parse p''; Ok (Literal d :: ns)
        end
      else if Ascii.eqb c (ascii_of_nat 46) then
        ns ← parse p'; Ok (AnyChar :: ns)
      else if Ascii.eqb c (ascii_of_nat 36) then
        ns ← parse p'; Ok (AtEnd :: ns)
      else if is_meta c then Raise NotModelled
      else ns ← parse p'; Ok (Literal c :: ns)
  end.

(** [re.compile(pattern)]. *)
Definition compile (pattern : string) : result (list node) :=
  parse (list_ascii_of_string pattern).

Definition at_end (rest : list ascii) : bool :=
  match rest with
  | [] => true
  | [c] => Ascii.eqb c newline
  | _ => false
  end.

(** The text matched by the pattern at the head of [rest], if any. *)
Fixpoint match_here (ns : list node) (rest : list ascii) : option (list ascii) :=
  match ns with
  | [] => Some []
  | Literal c :: ns' =>
      match rest with
      | x :: rest' =>
          if Ascii.eqb x c then m ← match_here ns' rest'; Some (x :: m)
          else None
      | [] => None
      end
  | AnyChar :: ns' =>
      match rest with
      | x :: rest' =>
          if Ascii.eqb x newline then None
          else m ← match_here ns' rest'; Some (x :: m)
      | [] => None
      end
  | AtEnd :: ns' => if at_end rest then match_here ns' rest else None
  end.

(** The scan of [findall]: try every position from left to right; after a
    match go on behind it ([skip] counts the characters of the last match
    that are still to be passed over). *)
Fixpoint scan (ns : list node) (skip : nat) (text : list ascii) : list string :=
  match skip, text with
  | S k, _ :: text' => scan ns k text'
  | S _, [] => []
  | O, _ =>
      match match_here ns text with
      | Some m =>
          string_of_list_ascii m ::
            match text with
            | [] => []
            | _ :: text' => scan ns (Nat.pred (length m)) text'
            end
      | None =>
          match text with
          | [] => []
          | _ :: text' => scan ns 0 text'
          end
      end
  end.

(** [regex.findall(text)]. *)
Definition findall (regex : list node) (text : string) : list string :=
  scan regex 0 (list_ascii_of_string text).

End Re.

(** ** StopSequenceCriteria *)

Module StopSequenceCriteria.

Record t : Type := { regex : list Re.node }.

Definition __init__ (stop_sequence : string) : result t :=
  let stop_sequence := Re.escape stop_sequence in
  regex ← Re.compile (stop_sequence +:+ "$");
  Ok {| regex := regex |}.

Definition __call__ (self : t) (output : string) : bool :=
  match Re.findall (regex self) output with
  | [] => false
  | _ :: _ => true
  end.

End StopSequenceCriteria.

(** ** StoppingCriteria *)

Inductive FinishReason : Type :=
| FINISH_REASON_LENGTH
| FINISH_REASON_EOS_TOKEN
| FINISH_REASON_STOP_SEQUENCE.

Module StoppingCriteria.

Record t : Type := {
  eos_token_id : Z;
  stop_sequence_criterias : list StopSequenceCriteria.t;
  max_new_tokens : Z;
  current_tokens : Z;
  current_output : string;
  ignore_eos_token : bool
}.

Definition __init__ (eos_token_id : Z)
    (stop_sequence_criterias : list StopSequenceCriteria.t)
    (max_new_tokens : Z) (ignore_eos_token : bool) : t :=
  {| eos_token_id := eos_token_id;
     stop_sequence_criterias := stop_sequence_criterias;
     max_new_tokens := max_new_tokens;
     current_tokens := 0;
     current_output := "";
     ignore_eos_token := ignore_eos_token |}.

Definition set_current_tokens (self : t) (n : Z) : t :=
  {| eos_token_id := eos_token_id self;
     stop_sequence_criterias := stop_sequence_criterias self;
     max_new_tokens := max_new_tokens self;
     current_tokens := n;
     current_output := current_output self;
     ignore_eos_token := ignore_eos_token self |}.

Definition set_current_output (self : t) (s : string) : t :=
  {| eos_token_id := eos_token_id self;
     stop_sequence_criterias := stop_sequence_criterias self;
     max_new_tokens := max_new_tokens self;
     current_tokens := current_tokens self;
     current_output := s;
     ignore_eos_token := ignore_eos_token self |}.

(** The loop over the stop sequences, leaving at the first that matches. *)
Fixpoint any_stop (cs : list StopSequenceCriteria.t) (output : string) : bool :=
  match cs with
  | [] => false
  | c :: cs' =>
      if StopSequenceCriteria.__call__ c output then true
      else any_stop cs' output
  end.

(** One call: the state after it and the pair it returns. *)
Definition __call__ (self : t) (last_token : Z) (last_output : string)
  : t * (bool * option FinishReason) :=
  let self := set_current_tokens self (current_tokens self + 1) in
  if current_tokens self >=? max_new_tokens self then
    (self, (true, Some FINISH_REASON_LENGTH))
  else if negb (ignore_eos_token self) && (last_token =? eos_token_id self) then
    (self, (true, Some FINISH_REASON_EOS_TOKEN))
  else
    match stop_sequence_criterias self with
    | [] => (self, (false, None))
    | _ :: _ =>
        let output := (current_output self +:+ last_output)%string in
        let output :=
          if (300 <? String.length output)%nat then str_suffix 200 output
          else output in
        let self := set_current_output self output in
        if any_stop (stop_sequence_criterias self) output then
          (self, (true, Some FINISH_REASON_STOP_SEQUENCE))
        else (self, (false, None))
    end.

(** A run of calls on one criteria object, with everything returned. *)
Fixpoint calls (self : t) (inputs : list (Z * string))
  : t * list (bool * option FinishReason) :=
  match inputs with
  | [] => (self, [])
  | (last_token, last_output) :: inputs' =>
      let '(self, r) := __call__ self last_token last_output in
      let '(self, rs) := calls self inputs' in
      (self, r :: rs)
  end.

End StoppingCriteria.

(** ** Tensor operations (torch) *)

(** [t.shape[1]] of a two-dimensional tensor given by its rows (0 when the
    tensor has no row). *)
Definition shape1 {A : Type} (t : list (list A)) : nat :=
  match t with
  | [] => 0
  | row :: _ => length row
  end.

(** [l[a:b]] for positions [a <= b]: a slice never raises. *)
Definition slice {A : Type} (a b : nat) (l : list A) : list A :=
  take (b - a) (drop a l).

(** [l[:-1]]. *)
Definition but_last {A : Type} (l : list A) : list A :=
  take (length l - 1) l.

(** [a == b] on two one-dimensional integer tensors of one length. *)
Definition tensor_eq (a b : list Z) : result (list bool) :=
  if (length a =? length b)%nat then Ok (zip_with Z.eqb a b)
  else Raise RuntimeError.

(** [t[i]] for an integer position: negative positions count from the end. *)
Definition tensor_getitem {A : Type} (t : list A) (i : Z) : result A :=
  let n := Z.of_nat (length t) in
  if (0 <=? i) && (i <? n) then getitem t (Z.to_nat i)
  else if (- n <=? i) && (i <? 0) then getitem t (Z.to_nat (i + n))
  else Raise IndexError.

(** [t[index]] for an integer tensor [index]. *)
Definition tensor_index {A : Type} (t : list A) (index : list Z) : result (list A) :=
  traverse (tensor_getitem t) index.

(** [t[indices]] for a Python list of positions. *)
Definition list_index {A : Type} (t : list A) (indices : list nat) : result (list A) :=
  traverse (getitem t) indices.

Fixpoint cumsum_from (acc : Z) (t : list Z) : list Z :=
  match t with
  | [] => []
  | x :: t' => (acc + x) :: cumsum_from (acc + x) t'
  end.

(** [t.cumsum(dim=-1)]. *)
Definition cumsum (t : list Z) : list Z := cumsum_from 0 t.

(** [torch.arange(n)]. *)
Definition arange (n : Z) : result (list Z) :=
  if n <? 0 then Raise RuntimeError
  else Ok (map Z.of_nat (seq 0 (Z.to_nat n))).

(** The position of the first [true] of a row, if there is one. *)
Fixpoint first_true (row : list bool) : option nat :=
  match row with
  | [] => None
  | b :: row' => if b then Some O else S <$> first_true row'
  end.

(** [row.max(dim).indices] for a row of booleans: the position of the first
    maximal value, which is the first [True] when there is one and the first
    entry (position 0) when all are [False]; an empty row cannot be reduced. *)
Definition max_indices (row : list bool) : result nat :=
  match row with
  | [] => Raise RuntimeError
  | _ :: _ => Ok (default O (first_true row))
  end.

(** [input_ids == seeds.unsqueeze(-1)]: row [i] compared with [seeds[i]]. *)
Definition eq_unsqueeze (input_ids : list (list Z)) (seeds : list Z)
  : result (list (list bool)) :=
  if (length input_ids =? length seeds)%nat then
    Ok (zip_with (fun row seed => map (fun x => x =? seed) row) input_ids seeds)
  else Raise RuntimeError.

(** [row.gather(-1, index)]: every position has to be inside the row. *)
Definition gather_row {A : Type} (row : list A) (index : list Z) : result (list A) :=
  traverse
    (fun i => if (0 <=? i) && (i <? Z.of_nat (length row))
              then getitem row (Z.to_nat i) else Raise RuntimeError)
    index.

(** [t.gather(dim=-1, index=index)] with as many index rows as rows. *)
Fixpoint gather {A : Type} (t : list (list A)) (index : list (list Z))
  : result (list (list A)) :=
  match t, index with
  | _, [] => Ok []
  | [], _ :: _ => Raise RuntimeError
  | row :: t', ix :: index' =>
      r ← gather_row row ix; rs ← gather t' index'; Ok (r :: rs)
  end.

(** ** create_n_gram_speculation *)

Definition create_n_gram_speculation (input_ids : list (list Z))
    (next_ids : list Z) (accepted_ids : list Z) (speculate : Z) (verbose : bool)
  : result (list (list Z)) :=
  let B := length accepted_ids in
  seeds ← tensor_index next_ids (map (fun c => c - 1) (cumsum accepted_ids));
  found ← eq_unsqueeze input_ids seeds;
  firsts ← traverse max_indices found;
  let indices := map (fun i => Z.of_nat i + 1) firsts in
  offsets ← arange speculate;
  let all_indices := map (fun i => map (fun j => i + j) offsets) indices in
  let all_indices :=
    map (map (fun i => Z.min i (Z.of_nat (shape1 input_ids) - 1))) all_indices in
  gather input_ids all_indices.

(** ** External collaborators

    The random generator and the floating point kernels of torch, and the
    logits processors of [logits_process] and [watermark], are used through
    their interfaces only. *)

Class Torch : Type := {
  (** the state of a [torch.Generator] *)
  Generator : Type;
  (** a fresh generator after [manual_seed(seed)] *)
  manual_seed : Z -> Generator;
  (** [torch.nn.functional.softmax(logits, -1)] on one row *)
  softmax : list float -> list float;
  (** [torch.log_softmax(scores, -1)] on one row *)
  log_softmax : list float -> list float;
  (** [torch.empty(n).exponential_(1, generator=g)]: the draws and the
      generator after them *)
  exponential_ : Generator -> nat -> list float * Generator
}.

(** The processors, by the constructor call that makes them. *)
Inductive RowProcessor : Type :=
| WatermarkLogitsProcessor.

Inductive LogitsProcessor : Type :=
| SingleProcessor (processor : RowProcessor)
| RepetitionPenaltyLogitsProcessor (penalty : float)
| StaticWarper (temperature : option float) (top_k : option Z)
    (top_p typical_p : option float)
| HeterogeneousProcessorWrapper (processors : gmap nat RowProcessor)
| HeterogeneousRepetitionPenaltyLogitsProcessor (penalty : list float)
| HeterogeneousTemperatureLogitsWarper (temperature : list float)
| HeterogeneousTopKLogitsWarper (top_k : list Z)
| HeterogeneousTopPLogitsWarper (top_p : list float)
| HeterogeneousTypicalLogitsWarper (typical_p : list float).

Class LogitsProcess : Type := {
  (** [processor.filter(indices)]: the processor for the retained rows, or
      [None] when it no longer applies to any row *)
  processor_filter : LogitsProcessor -> list nat -> option LogitsProcessor;
  (** [processor(input_ids, scores)]: the scores it makes of the scores *)
  processor_call :
    LogitsProcessor -> list (list Z) -> list (list float) -> list (list float);
  (** [static_warper(scores)]: the warped scores and their log-probabilities *)
  static_warper_call :
    LogitsProcessor -> list (list float) -> list (list float) * list (list float)
}.

(** [enumerate(l)]. *)
Definition enumerate {A : Type} (l : list A) : list (nat * A) :=
  zip (seq 0 (length l)) l.

(** The scan of [argmax]: the best position so far gives way to a later
    one whose value is strictly larger, or is a NaN while the best value is
    none (torch takes a NaN for larger than every value, and the lower
    position of two equal values or of two NaN). *)
Fixpoint argmax_from (best : nat) (best_value : float) (i : nat) (row : list float) : nat :=
  match row with
  | [] => best
  | x :: row' =>
      if negb (is_nan best_value) && (is_nan x || (best_value <? x)%float)
      then argmax_from i x (S i) row'
      else argmax_from best best_value (S i) row'
  end.

(** [row.argmax()]: the position of the first NaN when the row holds one,
    and of the first maximal value otherwise. torch raises on an empty row;
    0 stands for that error here, and the properties of the selection are
    stated for rows that are not empty. *)
Definition argmax (row : list float) : Z :=
  match row with
  | [] => 0
  | x :: row' => Z.of_nat (argmax_from 0 x 1 row')
  end.

(** ** Sampling *)

Module Sampling.

Record t `{Torch} : Type := { generator : Generator; seed : Z }.

Definition __init__ `{Torch} (seed : Z) : t :=
  {| generator := manual_seed seed; seed := seed |}.

(** One call: the token and the object after the draw. *)
Definition __call__ `{Torch} (self : t) (logits : list float) : Z * t :=
  let probs := softmax logits in
  let '(q, g) := exponential_ (generator self) (length probs) in
  (argmax (zip_with PrimFloat.div probs q),
   {| generator := g; seed := seed self |}).

End Sampling.

(** ** Greedy *)

Module Greedy.

Definition __call__ (logits : list (list float)) : list Z := map argmax logits.

End Greedy.

(** ** The store of Sampling objects

    A [Sampling] object is mutable (its generator advances at every draw)
    and the sampling map of [HeterogeneousSampling] holds references to such
    objects. The objects live in a store, a reference is a position in it. *)

Abbreviation loc := nat.
Abbreviation store := (list Sampling.t).

(** [Sampling(seed, device)]: a new object in the store. *)
Definition new_Sampling `{Torch} (seed : Z) (σ : store) : loc * store :=
  (length σ, σ ++ [Sampling.__init__ seed]).

(** [sampling(logits)] through a reference. *)
Definition call_Sampling `{Torch} (l : loc) (logits : list float) (σ : store)
  : result (Z * store) :=
  s ← getitem σ l;
  let '(token, s') := Sampling.__call__ s logits in
  Ok (token, <[l := s']> σ).

(** ** HeterogeneousSampling *)

Module HeterogeneousSampling.

Record t : Type := {
  seeds : list Z;
  greedy_indices : list nat;
  sampling_mapping : gmap nat loc
}.

Definition init_step `{Torch} (st : list nat * gmap nat loc * store)
    (x : nat * (bool * Z)) : list nat * gmap nat loc * store :=
  let '(greedy_indices, sampling_mapping, σ) := st in
  let '(i, (sample, seed)) := x in
  if sample then
    let '(l, σ) := new_Sampling seed σ in
    (greedy_indices, <[i := l]> sampling_mapping, σ)
  else (greedy_indices ++ [i], sampling_mapping, σ).

Definition __init__ `{Torch} (do_sample : list bool) (seeds : list Z) (σ : store)
  : t * store :=
  let '(greedy_indices, sampling_mapping, σ) :=
    fold_left init_step (enumerate (zip do_sample seeds)) ([], ∅, σ) in
  ({| seeds := seeds; greedy_indices := greedy_indices;
      sampling_mapping := sampling_mapping |}, σ).

(** The loop over the sampling map of [__call__]. The keys were inserted in
    increasing order, so the loop visits them in increasing order. *)
Fixpoint sample_rows `{Torch} (sampling_mapping : gmap nat loc)
    (rows : list (nat * list float)) (out : list Z) (σ : store)
  : result (list Z * store) :=
  match rows with
  | [] => Ok (out, σ)
  | (i, logits) :: rows' =>
      match sampling_mapping !! i with
      | Some l =>
          '(token, σ) ← call_Sampling l logits σ;
          sample_rows sampling_mapping rows' (<[i := token]> out) σ
      | None => sample_rows sampling_mapping rows' out σ
      end
  end.

(** [torch.empty] leaves the entries undefined; they are 0 here. *)
Definition __call__ `{Torch} (self : t) (logits : list (list float)) (σ : store)
  : result (list Z * store) :=
  let out := replicate (length logits) 0 in
  let out :=
    match greedy_indices self with
    | [] => out
    | _ :: _ => map argmax logits
    end in
  if forallb (fun '(i, _) => (i <? length logits)%nat)
       (map_to_list (sampling_mapping self))
  then sample_rows (sampling_mapping self) (enumerate logits) out σ
  else Raise IndexError.

Definition filter_step (sampling_mapping : gmap nat loc)
    (st : list nat * gmap nat loc) (x : nat * nat) : list nat * gmap nat loc :=
  let '(new_greedy_indices, new_sampling_mapping) := st in
  let '(i, idx) := x in
  match sampling_mapping !! idx with
  | Some sampling => (new_greedy_indices, <[i := sampling]> new_sampling_mapping)
  | None => (new_greedy_indices ++ [i], new_sampling_mapping)
  end.

Definition filter (self : t) (indices : list nat) : t :=
  let '(new_greedy_indices, new_sampling_mapping) :=
    fold_left (filter_step (sampling_mapping self)) (enumerate indices) ([], ∅) in
  {| seeds := seeds self; greedy_indices := new_greedy_indices;
     sampling_mapping := new_sampling_mapping |}.

End HeterogeneousSampling.

(** What [self.choice] of a chooser can be. *)
Inductive Choice : Type :=
| ChoiceGreedy
| ChoiceSampling (sampling : loc)
| ChoiceHeterogeneousSampling (sampling : HeterogeneousSampling.t).

(** [x != y] on floats. *)
Definition float_ne (x y : float) : bool := negb (x =? y)%float.

(** ** NextTokenChooser *)

Module NextTokenChooser.

Record t : Type := {
  watermark_processor : option LogitsProcessor;
  repetition_processor : option LogitsProcessor;
  static_warper : option LogitsProcessor;
  choice : Choice
}.

(** [has_warpers] of [__init__]. *)
Definition has_warpers (temperature : option float) (top_k : option Z)
    (top_p typical_p : option float) : bool :=
  match temperature with Some x => float_ne x 1 | None => false end
  || match top_k with Some k => negb (k =? 0) | None => false end
  || match top_p with Some x => (x <? 1)%float | None => false end
  || match typical_p with Some x => (x <? 1)%float | None => false end.

Definition __init__ `{Torch} (watermark : bool) (temperature : option float)
    (repetition_penalty : float) (top_k : option Z) (top_p typical_p : option float)
    (do_sample : bool) (seed : Z) (σ : store) : t * store :=
  let watermark_processor :=
    if watermark then Some (SingleProcessor WatermarkLogitsProcessor) else None in
  let repetition_processor :=
    if float_ne repetition_penalty 0
    then Some (RepetitionPenaltyLogitsProcessor repetition_penalty) else None in
  let has_warpers := has_warpers temperature top_k top_p typical_p in
  let static_warper :=
    if has_warpers then Some (StaticWarper temperature top_k top_p typical_p)
    else None in
  let sampling := do_sample || has_warpers in
  let '(choice, σ) :=
    if sampling then let '(l, σ) := new_Sampling seed σ in (ChoiceSampling l, σ)
    else (ChoiceGreedy, σ) in
  ({| watermark_processor := watermark_processor;
      repetition_processor := repetition_processor;
      static_warper := static_warper;
      choice := choice |}, σ).

(** One call: the id chosen for the last row of the scores, the
    log-probabilities and the store after the draw. *)
Definition __call__ `{Torch} `{LogitsProcess} (self : t) (input_ids : list (list Z))
    (scores : list (list float)) (σ : store)
  : result (Z * list (list float) * store) :=
  let scores :=
    match watermark_processor self with
    | Some processor => processor_call processor input_ids scores
    | None => scores
    end in
  let scores :=
    match repetition_processor self with
    | Some processor => processor_call processor input_ids scores
    | None => scores
    end in
  let '(scores, next_logprob) :=
    match static_warper self with
    | None => (scores, map log_softmax scores)
    | Some warper => static_warper_call warper scores
    end in
  last_scores ← tensor_getitem scores (-1);
  '(next_id, σ) ←
    match choice self with
    | ChoiceGreedy => Ok (argmax last_scores, σ)
    | ChoiceSampling sampling => call_Sampling sampling last_scores σ
    | ChoiceHeterogeneousSampling _ => Raise NotModelled
    end;
  Ok (next_id, next_logprob, σ).

End NextTokenChooser.

(** ** HeterogeneousNextTokenChooser *)

Module HeterogeneousNextTokenChooser.

Record t : Type := {
  watermark_processor : option LogitsProcessor;
  repetition_processor : option LogitsProcessor;
  warpers : list LogitsProcessor;
  choice : Choice;
  seeds : list Z;
  do_sample : list bool
}.

Definition __init__ `{Torch} (watermark : list bool) (temperature : list float)
    (repetition_penalty : list float) (top_k : list Z) (top_p : list float)
    (typical_p : list float) (do_sample : list bool) (seeds : list Z) (σ : store)
  : t * store :=
  let warpers := [] in
  let watermark_processor :=
    if any watermark then
      Some (HeterogeneousProcessorWrapper
              (list_to_map
                 (map (fun '(i, _) => (i, WatermarkLogitsProcessor))
                    (List.filter (fun '(_, do_watermark) => do_watermark)
                       (enumerate watermark)))))
    else None in
  let repetition_processor :=
    if any (map (fun x => float_ne x 1) repetition_penalty)
    then Some (HeterogeneousRepetitionPenaltyLogitsProcessor repetition_penalty)
    else None in
  let '(do_sample, warpers) :=
    if any (map (fun x => float_ne x 1) temperature) then
      (map (fun '(x, sample) => sample || float_ne x 1) (zip temperature do_sample),
       warpers ++ [HeterogeneousTemperatureLogitsWarper temperature])
    else (do_sample, warpers) in
  let '(do_sample, warpers) :=
    if any (map (fun x => negb (x =? 0)) top_k) then
      (map (fun '(x, sample) => sample || negb (x =? 0)) (zip top_k do_sample),
       warpers ++ [HeterogeneousTopKLogitsWarper top_k])
    else (do_sample, warpers) in
  let '(do_sample, warpers) :=
    if any (map (fun x => (x <? 1)%float) top_p) then
      (map (fun '(x, sample) => sample || (x <? 1)%float) (zip top_p do_sample),
       warpers ++ [HeterogeneousTopPLogitsWarper top_p])
    else (do_sample, warpers) in
  let '(do_sample, warpers) :=
    if any (map (fun x => (x <? 1)%float) typical_p) then
      (map (fun '(x, sample) => sample || (x <? 1)%float) (zip typical_p do_sample),
       warpers ++ [HeterogeneousTypicalLogitsWarper typical_p])
    else (do_sample, warpers) in
  let '(choice, σ) :=
    if any do_sample then
      let '(sampling, σ) := HeterogeneousSampling.__init__ do_sample seeds σ in
      (ChoiceHeterogeneousSampling sampling, σ)
    else (ChoiceGreedy, σ) in
  ({| watermark_processor := watermark_processor;
      repetition_processor := repetition_processor;
      warpers := warpers;
      choice := choice;
      seeds := seeds;
      do_sample := do_sample |}, σ).

(** The inner loop of the validation in [__call__]: one more token is
    accepted for each leading [True]; the first [False] leaves the loop. *)
Fixpoint accept_loop (validate_speculative : list bool) (index : nat) (accepted : Z)
    (indices : list nat) : nat * Z * list nat :=
  match validate_speculative with
  | [] => (index, accepted, indices)
  | valid :: rest =>
      if valid then accept_loop rest (index + 1) (accepted + 1) (indices ++ [(index + 1)%nat])
      else (index, accepted, indices)
  end.

(** One turn of the loop [for i in range(B)] of the validation. *)
Definition validate_sequence (S : nat) (next_ids : list Z)
    (speculated_ids : list (list Z)) (st : list Z * list nat) (i : nat)
  : result (list Z * list nat) :=
  let '(accepted_ids, indices) := st in
  let _next_ids := slice (i * S) ((i + 1) * S) next_ids in
  _speculated_ids ← getitem speculated_ids i;
  validate_speculative ← tensor_eq (but_last _next_ids) _speculated_ids;
  let index := (i * S)%nat in
  let accepted := 1 in
  let indices := indices ++ [index] in
  let '(_, accepted, indices) :=
    accept_loop validate_speculative index accepted indices in
  Ok (accepted_ids ++ [accepted], indices).

Fixpoint validate_loop (S : nat) (next_ids : list Z) (speculated_ids : list (list Z))
    (st : list Z * list nat) (range : list nat) : result (list Z * list nat) :=
  match range with
  | [] => Ok st
  | i :: range' =>
      st ← validate_sequence S next_ids speculated_ids st i;
      validate_loop S next_ids speculated_ids st range'
  end.

(** The validation of the speculated ids in [__call__] (the branch
    [speculated_ids is not None]), from the ids chosen for the [B * S]
    positions: the ids kept, the accepted counts and the positions kept. *)
Definition speculative_validation (next_ids : list Z) (speculated_ids : list (list Z))
  : result (list Z * list Z * list nat) :=
  let B := (length next_ids / (shape1 speculated_ids + 1))%nat in
  let S := (shape1 speculated_ids + 1)%nat in
  '(accepted_ids, indices) ←
    validate_loop S next_ids speculated_ids ([], []) (seq 0 B);
  next_ids ← list_index next_ids indices;
  Ok (next_ids, accepted_ids, indices).

(** The first [B * S] entries of a list in [B] groups of [S]. *)
Fixpoint groups {A : Type} (B S : nat) (rows : list A) : list (list A) :=
  match B with
  | O => []
  | Datatypes.S B' => take S rows :: groups B' S (drop S rows)
  end.

(** [scores.view(B, S, -1)] on a two-dimensional tensor: the entries, in
    their order, in [B] groups of [S] rows. The length of the rows is not
    given: it is the one with which the entries fill the [B * S] rows, and
    there is an error when there is none or when [B * S] is 0. *)
Definition view {A : Type} (B S : nat) (rows : list (list A))
  : result (list (list (list A))) :=
  let numel := length (concat rows) in
  if (0 <? B * S)%nat && (numel mod (B * S) =? 0)%nat
  then Ok (groups B S (groups (B * S) (numel / (B * S)) (concat rows)))
  else Raise RuntimeError.

(** [t[:, j]]. *)
Definition column {A : Type} (j : nat) (t : list (list A)) : result (list A) :=
  traverse (fun group => getitem group j) t.

(** [t[:, j] = values]. *)
Definition set_column {A : Type} (j : nat) (t : list (list A)) (values : list A)
  : result (list (list A)) :=
  if (length t =? length values)%nat
  then Ok (zip_with (fun group x => <[j := x]> group) t values)
  else Raise RuntimeError.

(** [self.choice(_scores)] on the rows of one position. *)
Definition call_choice `{Torch} (c : Choice) (_scores : list (list float)) (σ : store)
  : result (list Z * store) :=
  match c with
  | ChoiceGreedy => Ok (Greedy.__call__ _scores, σ)
  | ChoiceHeterogeneousSampling sampling =>
      HeterogeneousSampling.__call__ sampling _scores σ
  | ChoiceSampling _ => Raise NotModelled
  end.

(** The loop [for j in range(S)] of [__call__]: the processors and the
    warpers in their order, then the selection, for one position at a time. *)
Fixpoint select_loop `{Torch} `{LogitsProcess} (self : t) (input_ids : list (list Z))
    (range : list nat) (scores : list (list (list float))) (next_ids : list (list Z))
    (σ : store) : result (list (list (list float)) * list (list Z) * store) :=
  match range with
  | [] => Ok (scores, next_ids, σ)
  | j :: range' =>
      _scores ← column j scores;
      let _scores :=
        match watermark_processor self with
        | Some processor => processor_call processor input_ids _scores
        | None => _scores
        end in
      let _scores :=
        match repetition_processor self with
        | Some processor => processor_call processor input_ids _scores
        | None => _scores
        end in
      let _scores :=
        fold_left (fun _scores warper => processor_call warper input_ids _scores)
          (warpers self) _scores in
      '(_next_ids, σ) ← call_choice (choice self) _scores σ;
      scores ← set_column j scores _scores;
      next_ids ← set_column j next_ids _next_ids;
      select_loop self input_ids range' scores next_ids σ
  end.

(** What a step returns. *)
Record step : Type := {
  step_next_ids : list Z;
  step_next_logprobs : list float;
  step_logprobs : list (list float);
  step_accepted_ids : list Z;
  step_speculative_ids : option (list (list Z))
}.

Definition __call__ `{Torch} `{LogitsProcess} (self : t) (input_ids : list (list Z))
    (scores : list (list float)) (speculate : Z)
    (speculated_ids : option (list (list Z)))
    (speculative_scores : option (list (list (list float)))) (verbose : bool)
    (σ : store) : result (step * store) :=
  let B :=
    match speculated_ids with
    | Some ids => (length scores / (shape1 ids + 1))%nat
    | None => length scores
    end in
  let S :=
    match speculated_ids with
    | Some ids => (shape1 ids + 1)%nat
    | None => 1%nat
    end in
  scores ← view B S scores;
  let next_ids := replicate B (replicate S 0) in
  '(scores, next_ids, σ) ← select_loop self input_ids (seq 0 S) scores next_ids σ;
  let next_ids := concat next_ids in
  let scores := concat scores in
  '(next_ids, scores, accepted_ids, speculative_scores) ←
    match speculated_ids with
    | Some ids =>
        '(kept, accepted_ids, indices) ← speculative_validation next_ids ids;
        scores ← list_index scores indices;
        let indices := map (fun i => Z.of_nat (i * S)) (seq 0 B) in
        speculative_scores ←
          match speculative_scores with
          | Some t =>
              if (length indices =? length accepted_ids)%nat
              then Some <$>
                     tensor_index t
                       (zip_with (fun i a => i + a - 1) indices accepted_ids)
              else Raise RuntimeError
          | None => Ok None
          end;
        Ok (kept, scores, accepted_ids, speculative_scores)
    | None => Ok (next_ids, scores, map (fun _ => 1) next_ids, speculative_scores)
    end;
  let logprobs := map log_softmax scores in
  next_logprobs ← gather logprobs (map (fun id => [id]) next_ids);
  let next_logprobs := concat next_logprobs in
  speculative_ids ←
    (if 0 <? speculate then
       match speculative_scores with
       | Some t => Ok (Some (map (map argmax) t))
       | None =>
           Some <$>
             create_n_gram_speculation input_ids next_ids accepted_ids speculate verbose
       end
     else Ok None);
  Ok ({| step_next_ids := next_ids;
         step_next_logprobs := next_logprobs;
         step_logprobs := logprobs;
         step_accepted_ids := accepted_ids;
         step_speculative_ids := speculative_ids |}, σ).

Definition filter `{LogitsProcess} (self : t) (indices : list nat) : result t :=
  let watermark_processor :=
    match watermark_processor self with
    | Some p => processor_filter p indices
    | None => None
    end in
  let repetition_processor :=
    match repetition_processor self with
    | Some p => processor_filter p indices
    | None => None
    end in
  let filtered_warpers :=
    omap (fun warper => processor_filter warper indices) (warpers self) in
  seeds ← list_index (seeds self) indices;
  do_sample ← list_index (do_sample self) indices;
  choice ←
    (if any do_sample then
       match choice self with
       | ChoiceHeterogeneousSampling sampling =>
           Ok (ChoiceHeterogeneousSampling (HeterogeneousSampling.filter sampling indices))
       | _ => Raise AttributeError
       end
     else Ok ChoiceGreedy);
  Ok {| watermark_processor := watermark_processor;
        repetition_processor := repetition_processor;
        warpers := filtered_warpers;
        choice := choice;
        seeds := seeds;
        do_sample := do_sample |}.

End HeterogeneousNextTokenChooser.

(** ** Notions of the design document *)

(** The length of the longest common prefix of two sequences of ids. *)
Fixpoint common_prefix_length (a b : list Z) : nat :=
  match a, b with
  | x :: a', y :: b' => if x =? y then S (common_prefix_length a' b') else O
  | _, _ => O
  end.

(** [chosen = next_ids[i*S:(i+1)*S]], the ids chosen for sequence [i]. *)
Definition chosen_ids (S : nat) (next_ids : list Z) (i : nat) : list Z :=
  slice (i * S) ((i + 1) * S) next_ids.

(** The length of the matching run of sequence [i]: the run is the common
    prefix of [proposed = speculated_ids[i]] and [chosen[:-1]]. *)
Definition matching_run (S : nat) (next_ids : list Z) (speculated_ids : list (list Z))
    (i : nat) : nat :=
  common_prefix_length (speculated_ids !!! i) (but_last (chosen_ids S next_ids i)).

(** The position of the first occurrence of [seed] in [row]. *)
Fixpoint first_occurrence (seed : Z) (row : list Z) : option nat :=
  match row with
  | [] => None
  | x :: row' => if x =? seed then Some O else S <$> first_occurrence seed row'
  end.

(** The position of the last, that is the most recent, occurrence. *)
Fixpoint last_occurrence (seed : Z) (row : list Z) : option nat :=
  match row with
  | [] => None
  | x :: row' =>
      match last_occurrence seed row' with
      | Some p => Some (S p)
      | None => if x =? seed then Some O else None
      end
  end.

(** The [speculate] ids of [row] from position [start] on, the positions
    clamped to the last position of the row. *)
Definition following (row : list Z) (start : nat) (speculate : nat) : list Z :=
  map (fun j => row !!! Nat.min (start + j) (length row - 1)) (seq 0 speculate).

(** The proposal the code makes for one sequence: the ids that follow the
    first occurrence of the seed, position 0 standing for that occurrence
    when the seed does not occur. *)
Definition n_gram_after_first (row : list Z) (seed : Z) (speculate : nat) : list Z :=
  following row (default O (first_occurrence seed row) + 1) speculate.

(** The proposal as the design document words it: the ids that follow the
    most recent occurrence of the seed, and the most recent tail of the
    history when the seed does not occur. *)
Definition n_gram_after_most_recent (row : list Z) (seed : Z) (speculate : nat)
  : list Z :=
  match last_occurrence seed row with
  | Some p => following row (p + 1) speculate
  | None => following row (length row - speculate) speculate
  end.

(** The sampler that a chooser's [choice] holds for row [i], if any: the
    rows without one are chosen greedily. *)
Definition row_sampler (c : Choice) (i : nat) : option loc :=
  match c with
  | ChoiceGreedy => None
  | ChoiceSampling sampling => Some sampling
  | ChoiceHeterogeneousSampling sampling =>
      HeterogeneousSampling.sampling_mapping sampling !! i
  end.

(** A stand-in for torch in the examples: the generator is a counter set to
    the seed, every draw is 1 and advances the counter, and the scores are
    taken as they are for the probabilities. *)
Definition example_torch : Torch :=
  {| Generator := Z;
     manual_seed := fun seed => seed;
     softmax := fun logits => logits;
     log_softmax := fun scores => scores;
     exponential_ := fun g n => (replicate n 1%float, g + 1) |}.

(** Two rows never share a sampler. *)
Definition samplers_separate (sampling_mapping : gmap nat loc) : Prop :=
  forall (i j : nat) (l : loc),
    sampling_mapping !! i = Some l -> sampling_mapping !! j = Some l -> i = j.

(** Every sampler of the map is an object of the store. *)
Definition samplers_allocated `{Torch} (sampling_mapping : gmap nat loc) (σ : store)
  : Prop :=
  forall (i : nat) (l : loc), sampling_mapping !! i = Some l -> (l < length σ)%nat.

(** Processors for the examples: every processor stays as it is when rows
    are removed. *)
Definition example_processors : LogitsProcess :=
  {| processor_filter := fun processor _ => Some processor;
     processor_call := fun _ _ scores => scores;
     static_warper_call := fun _ scores => (scores, scores) |}.

(** A batch of three rows for the examples: the rows 0 and 2 sample. *)
Definition example_sampling : HeterogeneousSampling.t :=
  (@HeterogeneousSampling.__init__ example_torch [true; false; true] [1; 2; 3] []).1.

Definition example_store : list (@Sampling.t example_torch) :=
  (@HeterogeneousSampling.__init__ example_torch [true; false; true] [1; 2; 3] []).2.

Definition example_chooser : HeterogeneousNextTokenChooser.t :=
  {| HeterogeneousNextTokenChooser.watermark_processor := None;
     HeterogeneousNextTokenChooser.repetition_processor := None;
     HeterogeneousNextTokenChooser.warpers := [];
     HeterogeneousNextTokenChooser.choice := ChoiceHeterogeneousSampling example_sampling;
     HeterogeneousNextTokenChooser.seeds := [1; 2; 3];
     HeterogeneousNextTokenChooser.do_sample := [true; false; true] |}.

(** ** batch_top_tokens *)

(** The floating point types of a tensor and [torch.finfo(dtype).min], the
    least finite value of each. *)
Inductive dtype : Type := float16 | bfloat16 | float32 | float64.

Definition finfo_min (d : dtype) : float :=
  match d with
  | float16 => (-65504)%float
  | bfloat16 => (-0x1.fep+127)%float
  | float32 => (-0x1.fffffep+127)%float
  | float64 => (-0x1.fffffffffffffp+1023)%float
  end.

(** Insertion of an entry (position, value) into a list sorted by
    descending value, behind the entries of a larger value and before those
    of an equal one. *)
Fixpoint insert_desc (x : nat * float) (l : list (nat * float)) : list (nat * float) :=
  match l with
  | [] => [x]
  | y :: l' => if (x.2 <? y.2)%float then y :: insert_desc x l' else x :: l
  end.

(** The entries of a row sorted by descending value; among equal values the
    lower position comes first (torch leaves that order open). *)
Definition sort_desc (row : list float) : list (nat * float) :=
  foldr insert_desc [] (enumerate row).

(** [torch.topk(row, k, sorted=True)] on one row: [k] has to be in range. *)
Definition topk_row (k : Z) (row : list float) : result (list (nat * float)) :=
  if (0 <=? k) && (k <=? Z.of_nat (length row))
  then Ok (take (Z.to_nat k) (sort_desc row))
  else Raise RuntimeError.

(** [torch.topk(t, k=k, dim=1, sorted=True)]: for every row its [indices]
    paired with its [values]. *)
Definition topk (t : list (list float)) (k : Z) : result (list (list (nat * float))) :=
  traverse (topk_row k) t.

(** [(logprobs >= nth_highest)] for a column [nth_highest] with one
    threshold per row. *)
Definition ge_column (logprobs : list (list float)) (nth_highest : list (list float))
  : result (list (list bool)) :=
  if (length logprobs =? length nth_highest)%nat then
    traverse
      (fun '(row, th) =>
         match th with
         | [x] => Ok (map (fun y => (x <=? y)%float) row)
         | _ => Raise RuntimeError
         end)
      (zip logprobs nth_highest)
  else Raise NotModelled.

(** [mask.nonzero()]: the (row, column) pairs of the true entries, row by row. *)
Definition nonzero (mask : list (list bool)) : list (nat * nat) :=
  concat
    (map (fun '(i, row) =>
            map (fun '(v, _) => (i, v))
              (List.filter (fun '(_, b) => b) (enumerate row)))
       (enumerate mask)).

(** [torch.unique_consecutive(t, return_counts=True)]: every run of equal
    entries with its length. *)
Fixpoint unique_consecutive (t : list nat) : list (nat * Z) :=
  match t with
  | [] => []
  | x :: t' =>
      match unique_consecutive t' with
      | (y, c) :: rest =>
          if (x =? y)%nat then (x, c + 1) :: rest else (x, 1) :: (y, c) :: rest
      | [] => [(x, 1)]
      end
  end.

Definition batch_top_tokens (logprobs_dtype : dtype) (top_n_tokens : list Z)
    (top_n_tokens_tensor : list Z) (logprobs : list (list float))
  : result (list (list nat) * list (list float)) :=
  max_top_n ← py_max top_n_tokens;
  if max_top_n =? 0 then
    Ok (replicate (length top_n_tokens) [], replicate (length top_n_tokens) [])
  else
    let top_n_tokens :=
      map (fun tok => Z.min tok (Z.of_nat (shape1 logprobs))) top_n_tokens in
    top ← topk logprobs max_top_n;
    let sorted_top_k := map (map snd) top in
    nth_highest ←
      gather sorted_top_k (map (fun n => [Z.max (n - 1) 0]) top_n_tokens_tensor);
    let nth_highest :=
      map (map (fun x => if (x =? neg_infinity)%float
                         then finfo_min logprobs_dtype else x)) nth_highest in
    mask ← ge_column logprobs nth_highest;
    let top_n_indices := nonzero mask in
    let top_n_ishes := map snd (unique_consecutive (map fst top_n_indices)) in
    k ← match top_n_ishes with
        | [] => Ok 1
        | _ :: _ => py_max top_n_ishes
        end;
    top_k ← topk logprobs k;
    let top_indices := map (map fst) top_k in
    let top_values := map (map snd) top_k in
    Ok (map (fun '(idxs, (n, req_n)) =>
               if 0 <? req_n then take (Z.to_nat n) idxs else [])
          (zip top_indices (zip top_n_ishes top_n_tokens)),
        map (fun '(vals, (n, req_n)) =>
               if 0 <? req_n then take (Z.to_nat n) vals else [])
          (zip top_values (zip top_n_ishes top_n_tokens))).

(** A row without NaN. *)
Definition no_nan (row : list float) : Prop := Forall (fun x => is_nan x = false) row.

(** The value at rank [n] of a row ([n >= 1]): the [n]-th largest value. *)
Definition rank_value (row : list float) (n : nat) : option float :=
  snd <$> sort_desc row !! (n - 1)%nat.

(** The threshold of a row for the requested count [n]: the value at rank
    [n] (at rank 1 when [n] is 0), with the least finite value of the dtype
    in place of minus infinity. *)
Definition threshold (d : dtype) (row : list float) (n : nat) : option float :=
  (fun x => if (x =? neg_infinity)%float then finfo_min d else x)
    <$> rank_value row (Nat.max n 1).

(** Sorted by descending value. *)
Definition descending (l : list (nat * float)) : Prop :=
  StronglySorted (fun a b => (b.2 <=? a.2)%float = true) l.

(** The number of true entries of a row of a mask. *)
Definition count_true (row : list bool) : nat :=
  length (List.filter (fun b : bool => b) row).

(** The threshold that the code computes for a row and its requested count. *)
Definition row_threshold (d : dtype) (row : list float) (n : Z) : float :=
  let x := default 0%float (rank_value row (Nat.max (Z.to_nat n) 1)) in
  if (x =? neg_infinity)%float then finfo_min d else x.

(** The number of entries of a row at or above its threshold. *)
Definition row_count (d : dtype) (row : list float) (n : Z) : nat :=
  length (List.filter (fun y => (row_threshold d row n <=? y)%float) row).

(** A chooser of one greedy sequence for the examples, and scores over a
    vocabulary of 10 ids whose largest entry is at [k]. *)
Definition example_greedy_chooser : HeterogeneousNextTokenChooser.t :=
  (@HeterogeneousNextTokenChooser.__init__ example_torch [false] [1%float] [1%float]
     [0] [1%float] [1%float] [false] [0] []).1.

Definition example_scores (k : nat) : list float :=
  map (fun i => if (i =? k)%nat then 1%float else 0%float) (seq 0 10).

(** ** The messages of generate.proto that the constructors read

    [from_pb] reads these fields of the two messages; every field of a
    message has a value. *)

Module generate_pb2.

Record NextTokenChooserParameters : Type := {
  temperature : float;
  top_k : Z;
  top_p : float;
  typical_p : float;
  do_sample : bool;
  seed : Z;
  repetition_penalty : float;
  watermark : bool
}.

Record StoppingCriteriaParameters : Type := {
  max_new_tokens : Z;
  stop_sequences : list string;
  ignore_eos_token : bool
}.

End generate_pb2.

(** [StoppingCriteria.from_pb(pb, tokenizer)], from [tokenizer.eos_token_id]. *)
Definition StoppingCriteria_from_pb (pb : generate_pb2.StoppingCriteriaParameters)
    (tokenizer_eos_token_id : Z) : result StoppingCriteria.t :=
  stop_sequence_criterias ←
    traverse StopSequenceCriteria.__init__ (generate_pb2.stop_sequences pb);
  Ok (StoppingCriteria.__init__ tokenizer_eos_token_id stop_sequence_criterias
        (generate_pb2.max_new_tokens pb) (generate_pb2.ignore_eos_token pb)).

(** [NextTokenChooser.from_pb(pb, device)]. *)
Definition NextTokenChooser_from_pb `{Torch}
    (pb : generate_pb2.NextTokenChooserParameters) (σ : store)
  : NextTokenChooser.t * store :=
  NextTokenChooser.__init__ (generate_pb2.watermark pb)
    (Some (generate_pb2.temperature pb)) (generate_pb2.repetition_penalty pb)
    (Some (generate_pb2.top_k pb)) (Some (generate_pb2.top_p pb))
    (Some (generate_pb2.typical_p pb)) (generate_pb2.do_sample pb)
    (generate_pb2.seed pb) σ.

(** [HeterogeneousNextTokenChooser.from_pb(pb, dtype, device)]. *)
Definition HeterogeneousNextTokenChooser_from_pb `{Torch}
    (pb : list generate_pb2.NextTokenChooserParameters) (σ : store)
  : HeterogeneousNextTokenChooser.t * store :=
  HeterogeneousNextTokenChooser.__init__
    (map generate_pb2.watermark pb) (map generate_pb2.temperature pb)
    (map generate_pb2.repetition_penalty pb) (map generate_pb2.top_k pb)
    (map generate_pb2.top_p pb) (map generate_pb2.typical_p pb)
    (map generate_pb2.do_sample pb) (map generate_pb2.seed pb) σ.

(** The text of a run of calls: the pieces of text handed to the calls, one
    after the other. *)
Definition run_text (inputs : list (Z * string)) : list ascii :=
  concat (map (fun x => list_ascii_of_string x.2) inputs).

(** [output.endswith(stop)], or the same before one final newline. *)
Definition ends_with_stop (stop : string) (output : list ascii) : Prop :=
  list_ascii_of_string stop `suffix_of` output
  \/ (list_ascii_of_string stop ++ [Re.newline]) `suffix_of` output.

(** The buffer against the whole text: the buffer is the end of the text,
    and the whole of it or at least 200 characters. *)
Definition buffer_of (buffer T : list ascii) : Prop :=
  buffer `suffix_of` T /\ (buffer = T \/ (200 <= length buffer)%nat).

(** The ids that the validation keeps for sequence [i]: the chosen ids up
    to the one that follows the matching run. *)
Definition kept_ids (S : nat) (next_ids : list Z) (speculated_ids : list (list Z))
    (i : nat) : list Z :=
  take (1 + matching_run S next_ids speculated_ids i) (chosen_ids S next_ids i).

(** The sum of a list of integers. *)
Definition sum_Z (l : list Z) : Z := foldr Z.add 0 l.

(** A chooser without processors and warpers that selects greedily, as
    [__init__] makes it from the neutral parameters. *)
Definition greedy_chooser (self : HeterogeneousNextTokenChooser.t) : Prop :=
  HeterogeneousNextTokenChooser.watermark_processor self = None
  /\ HeterogeneousNextTokenChooser.repetition_processor self = None
  /\ HeterogeneousNextTokenChooser.warpers self = []
  /\ HeterogeneousNextTokenChooser.choice self = ChoiceGreedy.

(** The log-probability of the id with the largest score of a row. *)
Definition argmax_logprob `{Torch} (row : list float) : float :=
  default 0%float (log_softmax row !! Z.to_nat (argmax row)).

(** The rows of a batch of [n] rows between the two selections: a row is in
    [greedy_indices] exactly when it is a row of the batch without a
    sampler, and every key of [sampling_mapping] is a row of the batch. *)
Definition rows_partitioned (hs : HeterogeneousSampling.t) (n : nat) : Prop :=
  forall i : nat,
    (i ∈ HeterogeneousSampling.greedy_indices hs
     <-> (i < n)%nat /\ HeterogeneousSampling.sampling_mapping hs !! i = None)
    /\ (is_Some (HeterogeneousSampling.sampling_mapping hs !! i) -> (i < n)%nat).

(** A chooser whose selection agrees with its flags: one seed and one flag
    for every row, a sampler for exactly the rows whose flag is set, no
    sampler shared by two rows, and every sampler an object of the store. *)
Definition chooser_consistent `{Torch} (self : HeterogeneousNextTokenChooser.t)
    (σ : store) : Prop :=
  length (HeterogeneousNextTokenChooser.seeds self)
  = length (HeterogeneousNextTokenChooser.do_sample self)
  /\ (forall i : nat,
        is_Some (row_sampler (HeterogeneousNextTokenChooser.choice self) i)
        <-> HeterogeneousNextTokenChooser.do_sample self !! i = Some true)
  /\ match HeterogeneousNextTokenChooser.choice self with
     | ChoiceGreedy => True
     | ChoiceSampling _ => False
     | ChoiceHeterogeneousSampling sampling =>
         samplers_separate (HeterogeneousSampling.sampling_mapping sampling)
         /\ samplers_allocated (HeterogeneousSampling.sampling_mapping sampling) σ
     end.

(** The id that the greedy selection gives for a row without NaN: the
    position of a largest value of the row, the first one of them. *)
Definition first_largest (row : list float) (id : Z) : Prop :=
  0 <= id
  /\ exists x : float,
       row !! Z.to_nat id = Some x
       /\ (forall y : float, y ∈ row -> (y <=? x)%float = true)
       /\ (forall (j : nat) (y : float),
             (j < Z.to_nat id)%nat -> row !! j = Some y -> (y <? x)%float = true).

(** The id that the greedy selection gives for a row with a NaN: the
    position of the first NaN. *)
Definition first_nan (row : list float) (id : Z) : Prop :=
  0 <= id
  /\ exists x : float,
       row !! Z.to_nat id = Some x /\ is_nan x = true
       /\ forall (j : nat) (y : float),
            (j < Z.to_nat id)%nat -> row !! j = Some y -> is_nan y = false.

(** * Properties *)

(** ** Stop sequences *)

Lemma special_not_word (c : ascii) :
  Re.is_special c = true -> Re.is_word c = false.
Proof.
  destruct c as [[] [] [] [] [] [] [] []]; vm_compute; congruence.
Qed.

Lemma plain_char (c : ascii) :
  Re.is_special c = false ->
  Ascii.eqb c Re.backslash = false /\ Ascii.eqb c (ascii_of_nat 46) = false
  /\ Ascii.eqb c (ascii_of_nat 36) = false /\ Re.is_meta c = false.
Proof.
  destruct c as [[] [] [] [] [] [] [] []]; vm_compute; intros; auto; congruence.
Qed.

(** Escaping makes every character of the stop string a literal. *)
Lemma parse_escape_chars (s rest : list ascii) (ns : list Re.node) :
  Re.parse rest = Ok ns ->
  Re.parse (Re.escape_chars s ++ rest) = Ok (map Re.Literal s ++ ns).
Proof.
  intros Hrest. induction s as [|c s IH]; [exact Hrest|].
  cbn [Re.escape_chars map]. destruct (Re.is_special c) eqn:Hc.
  - cbn [app Re.parse].
    replace (Ascii.eqb Re.backslash Re.backslash) with true by reflexivity.
    rewrite (special_not_word _ Hc), IH. reflexivity.
  - destruct (plain_char _ Hc) as (H1 & H2 & H3 & H4).
    cbn [app Re.parse]. rewrite H1, H2, H3, H4, IH. reflexivity.
Qed.

Lemma list_ascii_of_string_app (s1 s2 : string) :
  list_ascii_of_string (s1 +:+ s2)
  = list_ascii_of_string s1 ++ list_ascii_of_string s2.
Proof.
  induction s1 as [|c s1 IH]; cbn; [reflexivity|]. now rewrite <- IH.
Qed.

Lemma stop_sequence_init (stop : string) :
  StopSequenceCriteria.__init__ stop
  = Ok {| StopSequenceCriteria.regex :=
            map Re.Literal (list_ascii_of_string stop) ++ [Re.AtEnd] |}.
Proof.
  unfold StopSequenceCriteria.__init__, Re.compile, Re.escape.
  rewrite list_ascii_of_string_app, list_ascii_of_string_of_list_ascii.
  rewrite (parse_escape_chars _ _ [Re.AtEnd]); reflexivity.
Qed.

Lemma at_end_iff (t : list ascii) :
  Re.at_end t = true <-> t = [] \/ t = [Re.newline].
Proof.
  destruct t as [|c [|d t]]; cbn; split; intros H; auto.
  - right. apply Ascii.eqb_eq in H. now subst.
  - destruct H as [H|H]; [discriminate|]. injection H as ->. apply Ascii.eqb_refl.
  - discriminate.
  - destruct H; discriminate.
Qed.

Lemma match_here_literal (s t : list ascii) :
  is_Some (Re.match_here (map Re.Literal s ++ [Re.AtEnd]) t)
  <-> t = s \/ t = s ++ [Re.newline].
Proof.
  revert t. induction s as [|c s IH]; intros t.
  - cbn [map app Re.match_here]. rewrite <- at_end_iff.
    destruct (Re.at_end t); split; intros H; eauto; try discriminate.
    destruct H; discriminate.
  - cbn [map app Re.match_here]. destruct t as [|x t].
    + split; [intros [? ?]; discriminate | intros [?|?]; discriminate].
    + destruct (Ascii.eqb x c) eqn:Hx.
      * apply Ascii.eqb_eq in Hx. subst x. specialize (IH t).
        destruct (Re.match_here (map Re.Literal s ++ [Re.AtEnd]) t) as [m|].
        -- cbn. split; [intros _|eauto].
           destruct (proj1 IH) as [->| ->]; eauto.
        -- cbn. split; [intros [? ?]; discriminate|].
           intros H. exfalso.
           assert (Ht : t = s \/ t = s ++ [Re.newline])
             by (destruct H as [H|H]; injection H; auto).
           apply IH in Ht. destruct Ht; discriminate.
      * split; [intros [? ?]; discriminate|].
        apply Ascii.eqb_neq in Hx. intros [H|H]; injection H; congruence.
Qed.

Lemma scan_nil (ns : list Re.node) (text : list ascii) :
  Re.scan ns 0 text = [] <->
  forall suf, suf `suffix_of` text -> Re.match_here ns suf = None.
Proof.
  induction text as [|c text IH].
  - cbn [Re.scan]. split.
    + intros H suf Hsuf. apply suffix_nil_inv in Hsuf. subst suf.
      destruct (Re.match_here ns []); [discriminate|reflexivity].
    + intros H. rewrite (H [] (suffix_nil _)). reflexivity.
  - cbn [Re.scan]. split.
    + intros H suf Hsuf.
      destruct (Re.match_here ns (c :: text)) eqn:Hm; [discriminate|].
      destruct Hsuf as [[|d k] Hk]; cbn in Hk.
      * now subst suf.
      * injection Hk as _ Hk. apply IH; [|now exists k].
        now destruct (Re.match_here ns (c :: text)).
    + intros H. rewrite (H (c :: text)) by reflexivity.
      apply IH. intros suf Hsuf. apply H. now apply suffix_cons_r.
Qed.

(** What the check computes: the buffer ends with the stop string, or with
    the stop string and one newline after it. *)
Lemma stop_sequence_call_iff (stop output : string) (c : StopSequenceCriteria.t) :
  StopSequenceCriteria.__init__ stop = Ok c ->
  StopSequenceCriteria.__call__ c output = true <->
  list_ascii_of_string stop `suffix_of` list_ascii_of_string output
  \/ (list_ascii_of_string stop ++ [Re.newline])
       `suffix_of` list_ascii_of_string output.
Proof.
  rewrite stop_sequence_init. intros [= <-].
  unfold StopSequenceCriteria.__call__, Re.findall. cbn [StopSequenceCriteria.regex].
  set (ns := map Re.Literal (list_ascii_of_string stop) ++ [Re.AtEnd]).
  set (text := list_ascii_of_string output).
  pose proof (scan_nil ns text) as Hscan.
  split.
  - intros H.
    destruct (decide (list_ascii_of_string stop `suffix_of` text)) as [|H1]; [auto|].
    destruct (decide ((list_ascii_of_string stop ++ [Re.newline]) `suffix_of` text))
      as [|H2]; [auto|].
    assert (Hnil : Re.scan ns 0 text = []).
    { apply Hscan. intros suf Hsuf.
      destruct (Re.match_here ns suf) eqn:Hm; [|reflexivity].
      assert (Hs : is_Some (Re.match_here ns suf)) by (rewrite Hm; eauto).
      apply match_here_literal in Hs. destruct Hs as [-> | ->]; contradiction. }
    rewrite Hnil in H. discriminate.
  - intros H. destruct (Re.scan ns 0 text) eqn:Hs; [|reflexivity].
    exfalso. pose proof (proj1 Hscan eq_refl) as Hall.
    destruct H as [H|H]; specialize (Hall _ H);
      match type of Hall with
      | Re.match_here ns ?t = None =>
          assert (Hsome : is_Some (Re.match_here ns t))
            by (apply match_here_literal; auto)
      end; rewrite Hall in Hsome; destruct Hsome; discriminate.
Qed.

(** C8, at the input where the code leaves the claim: the stop string [a]
    and the buffer made of [a] and a newline. The buffer does not end with
    the stop string, since its last character is the newline, and the check
    answers [true] all the same: the [$] after the escaped stop string also
    matches just before a final newline. *)
Theorem stop_sequence_matches_before_final_newline :
  (c ← StopSequenceCriteria.__init__ "a";
   Ok (StopSequenceCriteria.__call__ c (String "a" (String Re.newline "")))) = Ok true
  /\ ~ list_ascii_of_string "a"
        `suffix_of` list_ascii_of_string (String "a" (String Re.newline "")).
Proof.
  split; [reflexivity|].
  intros [k Hk]. cbn in Hk.
  destruct k as [|x [|y [|z k]]]; cbn in Hk; try discriminate.
  all: repeat (injection Hk as _ Hk); try discriminate; destruct k; discriminate.
Qed.

(** A regular expression character in the stop string stands for itself:
    [a.b] stops on [a.b] and not on [axb]. *)
Lemma stop_sequence_dot_is_literal :
  (c ← StopSequenceCriteria.__init__ "a.b";
   Ok (StopSequenceCriteria.__call__ c "xa.b", StopSequenceCriteria.__call__ c "axb"))
  = Ok (true, false).
Proof. reflexivity. Qed.

(** A stop string in the middle of the buffer does not stop. *)
Lemma stop_sequence_not_in_the_middle :
  (c ← StopSequenceCriteria.__init__ "ab";
   Ok (StopSequenceCriteria.__call__ c "xabx")) = Ok false.
Proof. reflexivity. Qed.

(** ** Stopping criteria *)

Lemma stopping_call_state (self : StoppingCriteria.t) (tok : Z) (txt : string) :
  let self' := (StoppingCriteria.__call__ self tok txt).1 in
  StoppingCriteria.current_tokens self' = StoppingCriteria.current_tokens self + 1
  /\ StoppingCriteria.max_new_tokens self' = StoppingCriteria.max_new_tokens self.
Proof.
  unfold StoppingCriteria.__call__. cbn.
  repeat match goal with
         | |- context [if ?b then _ else _] => destruct b
         | |- context [match ?l with [] => _ | _ :: _ => _ end] => destruct l
         end; cbn; auto.
Qed.

(** The length check comes first: at the token that uses up the budget the
    reason is LENGTH whatever the token and the text are. *)
Lemma stopping_call_length (self : StoppingCriteria.t) (tok : Z) (txt : string) :
  StoppingCriteria.max_new_tokens self <= StoppingCriteria.current_tokens self + 1 ->
  (StoppingCriteria.__call__ self tok txt).2 = (true, Some FINISH_REASON_LENGTH).
Proof.
  intros H. unfold StoppingCriteria.__call__. cbn.
  destruct (Z.geb_spec (StoppingCriteria.current_tokens self + 1)
              (StoppingCriteria.max_new_tokens self)); [reflexivity|lia].
Qed.

Lemma stopping_call_below (self : StoppingCriteria.t) (tok : Z) (txt : string) :
  StoppingCriteria.current_tokens self + 1 < StoppingCriteria.max_new_tokens self ->
  let r := (StoppingCriteria.__call__ self tok txt).2 in
  r = (false, None) \/ r = (true, Some FINISH_REASON_EOS_TOKEN)
  \/ r = (true, Some FINISH_REASON_STOP_SEQUENCE).
Proof.
  intros H. unfold StoppingCriteria.__call__. cbn.
  destruct (Z.geb_spec (StoppingCriteria.current_tokens self + 1)
              (StoppingCriteria.max_new_tokens self)); [lia|].
  repeat match goal with
         | |- context [if ?b then _ else _] => destruct b
         | |- context [match ?l with [] => _ | _ :: _ => _ end] => destruct l
         end; cbn; auto.
Qed.

Lemma stopping_calls_length (inputs : list (Z * string)) (self : StoppingCriteria.t) :
  length (StoppingCriteria.calls self inputs).2 = length inputs.
Proof.
  revert self. induction inputs as [|[tok txt] inputs IH]; intros self; [reflexivity|].
  cbn [StoppingCriteria.calls].
  destruct (StoppingCriteria.__call__ self tok txt) as [self1 r].
  specialize (IH self1). destruct (StoppingCriteria.calls self1 inputs). cbn in *.
  now rewrite IH.
Qed.

(** The result of call number [k] (counted from 0) of a run, from the value
    of the counter before the run. *)
Lemma stopping_calls_lookup (inputs : list (Z * string)) (self : StoppingCriteria.t)
    (k : nat) (r : bool * option FinishReason) :
  (StoppingCriteria.calls self inputs).2 !! k = Some r ->
  (StoppingCriteria.max_new_tokens self
     <= StoppingCriteria.current_tokens self + Z.of_nat k + 1 ->
   r = (true, Some FINISH_REASON_LENGTH))
  /\ (StoppingCriteria.current_tokens self + Z.of_nat k + 1
        < StoppingCriteria.max_new_tokens self ->
      r = (false, None) \/ r = (true, Some FINISH_REASON_EOS_TOKEN)
      \/ r = (true, Some FINISH_REASON_STOP_SEQUENCE)).
Proof.
  revert self k. induction inputs as [|[tok txt] inputs IH]; intros self k;
    [discriminate|].
  cbn [StoppingCriteria.calls].
  pose proof (stopping_call_state self tok txt) as [Hc Hm].
  pose proof (stopping_call_length self tok txt) as Hlen.
  pose proof (stopping_call_below self tok txt) as Hlow.
  destruct (StoppingCriteria.__call__ self tok txt) as [self1 r1]. cbn in *.
  specialize (IH self1).
  destruct (StoppingCriteria.calls self1 inputs) as [self2 rs]. cbn in *.
  destruct k as [|k]; cbn.
  - intros [= <-]. split; intros H; [apply Hlen|apply Hlow]; lia.
  - intros Hk. specialize (IH k Hk). rewrite Hc, Hm in IH.
    split; intros H; apply IH; lia.
Qed.

(** C5: with a budget of [N >= 1] new tokens, call number [N] of a fresh
    criteria object returns terminal with reason LENGTH, whatever tokens and
    texts are passed (so also when token [N] is the end-of-sequence token),
    and each earlier call returns either non-terminal or one of the reasons
    EOS_TOKEN and STOP_SEQUENCE, never LENGTH. *)
Theorem stopping_length_at_call_N (eos : Z) (crits : list StopSequenceCriteria.t)
    (ignore_eos : bool) (N : Z) (inputs : list (Z * string)) :
  1 <= N ->
  length inputs = Z.to_nat N ->
  let results :=
    (StoppingCriteria.calls (StoppingCriteria.__init__ eos crits N ignore_eos) inputs).2 in
  results !! (Z.to_nat N - 1)%nat = Some (true, Some FINISH_REASON_LENGTH)
  /\ forall (k : nat) (r : bool * option FinishReason),
       (k < Z.to_nat N - 1)%nat -> results !! k = Some r ->
       r = (false, None) \/ r = (true, Some FINISH_REASON_EOS_TOKEN)
       \/ r = (true, Some FINISH_REASON_STOP_SEQUENCE).
Proof.
  intros HN Hlen results. split.
  - destruct (results !! (Z.to_nat N - 1)%nat) as [r|] eqn:Hr.
    + apply stopping_calls_lookup in Hr. destruct Hr as [Hr _].
      rewrite Hr; [reflexivity|]. cbn. lia.
    + apply lookup_ge_None in Hr. subst results.
      rewrite stopping_calls_length in Hr. lia.
  - intros k r Hk Hr. apply stopping_calls_lookup in Hr. destruct Hr as [_ Hr].
    apply Hr. cbn. lia.
Qed.

Lemma stopping_length_at_call_N_witness :
  (StoppingCriteria.calls (StoppingCriteria.__init__ 2 [] 3 false)
     [(5, "a"); (6, "b"); (2, "c")]%string).2 !! (Z.to_nat 3 - 1)%nat
  = Some (true, Some FINISH_REASON_LENGTH)
  /\ forall (k : nat) (r : bool * option FinishReason),
       (k < Z.to_nat 3 - 1)%nat ->
       (StoppingCriteria.calls (StoppingCriteria.__init__ 2 [] 3 false)
          [(5, "a"); (6, "b"); (2, "c")]%string).2 !! k = Some r ->
       r = (false, None) \/ r = (true, Some FINISH_REASON_EOS_TOKEN)
       \/ r = (true, Some FINISH_REASON_STOP_SEQUENCE).
Proof.
  apply (stopping_length_at_call_N 2 [] false 3 [(5, "a"); (6, "b"); (2, "c")]%string);
    [lia | reflexivity].
Defined.

(** C9: with a budget of 0 new tokens the first call of a fresh criteria
    object returns terminal with reason LENGTH, whatever the token and the
    text are. *)
Theorem stopping_zero_budget (eos : Z) (crits : list StopSequenceCriteria.t)
    (ignore_eos : bool) (last_token : Z) (last_output : string) :
  (StoppingCriteria.__call__ (StoppingCriteria.__init__ eos crits 0 ignore_eos)
     last_token last_output).2
  = (true, Some FINISH_REASON_LENGTH).
Proof. apply stopping_call_length. cbn. lia. Qed.

(** ** Speculative validation *)

Lemma accept_loop_zip (a b : list Z) (index : nat) (accepted : Z) (indices : list nat) :
  HeterogeneousNextTokenChooser.accept_loop (zip_with Z.eqb a b) index accepted indices
  = ((index + common_prefix_length b a)%nat,
     accepted + Z.of_nat (common_prefix_length b a),
     indices ++ map (fun k => (index + k)%nat) (seq 1 (common_prefix_length b a))).
Proof.
  revert b index accepted indices.
  induction a as [|x a IH]; intros [|y b] index accepted indices; cbn;
    rewrite ?Nat.add_0_r, ?Z.add_0_r, ?app_nil_r; try reflexivity.
  rewrite (Z.eqb_sym y x). destruct (x =? y); cbn;
    rewrite ?Nat.add_0_r, ?Z.add_0_r, ?app_nil_r; [|reflexivity].
  rewrite IH, <- app_assoc. cbn. f_equal; [f_equal; lia|].
  f_equal. f_equal. rewrite <- (fmap_S_seq 1).
  change (map ?f (S <$> ?l)) with (map f (map S l)). rewrite map_map.
  apply map_ext. intros k. lia.
Qed.

Lemma common_prefix_length_le (a b : list Z) :
  (common_prefix_length a b <= length a)%nat.
Proof.
  revert b. induction a as [|x a IH]; intros [|y b]; cbn; try lia.
  destruct (x =? y); cbn; [specialize (IH b)|]; lia.
Qed.

Lemma common_prefix_length_lookup (a b : list Z) (k : nat) :
  (k < common_prefix_length a b)%nat -> b !! k = a !! k /\ is_Some (a !! k).
Proof.
  revert b k. induction a as [|x a IH]; intros [|y b] k; cbn; try lia.
  destruct (Z.eqb_spec x y); [|lia]. subst y.
  destruct k as [|k]; cbn; [eauto|]. intros Hk. apply IH. lia.
Qed.

Lemma common_prefix_length_stop (a b : list Z) (x y : Z) :
  a !! common_prefix_length a b = Some x ->
  b !! common_prefix_length a b = Some y -> x <> y.
Proof.
  revert b. induction a as [|u a IH]; intros [|v b]; cbn; try discriminate.
  destruct (Z.eqb_spec u v); cbn; [apply IH|]. congruence.
Qed.

Lemma chosen_ids_length (S : nat) (next_ids : list Z) (i : nat) :
  ((i + 1) * S <= length next_ids)%nat -> length (chosen_ids S next_ids i) = S.
Proof.
  intros H. unfold chosen_ids, slice. rewrite length_take, length_drop. lia.
Qed.

Lemma traverse_app {A B : Type} (f : A -> result B) (l1 l2 : list A) (r1 r2 : list B) :
  traverse f l1 = Ok r1 -> traverse f l2 = Ok r2 ->
  traverse f (l1 ++ l2) = Ok (r1 ++ r2).
Proof.
  revert r1. induction l1 as [|x l1 IH]; intros r1; cbn.
  - intros [= <-] H. exact H.
  - destruct (f x) as [y|]; cbn; [|discriminate].
    destruct (traverse f l1) as [ys|]; cbn; [|discriminate].
    intros [= <-] H. rewrite (IH ys eq_refl H). reflexivity.
Qed.

Lemma getitem_Some {A : Type} (l : list A) (i : nat) (x : A) :
  l !! i = Some x -> getitem l i = Ok x.
Proof. intros H. unfold getitem. now rewrite H. Qed.

Lemma list_index_range {A : Type} (l : list A) (a m : nat) :
  (a + m <= length l)%nat ->
  list_index l (map (fun k => (a + k)%nat) (seq 0 m)) = Ok (take m (drop a l)).
Proof.
  unfold list_index. revert a. induction m as [|m IH]; intros a Ha; [reflexivity|].
  cbn [seq map traverse]. rewrite Nat.add_0_r.
  destruct (l !! a) as [x|] eqn:Hx; [|apply lookup_ge_None in Hx; lia].
  rewrite (getitem_Some _ _ _ Hx). cbn [mbind result_bind].
  rewrite <- (fmap_S_seq 0).
  change (map ?f (S <$> ?s)) with (map f (map S s)). rewrite map_map.
  rewrite (map_ext _ (fun k => (S a + k)%nat)) by (intros; lia).
  rewrite IH by lia. cbn. f_equal.
  rewrite (drop_S l x a Hx). reflexivity.
Qed.

Lemma validate_sequence_ok (S : nat) (next_ids : list Z) (speculated_ids : list (list Z))
    (st : list Z * list nat) (i : nat) :
  (i < length speculated_ids)%nat ->
  ((i + 1) * S <= length next_ids)%nat ->
  length (speculated_ids !!! i) = (S - 1)%nat ->
  HeterogeneousNextTokenChooser.validate_sequence S next_ids speculated_ids st i
  = Ok (st.1 ++ [1 + Z.of_nat (matching_run S next_ids speculated_ids i)],
        st.2 ++ map (fun k => (i * S + k)%nat)
                  (seq 0 (1 + matching_run S next_ids speculated_ids i))).
Proof.
  intros Hi Hlen Hrow. destruct st as [accepted_ids indices].
  unfold HeterogeneousNextTokenChooser.validate_sequence, getitem.
  rewrite (list_lookup_lookup_total_lt speculated_ids i Hi). cbn [mbind result_bind].
  fold (chosen_ids S next_ids i). unfold tensor_eq.
  assert (Hb : length (but_last (chosen_ids S next_ids i)) = (S - 1)%nat).
  { unfold but_last. rewrite length_take, chosen_ids_length by exact Hlen. lia. }
  rewrite Hb, Hrow, Nat.eqb_refl. cbn [mbind result_bind].
  rewrite accept_loop_zip. fold (matching_run S next_ids speculated_ids i).
  cbn [fst snd]. f_equal. f_equal. rewrite <- app_assoc. f_equal.
  cbn [seq map Nat.add]. rewrite Nat.add_0_r. reflexivity.
Qed.

Lemma validate_loop_ok (S : nat) (next_ids : list Z) (speculated_ids : list (list Z))
    (range : list nat) (st : list Z * list nat) :
  Forall (fun i => (i < length speculated_ids)%nat
                   /\ ((i + 1) * S <= length next_ids)%nat
                   /\ length (speculated_ids !!! i) = (S - 1)%nat) range ->
  HeterogeneousNextTokenChooser.validate_loop S next_ids speculated_ids st range
  = Ok (st.1 ++ map (fun i => 1 + Z.of_nat (matching_run S next_ids speculated_ids i)) range,
        st.2 ++ concat (map (fun i => map (fun k => (i * S + k)%nat)
                           (seq 0 (1 + matching_run S next_ids speculated_ids i))) range)).
Proof.
  revert st. induction range as [|i range IH]; intros st Hall.
  - cbn. rewrite !app_nil_r. now destruct st.
  - apply Forall_cons in Hall. destruct Hall as [(H1 & H2 & H3) Hall].
    cbn [HeterogeneousNextTokenChooser.validate_loop].
    rewrite validate_sequence_ok by assumption. cbn [mbind result_bind].
    rewrite IH by exact Hall. cbn [fst snd map concat].
    rewrite <- !app_assoc. reflexivity.
Qed.

Lemma list_index_chosen (S : nat) (next_ids : list Z) (n : nat -> nat) (range : list nat) :
  Forall (fun i => ((i + 1) * S <= length next_ids)%nat /\ (1 + n i <= S)%nat) range ->
  list_index next_ids
    (concat (map (fun i => map (fun k => (i * S + k)%nat) (seq 0 (1 + n i))) range))
  = Ok (concat (map (fun i => take (1 + n i) (chosen_ids S next_ids i)) range)).
Proof.
  induction range as [|i range IH]; intros Hall; [reflexivity|].
  apply Forall_cons in Hall. destruct Hall as [[H1 H2] Hall].
  cbn [map concat]. apply traverse_app; [|apply IH, Hall].
  fold (list_index next_ids (map (fun k => (i * S + k)%nat) (seq 0 (1 + n i)))).
  rewrite list_index_range by lia. f_equal.
  unfold chosen_ids, slice. rewrite take_take. f_equal. lia.
Qed.

(** C1, as the code computes it: in a step with speculated ids (a tensor of
    [B] rows of [S - 1] proposals, with [B * S] chosen ids), the validation
    returns, for every sequence [i], the accepted count 1 plus the length of
    the longest common prefix of [speculated_ids[i]] and [chosen[:-1]]; the
    ids kept are, sequence by sequence, the first [accepted_count[i]] chosen
    ids, so the first chosen id is always kept; every chosen id before the
    last one kept is equal to its proposal, so no position is kept behind a
    mismatch. The last id kept is the model's own choice at the position
    where the run ends, and it need not be equal to its proposal. *)
Theorem speculative_validation_accepts_common_prefix
    (next_ids : list Z) (speculated_ids : list (list Z)) :
  Forall (fun row => length row = shape1 speculated_ids) speculated_ids ->
  length next_ids = (length speculated_ids * (shape1 speculated_ids + 1))%nat ->
  exists (out accepted_ids : list Z) (indices : list nat),
    HeterogeneousNextTokenChooser.speculative_validation next_ids speculated_ids
    = Ok (out, accepted_ids, indices)
    /\ length accepted_ids = length speculated_ids
    /\ out = concat (map (fun i =>
               take (1 + matching_run (shape1 speculated_ids + 1) next_ids speculated_ids i)
                 (chosen_ids (shape1 speculated_ids + 1) next_ids i))
               (seq 0 (length speculated_ids)))
    /\ forall (i : nat) (proposed : list Z),
         speculated_ids !! i = Some proposed ->
         accepted_ids !! i
         = Some (1 + Z.of_nat (common_prefix_length proposed
                     (but_last (chosen_ids (shape1 speculated_ids + 1) next_ids i))))
         /\ forall k : nat,
              (Z.of_nat k < Z.of_nat (common_prefix_length proposed
                     (but_last (chosen_ids (shape1 speculated_ids + 1) next_ids i))))%Z ->
              chosen_ids (shape1 speculated_ids + 1) next_ids i !! k = proposed !! k.
Proof.
  intros Hrows Hlen.
  set (S := (shape1 speculated_ids + 1)%nat) in *.
  set (B := length speculated_ids) in *.
  assert (HB : (length next_ids / S)%nat = B).
  { rewrite Hlen. apply Nat.div_mul. subst S. lia. }
  assert (Hrange : Forall (fun i => (i < B)%nat
                     /\ ((i + 1) * S <= length next_ids)%nat
                     /\ length (speculated_ids !!! i) = (S - 1)%nat) (seq 0 B)).
  { apply Forall_forall. intros i Hi. apply elem_of_seq in Hi.
    split; [lia|]. split; [rewrite Hlen; nia|].
    rewrite Forall_forall in Hrows. subst S.
    rewrite Hrows; [lia|]. apply list_elem_of_lookup. exists i.
    apply list_lookup_lookup_total_lt. lia. }
  assert (Hrun : forall i, (i < B)%nat ->
                   (1 + matching_run S next_ids speculated_ids i <= S)%nat).
  { intros i Hi. rewrite Forall_forall in Hrange.
    destruct (Hrange i) as (_ & _ & Hr); [apply elem_of_seq; lia|].
    unfold matching_run.
    pose proof (common_prefix_length_le (speculated_ids !!! i)
                  (but_last (chosen_ids S next_ids i))). lia. }
  eexists _, _, _. split; [|split; [|split]].
  - unfold HeterogeneousNextTokenChooser.speculative_validation.
    fold S. rewrite HB, (validate_loop_ok S next_ids speculated_ids (seq 0 B) ([], []))
      by exact Hrange.
    cbn [fst snd app mbind result_bind].
    rewrite list_index_chosen; [reflexivity|].
    apply Forall_forall. intros i Hi. rewrite Forall_forall in Hrange.
    destruct (Hrange i Hi) as (H1 & H2 & _). split; [exact H2|]. now apply Hrun.
  - now rewrite length_map, length_seq.
  - reflexivity.
  - intros i proposed Hi.
    assert (HiB : (i < B)%nat) by (apply lookup_lt_Some in Hi; exact Hi).
    assert (Hp : speculated_ids !!! i = proposed)
      by (now apply list_lookup_total_correct).
    split.
    + rewrite list_lookup_fmap, lookup_seq_lt by exact HiB. cbn.
      unfold matching_run. now rewrite Hp.
    + intros k Hk.
      destruct (common_prefix_length_lookup proposed
                  (but_last (chosen_ids S next_ids i)) k) as [Heq _]; [lia|].
      rewrite <- Heq. unfold but_last. symmetry. apply lookup_take_lt.
      pose proof (common_prefix_length_le proposed
                    (but_last (chosen_ids S next_ids i))) as Hle.
      rewrite Forall_forall in Hrange.
      destruct (Hrange i) as (_ & H2 & H3); [apply elem_of_seq; lia|].
      rewrite Hp in H3. rewrite chosen_ids_length by exact H2. lia.
Qed.

Lemma speculative_validation_accepts_common_prefix_witness :
  exists (out accepted_ids : list Z) (indices : list nat),
    HeterogeneousNextTokenChooser.speculative_validation
      [7; 8; 4; 1; 2; 3] [[7; 8]; [0; 2]]
    = Ok (out, accepted_ids, indices)
    /\ length accepted_ids = 2%nat.
Proof.
  destruct (speculative_validation_accepts_common_prefix
              [7; 8; 4; 1; 2; 3] [[7; 8]; [0; 2]])
    as (out & accepted_ids & indices & H1 & H2 & _).
  - repeat constructor.
  - reflexivity.
  - exists out, accepted_ids, indices. split; [exact H1 | exact H2].
Defined.

(** The last id kept for a sequence is the model's own choice at the first
    mismatch: when the run ends before the last proposal, the id chosen at
    that position differs from the proposal. *)
Lemma speculative_validation_stops_at_mismatch (proposed chosen : list Z) (x y : Z) :
  proposed !! common_prefix_length proposed (but_last chosen) = Some x ->
  but_last chosen !! common_prefix_length proposed (but_last chosen) = Some y ->
  x <> y.
Proof. apply common_prefix_length_stop. Qed.

(** C1 as stated fails: with the proposals [[7, 8]] and the chosen ids
    [[7, 4, 9]] the first proposal matches, so two ids are accepted and the
    ids kept are [[7, 4]]; the id 4 kept at position 1 is not its proposal 8,
    so the output does hold an id that mismatched its proposal. *)
Lemma speculative_validation_keeps_mismatching_id :
  HeterogeneousNextTokenChooser.speculative_validation [7; 4; 9] [[7; 8]]
  = Ok ([7; 4], [2], [0; 1]%nat)
  /\ chosen_ids 3 [7; 4; 9] 0 = [7; 4; 9]
  /\ ~ (forall (k : nat) (x p : Z),
          [7; 4] !! k = Some x -> [7; 8] !! k = Some p -> x = p).
Proof.
  split; [reflexivity|]. split; [reflexivity|].
  intros H. specialize (H 1%nat 4 8 eq_refl eq_refl). discriminate.
Qed.

(** C2, as the code computes it: with [speculated_ids = [[7, 8]]] and the
    chosen ids [[5, 7, 9]] the step accepts one id only. The first chosen id
    5 is compared with the first proposal 7 and differs, so the walk stops
    at once: the accepted counts are [[1]], the ids kept are [[5]]. *)
Theorem speculative_scenario_D :
  HeterogeneousNextTokenChooser.speculative_validation [5; 7; 9] [[7; 8]]
  = Ok ([5], [1], [0%nat]).
Proof. reflexivity. Qed.

(** The same in a whole step: a greedy chooser whose scores put the ids 5,
    7 and 9 first at the three positions of the sequence returns the id 5
    alone and the accepted counts [[1]]. *)
Lemma speculative_scenario_D_step :
  (r ← @HeterogeneousNextTokenChooser.__call__ example_torch example_processors
         example_greedy_chooser [[1; 2; 3]]
         [example_scores 5; example_scores 7; example_scores 9] 0
         (Some [[7; 8]]) None false [];
   Ok (HeterogeneousNextTokenChooser.step_next_ids r.1,
       HeterogeneousNextTokenChooser.step_accepted_ids r.1))
  = Ok ([5], [1]).
Proof. reflexivity. Qed.

(** In a step with speculated ids, the accepted counts and the ids returned
    are those of the validation of the ids selected for all the positions. *)
Lemma step_validation `{Torch} `{LogitsProcess}
    (self : HeterogeneousNextTokenChooser.t) (input_ids : list (list Z))
    (scores : list (list float)) (speculate : Z) (speculated_ids : list (list Z))
    (speculative_scores : option (list (list (list float)))) (verbose : bool)
    (σ σ' : store) (r : HeterogeneousNextTokenChooser.step) :
  HeterogeneousNextTokenChooser.__call__ self input_ids scores speculate
    (Some speculated_ids) speculative_scores verbose σ = Ok (r, σ') ->
  exists (chosen : list Z) (indices : list nat),
    HeterogeneousNextTokenChooser.speculative_validation chosen speculated_ids
    = Ok (HeterogeneousNextTokenChooser.step_next_ids r,
          HeterogeneousNextTokenChooser.step_accepted_ids r, indices).
Proof.
  unfold HeterogeneousNextTokenChooser.__call__.
  destruct (HeterogeneousNextTokenChooser.view _ _ scores) as [scores3|];
    cbn [mbind result_bind]; [|discriminate].
  destruct (HeterogeneousNextTokenChooser.select_loop _ _ _ _ _ _)
    as [[[scores3' next_ids] σ1]|]; cbn [mbind result_bind]; [|discriminate].
  destruct (HeterogeneousNextTokenChooser.speculative_validation (concat next_ids)
              speculated_ids) as [[[kept accepted_ids] indices]|] eqn:Hval;
    cbn [mbind result_bind]; [|discriminate].
  intros Hrun. exists (concat next_ids), indices.
  destruct (list_index (concat scores3') indices) as [scores0|];
    cbn [mbind result_bind] in Hrun; [|discriminate].
  assert (Hacc : forall (ss : result (option (list (list (list float))))),
            (ss ≫= (fun speculative_scores =>
                      Ok (kept, scores0, accepted_ids, speculative_scores)))
            ≫= (fun '(next_ids, scores, accepted_ids, speculative_scores) =>
                  next_logprobs ←
                    gather (map log_softmax scores) (map (fun id => [id]) next_ids);
                  speculative_ids ←
                    (if 0 <? speculate then
                       match speculative_scores with
                       | Some t => Ok (Some (map (map argmax) t))
                       | None =>
                           Some <$>
                             create_n_gram_speculation input_ids next_ids
                               accepted_ids speculate verbose
                       end
                     else Ok None);
                  Ok ({| HeterogeneousNextTokenChooser.step_next_ids := next_ids;
                         HeterogeneousNextTokenChooser.step_next_logprobs :=
                           concat next_logprobs;
                         HeterogeneousNextTokenChooser.step_logprobs :=
                           map log_softmax scores;
                         HeterogeneousNextTokenChooser.step_accepted_ids :=
                           accepted_ids;
                         HeterogeneousNextTokenChooser.step_speculative_ids :=
                           speculative_ids |}, σ1))
            = Ok (r, σ') ->
            HeterogeneousNextTokenChooser.step_accepted_ids r = accepted_ids
            /\ HeterogeneousNextTokenChooser.step_next_ids r = kept).
  { intros [ss|]; cbn [mbind result_bind]; [|discriminate].
    destruct (gather _ _); cbn [mbind result_bind]; [|discriminate].
    destruct (if 0 <? speculate then _ else _); cbn [mbind result_bind];
      [|discriminate].
    intros [= <- _]. split; reflexivity. }
  apply Hacc in Hrun. destruct Hrun as [-> ->]. exact Hval.
Qed.

(** C2 as stated fails: the accepted counts of that step are not [[2]]. *)
Lemma speculative_scenario_D_not_two :
  ~ exists (out : list Z) (indices : list nat),
      HeterogeneousNextTokenChooser.speculative_validation [5; 7; 9] [[7; 8]]
      = Ok (out, [2], indices).
Proof. intros (out & indices & H). discriminate H. Qed.

(** ** n-gram speculation *)

Lemma first_true_eqb (seed : Z) (row : list Z) :
  first_true (map (fun x => x =? seed) row) = first_occurrence seed row.
Proof.
  induction row as [|x row IH]; cbn; [reflexivity|].
  destruct (x =? seed); [reflexivity|]. now rewrite IH.
Qed.

(** What [first_occurrence] finds: the seed, with no occurrence before it. *)
Lemma first_occurrence_Some (seed : Z) (row : list Z) (p : nat) :
  first_occurrence seed row = Some p <->
  row !! p = Some seed /\ forall q, (q < p)%nat -> row !! q <> Some seed.
Proof.
  revert p. induction row as [|x row IH]; intros p; cbn.
  - split; [discriminate|]. intros [H _]. discriminate.
  - destruct (Z.eqb_spec x seed) as [->|Hne].
    + split.
      * intros [= <-]. split; [reflexivity|]. intros q Hq. lia.
      * intros [Hp Hq]. destruct p as [|p]; [reflexivity|].
        exfalso. apply (Hq O); [lia|reflexivity].
    + destruct (first_occurrence seed row) as [p'|]; cbn.
      * split.
        -- intros [= <-]. destruct (proj1 (IH p') eq_refl) as [H1 H2].
           split; [exact H1|].
           intros [|q] Hq; cbn; [congruence|]. apply H2. lia.
        -- intros [Hp Hq]. destruct p as [|p]; cbn in Hp; [congruence|].
           assert (Hsome : Some p' = Some p); [|congruence].
           apply (IH p). split; [exact Hp|].
           intros q Hlt. apply (Hq (S q)). lia.
      * split; [discriminate|]. intros [Hp Hq].
        destruct p as [|p]; cbn in Hp; [congruence|].
        exfalso. assert (Hsome : None = Some p); [|discriminate].
        apply (IH p). split; [exact Hp|].
        intros q Hlt. apply (Hq (S q)). lia.
Qed.

Lemma first_occurrence_None (seed : Z) (row : list Z) :
  first_occurrence seed row = None <-> seed ∉ row.
Proof.
  induction row as [|x row IH]; cbn.
  - split; [intros _; apply not_elem_of_nil|reflexivity].
  - rewrite not_elem_of_cons. destruct (Z.eqb_spec x seed) as [->|Hne].
    + split; [discriminate|]. intros [H _]. congruence.
    + destruct (first_occurrence seed row); cbn.
      * split; [discriminate|]. intros [_ H]. apply IH in H. discriminate.
      * split; [|reflexivity]. intros _. split; [congruence|]. now apply IH.
Qed.

Lemma tensor_getitem_nat {A : Type} (t : list A) (i : nat) (x : A) :
  t !! i = Some x -> tensor_getitem t (Z.of_nat i) = Ok x.
Proof.
  intros H. pose proof (lookup_lt_Some _ _ _ H) as Hlt. unfold tensor_getitem.
  destruct (Z.leb_spec 0 (Z.of_nat i)); [|lia].
  destruct (Z.ltb_spec (Z.of_nat i) (Z.of_nat (length t))); [|lia].
  cbn. rewrite Nat2Z.id. now apply getitem_Some.
Qed.

(** The seeds are the last ids kept for each sequence. *)
Lemma n_gram_seeds (kept : list (list Z)) (pre : list Z) :
  Forall (fun k => k <> []) kept ->
  tensor_index (pre ++ concat kept)
    (map (fun c => c - 1)
       (cumsum_from (Z.of_nat (length pre)) (map (fun k => Z.of_nat (length k)) kept)))
  = Ok (map (fun k => default 0 (last k)) kept).
Proof.
  unfold tensor_index. revert pre.
  induction kept as [|k kept IH]; intros pre Hne; [reflexivity|].
  apply Forall_cons in Hne. destruct Hne as [Hk Hne].
  cbn [map cumsum_from concat traverse].
  destruct (last k) as [x|] eqn:Hlast; [|apply last_None in Hlast; contradiction].
  assert (Hlen : (0 < length k)%nat) by (destruct k; [contradiction|cbn; lia]).
  replace (Z.of_nat (length pre) + Z.of_nat (length k) - 1)
    with (Z.of_nat (length pre + (length k - 1))) by lia.
  rewrite (tensor_getitem_nat _ _ x).
  - cbn [mbind result_bind default].
    replace (Z.of_nat (length pre) + Z.of_nat (length k))
      with (Z.of_nat (length (pre ++ k))) by (rewrite length_app; lia).
    rewrite (app_assoc pre k (concat kept)), (IH (pre ++ k) Hne). reflexivity.
  - rewrite lookup_app_r by lia.
    replace (length pre + (length k - 1) - length pre)%nat with (length k - 1)%nat by lia.
    rewrite lookup_app_l by lia. rewrite last_lookup in Hlast.
    replace (length k - 1)%nat with (Nat.pred (length k)) by lia. exact Hlast.
Qed.

Lemma gather_row_following (row : list Z) (start speculate : nat) :
  (0 < length row)%nat ->
  gather_row row
    (map (fun i => Z.min i (Z.of_nat (length row) - 1))
       (map (fun j => Z.of_nat start + j) (map Z.of_nat (seq 0 speculate))))
  = Ok (following row start speculate).
Proof.
  intros Hrow. unfold gather_row, following. rewrite !map_map.
  induction (seq 0 speculate) as [|j js IH]; [reflexivity|].
  cbn [map traverse].
  replace (Z.min (Z.of_nat start + Z.of_nat j) (Z.of_nat (length row) - 1))
    with (Z.of_nat (Nat.min (start + j) (length row - 1))) by lia.
  destruct (Z.leb_spec 0 (Z.of_nat (Nat.min (start + j) (length row - 1)))); [|lia].
  destruct (Z.ltb_spec (Z.of_nat (Nat.min (start + j) (length row - 1)))
              (Z.of_nat (length row))); [|lia].
  cbn [andb]. rewrite Nat2Z.id.
  rewrite (getitem_Some row _ (row !!! Nat.min (start + j) (length row - 1)))
    by (apply list_lookup_lookup_total_lt; lia).
  cbn [mbind result_bind]. rewrite IH. reflexivity.
Qed.

Lemma max_indices_eqb (seed : Z) (row : list Z) :
  (0 < length row)%nat ->
  max_indices (map (fun x => x =? seed) row)
  = Ok (default O (first_occurrence seed row)).
Proof.
  intros H. rewrite <- first_true_eqb. destruct row; [cbn in H; lia|reflexivity].
Qed.

Lemma n_gram_rows (L speculate : nat) (input_ids : list (list Z)) (seeds : list Z) :
  (0 < L)%nat ->
  Forall (fun row => length row = L) input_ids ->
  length input_ids = length seeds ->
  exists firsts : list nat,
    traverse max_indices
      (zip_with (fun row seed => map (fun x => x =? seed) row) input_ids seeds)
    = Ok firsts
    /\ gather input_ids
         (map (map (fun i => Z.min i (Z.of_nat L - 1)))
            (map (fun i => map (fun j => i + j) (map Z.of_nat (seq 0 speculate)))
               (map (fun i => Z.of_nat i + 1) firsts)))
       = Ok (zip_with (fun row seed => n_gram_after_first row seed speculate)
               input_ids seeds).
Proof.
  intros HL Hrows. revert seeds.
  induction Hrows as [|row input_ids Hrow Hrows IH]; intros [|seed seeds] Hlen;
    try discriminate.
  - exists []. split; reflexivity.
  - injection Hlen as Hlen. destruct (IH seeds Hlen) as (firsts & H1 & H2).
    exists (default O (first_occurrence seed row) :: firsts). split.
    + cbn [zip_with traverse]. rewrite max_indices_eqb by lia.
      cbn [mbind result_bind]. rewrite H1. reflexivity.
    + cbn [map gather zip_with]. rewrite <- Hrow.
      replace (Z.of_nat (default O (first_occurrence seed row)) + 1)
        with (Z.of_nat (default O (first_occurrence seed row) + 1)) by lia.
      rewrite gather_row_following by lia.
      cbn [mbind result_bind]. rewrite Hrow, H2. reflexivity.
Qed.

(** C6, as the code computes it: the seed of a sequence is the last id kept
    for it, and the proposal is made of the [speculate] ids of the history
    that follow the first (earliest) occurrence of the seed, positions
    clamped to the last position of the history, which repeats the last id
    when the history is too short; when the seed does not occur in the
    history, the position found is 0 and the proposal starts at position 1. *)
Theorem n_gram_speculation_follows_first_occurrence
    (input_ids kept : list (list Z)) (speculate : Z) (verbose : bool) :
  length input_ids = length kept ->
  Forall (fun row => length row = shape1 input_ids) input_ids ->
  Forall (fun row => row <> []) input_ids ->
  Forall (fun k => k <> []) kept ->
  0 <= speculate ->
  create_n_gram_speculation input_ids (concat kept)
    (map (fun k => Z.of_nat (length k)) kept) speculate verbose
  = Ok (zip_with
          (fun row k => n_gram_after_first row (default 0 (last k)) (Z.to_nat speculate))
          input_ids kept).
Proof.
  intros Hlen Hrows Hne Hkept Hspec. unfold create_n_gram_speculation, cumsum.
  pose proof (n_gram_seeds kept [] Hkept) as Hseeds. change (Z.of_nat (length (@nil Z))) with 0 in Hseeds. cbn [app] in Hseeds.
  rewrite Hseeds. cbn [mbind result_bind].
  unfold eq_unsqueeze. rewrite length_map, Hlen, Nat.eqb_refl. cbn [mbind result_bind].
  unfold arange. destruct (Z.ltb_spec speculate 0); [lia|].
  destruct input_ids as [|row0 input_ids].
  - destruct kept; [reflexivity|discriminate].
  - assert (HL : (0 < shape1 (row0 :: input_ids))%nat).
    { apply Forall_cons in Hne. destruct Hne as [H0 _].
      cbn. destruct row0; [contradiction|cbn; lia]. }
    destruct (n_gram_rows (shape1 (row0 :: input_ids)) (Z.to_nat speculate)
                (row0 :: input_ids) (map (fun k => default 0 (last k)) kept)
                HL Hrows) as (firsts & H1 & H2); [now rewrite length_map|].
    rewrite H1. cbn [mbind result_bind]. rewrite H2.
    f_equal. apply zip_with_fmap_r.
Qed.

Lemma n_gram_speculation_follows_first_occurrence_witness :
  create_n_gram_speculation [[1; 2; 3; 4]; [5; 6; 7; 6]] (concat [[9; 3]; [6]])
    (map (fun k => Z.of_nat (length k)) [[9; 3]; [6]]) 3 false
  = Ok (zip_with
          (fun row k => n_gram_after_first row (default 0 (last k)) (Z.to_nat 3))
          [[1; 2; 3; 4]; [5; 6; 7; 6]] [[9; 3]; [6]]).
Proof.
  apply (n_gram_speculation_follows_first_occurrence
           [[1; 2; 3; 4]; [5; 6; 7; 6]] [[9; 3]; [6]] 3 false);
    [reflexivity | repeat constructor | repeat constructor; discriminate
    | repeat constructor; discriminate | lia].
Defined.

(** C6 as stated fails: in the history [[1, 2, 1, 3]] the seed 1 occurs at
    the positions 0 and 2; the id after the most recent occurrence is 3 and
    the code proposes 2, the id after the first occurrence. *)
Lemma n_gram_speculation_not_most_recent :
  create_n_gram_speculation [[1; 2; 1; 3]] [1] [1] 1 false = Ok [[2]]
  /\ n_gram_after_most_recent [1; 2; 1; 3] 1 1 = [3]
  /\ create_n_gram_speculation [[1; 2; 1; 3]] [1] [1] 1 false
     <> Ok [n_gram_after_most_recent [1; 2; 1; 3] 1 1].
Proof. split; [reflexivity|]. split; [reflexivity|]. discriminate. Qed.

(** A seed that does not occur: the code proposes the ids at the positions
    1 and 2 of the history, not its tail. *)
Lemma n_gram_speculation_absent_seed :
  create_n_gram_speculation [[1; 2; 3; 4]] [9] [1] 2 false = Ok [[2; 3]]
  /\ n_gram_after_most_recent [1; 2; 3; 4] 9 2 = [3; 4].
Proof. split; reflexivity. Qed.

(** ** Construction of the choosers *)

Lemma any_false_iff {A : Type} (f : A -> bool) (xs : list A) :
  any (map f xs) = false <-> Forall (fun x => f x = false) xs.
Proof.
  unfold any. induction xs as [|x xs IH]; cbn.
  - split; [constructor|reflexivity].
  - rewrite orb_false_iff, IH, Forall_cons. reflexivity.
Qed.

(** One update of [do_sample] in [__init__]: [sample or test(x)] along
    [zip(xs, do_sample)]. *)
Lemma do_sample_update_lookup {A : Type} (f : A -> bool) (xs : list A)
    (do_sample : list bool) (i : nat) (x : A) (sample : bool) :
  xs !! i = Some x -> do_sample !! i = Some sample ->
  map (fun '(x, sample) => sample || f x) (zip xs do_sample) !! i
  = Some (sample || f x).
Proof.
  intros Hx Hs. change (map ?g ?l) with (g <$> l). rewrite list_lookup_fmap.
  rewrite (lookup_zip_with pair xs do_sample i), Hx. cbn. rewrite Hs. reflexivity.
Qed.

Lemma do_sample_update_id {A : Type} (f : A -> bool) (xs : list A) (do_sample : list bool) :
  length xs = length do_sample ->
  any (map f xs) = false ->
  map (fun '(x, sample) => sample || f x) (zip xs do_sample) = do_sample.
Proof.
  intros Hlen Hany. apply any_false_iff in Hany. revert do_sample Hlen.
  induction Hany as [|x xs Hx Hall IH]; intros [|s do_sample] Hlen; try discriminate;
    [reflexivity|].
  cbn. rewrite Hx, orb_false_r. f_equal. apply IH. now injection Hlen.
Qed.

Lemma do_sample_update_length {A : Type} (f : A -> bool) (xs : list A) (do_sample : list bool) :
  length xs = length do_sample ->
  length (map (fun '(x, sample) => sample || f x) (zip xs do_sample)) = length do_sample.
Proof. intros H. rewrite length_map, length_zip_with. lia. Qed.

(** One stage of [__init__]: whether or not the warper is active somewhere
    in the batch, row [i] samples afterwards iff it did or its own value
    triggers the warper. *)
Lemma do_sample_stage {A W : Type} (f : A -> bool) (xs : list A) (do_sample : list bool)
    (w w' : W) :
  length xs = length do_sample ->
  let do_sample' :=
    (if any (map f xs)
     then (map (fun '(x, sample) => sample || f x) (zip xs do_sample), w')
     else (do_sample, w)).1 in
  length do_sample' = length do_sample
  /\ forall (i : nat) (x : A) (sample : bool),
       xs !! i = Some x -> do_sample !! i = Some sample ->
       do_sample' !! i = Some (sample || f x).
Proof.
  intros Hlen. destruct (any (map f xs)) eqn:Hany; cbn [fst].
  - split; [now apply do_sample_update_length|].
    intros i x sample. apply do_sample_update_lookup.
  - split; [reflexivity|]. intros i x sample Hx Hs.
    apply any_false_iff in Hany. rewrite Forall_forall in Hany.
    rewrite (Hany x), orb_false_r; [exact Hs|].
    apply list_elem_of_lookup. now exists i.
Qed.

Section Construction.
Context `{Torch}.

Lemma sampling_init_fold (xs : list (bool * Z)) (a : nat) (g : list nat)
    (m : gmap nat loc) (σ : store) :
  exists (g' : list nat) (m' : gmap nat loc) (σ' : store),
    fold_left HeterogeneousSampling.init_step (zip (seq a (length xs)) xs) (g, m, σ)
    = (g', m', σ')
    /\ (forall i, (i < a)%nat \/ (a + length xs <= i)%nat -> m' !! i = m !! i)
    /\ (forall l, (l < length σ)%nat -> σ' !! l = σ !! l)
    /\ (length σ <= length σ')%nat
    /\ forall (j : nat) (sample : bool) (seed : Z),
         xs !! j = Some (sample, seed) ->
         if sample then
           exists l, m' !! (a + j)%nat = Some l /\ (length σ <= l)%nat
                     /\ σ' !! l = Some (Sampling.__init__ seed)
         else m' !! (a + j)%nat = m !! (a + j)%nat.
Proof.
  revert a g m σ. induction xs as [|[sample seed] xs IH]; intros a g m σ.
  - exists g, m, σ. cbn. repeat split; auto. intros j ? ? Hj. discriminate.
  - cbn [length seq zip_with fold_left].
    destruct sample; cbn [HeterogeneousSampling.init_step new_Sampling].
    + destruct (IH (S a) g (<[a := length σ]> m) (σ ++ [Sampling.__init__ seed]))
        as (g' & m' & σ' & Hfold & Hm & Hσ & Hlen & Hrows).
      exists g', m', σ'. rewrite length_app in Hlen, Hσ. cbn in Hlen, Hσ.
      split; [exact Hfold|]. split; [|split; [|split]].
      * intros i Hi. rewrite Hm by lia. apply lookup_insert_ne. lia.
      * intros l Hl. rewrite Hσ by lia. now apply lookup_app_l.
      * lia.
      * intros [|j] sample seed' Hj; cbn in Hj.
        -- injection Hj as <- <-. exists (length σ). rewrite Nat.add_0_r.
           rewrite Hm by lia. rewrite lookup_insert_eq. split; [reflexivity|].
           split; [lia|]. rewrite Hσ by lia.
           rewrite lookup_app_r by lia. now rewrite Nat.sub_diag.
        -- specialize (Hrows j sample seed' Hj).
           replace (a + S j)%nat with (S a + j)%nat by lia.
           destruct sample.
           ++ destruct Hrows as (l & H1 & H2 & H3). exists l.
              rewrite length_app in H2. cbn in H2. split; [exact H1|]. split; [lia|exact H3].
           ++ rewrite Hrows. apply lookup_insert_ne. lia.
    + destruct (IH (S a) (g ++ [a]) m σ)
        as (g' & m' & σ' & Hfold & Hm & Hσ & Hlen & Hrows).
      exists g', m', σ'. split; [exact Hfold|]. split; [|split; [|split]]; auto.
      * intros i Hi. apply Hm. lia.
      * intros [|j] sample seed' Hj; cbn in Hj.
        -- injection Hj as <- <-. rewrite Nat.add_0_r. apply Hm. lia.
        -- specialize (Hrows j sample seed' Hj).
           replace (a + S j)%nat with (S a + j)%nat by lia. exact Hrows.
Qed.

(** [HeterogeneousSampling(do_sample, seeds, device)]: row [i] is in the
    sampling map iff [do_sample[i]], and its sampler is a new object seeded
    with [seeds[i]]. *)
Lemma heterogeneous_sampling_init (do_sample : list bool) (seeds : list Z) (σ : store)
    (i : nat) (sample : bool) (seed : Z) :
  do_sample !! i = Some sample -> seeds !! i = Some seed ->
  (is_Some (HeterogeneousSampling.sampling_mapping
              (HeterogeneousSampling.__init__ do_sample seeds σ).1 !! i)
   <-> sample = true)
  /\ forall l,
       HeterogeneousSampling.sampling_mapping
         (HeterogeneousSampling.__init__ do_sample seeds σ).1 !! i = Some l ->
       (HeterogeneousSampling.__init__ do_sample seeds σ).2 !! l
       = Some (Sampling.__init__ seed).
Proof.
  intros Hs Hseed. unfold HeterogeneousSampling.__init__, enumerate.
  destruct (sampling_init_fold (zip do_sample seeds) 0 [] ∅ σ)
    as (g' & m' & σ' & Hfold & Hm & Hσ & Hlen & Hrows).
  rewrite Hfold. cbn [fst snd HeterogeneousSampling.sampling_mapping].
  assert (Hz : zip do_sample seeds !! i = Some (sample, seed)).
  { rewrite (lookup_zip_with pair do_sample seeds i), Hs. cbn. now rewrite Hseed. }
  specialize (Hrows i sample seed Hz). cbn [Nat.add] in Hrows.
  destruct sample.
  - destruct Hrows as (l & H1 & H2 & H3). rewrite H1. split.
    + split; [reflexivity|eauto].
    + intros l' [= <-]. exact H3.
  - rewrite Hrows, lookup_empty. split.
    + split; [intros [? ?]; discriminate|discriminate].
    + discriminate.
Qed.

End Construction.

Section Chooser.
Context `{Torch}.

Lemma any_true_lookup (l : list bool) :
  any l = true <-> exists i, l !! i = Some true.
Proof.
  unfold any. rewrite existsb_exists. split.
  - intros (b & Hin & ->). apply list_elem_of_In, list_elem_of_lookup in Hin. exact Hin.
  - intros (i & Hi). exists true. split; [|reflexivity].
    apply list_elem_of_In, list_elem_of_lookup. now exists i.
Qed.

(** The sampling flags and the selector built by
    [HeterogeneousNextTokenChooser.__init__]. *)
Lemma heterogeneous_chooser_init (watermark : list bool)
    (temperature repetition_penalty : list float) (top_k : list Z)
    (top_p typical_p : list float) (do_sample : list bool) (seeds : list Z) (σ : store) :
  length temperature = length do_sample ->
  length top_k = length do_sample ->
  length top_p = length do_sample ->
  length typical_p = length do_sample ->
  exists do_sample' : list bool,
    HeterogeneousNextTokenChooser.do_sample
      (HeterogeneousNextTokenChooser.__init__ watermark temperature repetition_penalty
         top_k top_p typical_p do_sample seeds σ).1 = do_sample'
    /\ length do_sample' = length do_sample
    /\ (forall i t k p tp sample,
          temperature !! i = Some t -> top_k !! i = Some k -> top_p !! i = Some p ->
          typical_p !! i = Some tp -> do_sample !! i = Some sample ->
          do_sample' !! i
          = Some (sample || float_ne t 1 || negb (k =? 0) || (p <? 1)%float
                  || (tp <? 1)%float))
    /\ (HeterogeneousNextTokenChooser.choice
          (HeterogeneousNextTokenChooser.__init__ watermark temperature
             repetition_penalty top_k top_p typical_p do_sample seeds σ).1,
        (HeterogeneousNextTokenChooser.__init__ watermark temperature
           repetition_penalty top_k top_p typical_p do_sample seeds σ).2)
       = if any do_sample'
         then (ChoiceHeterogeneousSampling
                 (HeterogeneousSampling.__init__ do_sample' seeds σ).1,
               (HeterogeneousSampling.__init__ do_sample' seeds σ).2)
         else (ChoiceGreedy, σ).
Proof.
  intros H1 H2 H3 H4. unfold HeterogeneousNextTokenChooser.__init__.
  match goal with
  | |- context [if any (map ?f temperature) then (?a, ?w') else (?b, ?w)] =>
      pose proof (do_sample_stage f temperature do_sample w w' H1) as [L1 S1];
      destruct (if any (map f temperature) then (a, w') else (b, w)) as [ds1 w1]
  end.
  cbn [fst] in L1, S1.
  match goal with
  | |- context [if any (map ?f top_k) then (?a, ?w') else (?b, ?w)] =>
      pose proof (do_sample_stage f top_k ds1 w w' ltac:(congruence)) as [L2 S2];
      destruct (if any (map f top_k) then (a, w') else (b, w)) as [ds2 w2]
  end.
  cbn [fst] in L2, S2.
  match goal with
  | |- context [if any (map ?f top_p) then (?a, ?w') else (?b, ?w)] =>
      pose proof (do_sample_stage f top_p ds2 w w' ltac:(congruence)) as [L3 S3];
      destruct (if any (map f top_p) then (a, w') else (b, w)) as [ds3 w3]
  end.
  cbn [fst] in L3, S3.
  match goal with
  | |- context [if any (map ?f typical_p) then (?a, ?w') else (?b, ?w)] =>
      pose proof (do_sample_stage f typical_p ds3 w w' ltac:(congruence)) as [L4 S4];
      destruct (if any (map f typical_p) then (a, w') else (b, w)) as [ds4 w4]
  end.
  cbn [fst] in L4, S4.
  exists ds4. split; [|split; [congruence|split]].
  - destruct (any ds4); [destruct (HeterogeneousSampling.__init__ ds4 seeds σ)|];
      reflexivity.
  - intros i t k p tp sample Ht Hk Hp Htp Hs.
    apply (S4 i tp _ Htp), (S3 i p _ Hp), (S2 i k _ Hk), (S1 i t _ Ht), Hs.
  - destruct (any ds4); [destruct (HeterogeneousSampling.__init__ ds4 seeds σ)|];
      reflexivity.
Qed.

Lemma sampling_flag_iff (sample : bool) (t : float) (k : Z) (p tp : float) :
  sample || float_ne t 1 || negb (k =? 0) || (p <? 1)%float || (tp <? 1)%float = true
  <-> sample = true \/ float_ne t 1 = true \/ k <> 0 \/ (p <? 1)%float = true
      \/ (tp <? 1)%float = true.
Proof.
  rewrite !orb_true_iff, negb_true_iff, Z.eqb_neq. tauto.
Qed.

(** C3: after construction, a row has a sampler of its own (and is not
    chosen greedily) iff [do_sample] is set for it or one of its warper
    fields is not the default: [temperature != 1.0], [top_k != 0],
    [top_p < 1.0] or [typical_p < 1.0]; the sampler is a new [Sampling]
    object seeded with the row's seed. This holds for row [i] of the
    heterogeneous chooser, built from configuration vectors of one length,
    and for the single-request chooser built from the same values. *)
Theorem choosers_sample_iff_configured (watermark : list bool)
    (temperature repetition_penalty : list float) (top_k : list Z)
    (top_p typical_p : list float) (do_sample : list bool) (seeds : list Z) (σ : store)
    (i : nat) (t : float) (k : Z) (p tp : float) (sample : bool) (seed : Z) :
  length temperature = length do_sample ->
  length top_k = length do_sample ->
  length top_p = length do_sample ->
  length typical_p = length do_sample ->
  temperature !! i = Some t -> top_k !! i = Some k -> top_p !! i = Some p ->
  typical_p !! i = Some tp -> do_sample !! i = Some sample -> seeds !! i = Some seed ->
  ((is_Some (row_sampler
               (HeterogeneousNextTokenChooser.choice
                  (HeterogeneousNextTokenChooser.__init__ watermark temperature
                     repetition_penalty top_k top_p typical_p do_sample seeds σ).1) i)
    <-> sample = true \/ float_ne t 1 = true \/ k <> 0 \/ (p <? 1)%float = true
        \/ (tp <? 1)%float = true)
   /\ forall l,
        row_sampler
          (HeterogeneousNextTokenChooser.choice
             (HeterogeneousNextTokenChooser.__init__ watermark temperature
                repetition_penalty top_k top_p typical_p do_sample seeds σ).1) i = Some l ->
        (HeterogeneousNextTokenChooser.__init__ watermark temperature
           repetition_penalty top_k top_p typical_p do_sample seeds σ).2 !! l
        = Some (Sampling.__init__ seed))
  /\ forall (do_watermark : bool) (penalty : float),
       (is_Some (row_sampler
                   (NextTokenChooser.choice
                      (NextTokenChooser.__init__ do_watermark (Some t) penalty (Some k)
                         (Some p) (Some tp) sample seed σ).1) 0)
        <-> sample = true \/ float_ne t 1 = true \/ k <> 0 \/ (p <? 1)%float = true
            \/ (tp <? 1)%float = true)
       /\ forall l,
            row_sampler
              (NextTokenChooser.choice
                 (NextTokenChooser.__init__ do_watermark (Some t) penalty (Some k)
                    (Some p) (Some tp) sample seed σ).1) 0 = Some l ->
            (NextTokenChooser.__init__ do_watermark (Some t) penalty (Some k)
               (Some p) (Some tp) sample seed σ).2 !! l
            = Some (Sampling.__init__ seed).
Proof.
  intros H1 H2 H3 H4 Ht Hk Hp Htp Hs Hseed. split.
  - destruct (heterogeneous_chooser_init watermark temperature repetition_penalty
                top_k top_p typical_p do_sample seeds σ H1 H2 H3 H4)
      as (ds & _ & Hlen & Hrow & Hchoice).
    specialize (Hrow i t k p tp sample Ht Hk Hp Htp Hs).
    rewrite <- sampling_flag_iff.
    set (b := sample || float_ne t 1 || negb (k =? 0) || (p <? 1)%float
              || (tp <? 1)%float) in *.
    destruct (any ds) eqn:Hany; injection Hchoice as -> ->; cbn [row_sampler].
    + apply (heterogeneous_sampling_init ds seeds σ i b seed Hrow Hseed).
    + assert (Hb : b = false).
      { destruct b; [|reflexivity].
        assert (Ht' : any ds = true) by (apply any_true_lookup; eauto). congruence. }
      rewrite Hb. split; [|discriminate].
      split; [intros [? ?]; discriminate|discriminate].
  - intros do_watermark penalty. rewrite <- sampling_flag_iff.
    unfold NextTokenChooser.__init__, NextTokenChooser.has_warpers.
    rewrite !orb_assoc.
    destruct (sample || float_ne t 1 || negb (k =? 0) || (p <? 1)%float
              || (tp <? 1)%float); cbn.
    + split; [split; eauto|]. intros l [= <-].
      rewrite lookup_app_r by lia. now rewrite Nat.sub_diag.
    + split; [|discriminate]. split; [intros [? ?]; discriminate|discriminate].
Qed.

End Chooser.

Lemma choosers_sample_iff_configured_witness :
  is_Some (row_sampler
             (HeterogeneousNextTokenChooser.choice
                (@HeterogeneousNextTokenChooser.__init__ example_torch [false; false]
                   [1%float; 0.5%float] [1%float; 1%float] [0; 0]
                   [1%float; 1%float] [1%float; 1%float] [false; false] [11; 22] []).1) 1).
Proof.
  apply (proj1 (proj1 (@choosers_sample_iff_configured example_torch [false; false]
           [1%float; 0.5%float] [1%float; 1%float] [0; 0] [1%float; 1%float]
           [1%float; 1%float] [false; false] [11; 22] [] 1 0.5%float 0 1%float 1%float
           false 22 eq_refl eq_refl eq_refl eq_refl eq_refl eq_refl eq_refl eq_refl
           eq_refl eq_refl))).
  right. left. reflexivity.
Defined.

(** ** Batch compaction *)

Lemma sampling_filter_fold (old : gmap nat loc) (xs : list nat) (a : nat)
    (g : list nat) (m : gmap nat loc) :
  (forall i, (a <= i)%nat -> m !! i = None) ->
  forall i,
    (fold_left (HeterogeneousSampling.filter_step old) (zip (seq a (length xs)) xs)
       (g, m)).2 !! i
    = if decide (a <= i)%nat then xs !! (i - a)%nat ≫= (old !!.) else m !! i.
Proof.
  revert a g m. induction xs as [|idx xs IH]; intros a g m Hfresh i.
  - cbn. destruct (decide _); [now apply Hfresh|reflexivity].
  - cbn [length seq zip_with fold_left HeterogeneousSampling.filter_step].
    destruct (old !! idx) as [s|] eqn:Hidx; rewrite IH.
    + destruct (decide (S a <= i)%nat).
      * rewrite decide_True by lia.
        replace (i - a)%nat with (S (i - S a)) by lia. reflexivity.
      * destruct (decide (i = a)) as [->|Hne].
        -- rewrite decide_True by lia. rewrite Nat.sub_diag. cbn.
           rewrite Hidx. apply lookup_insert_eq.
        -- rewrite decide_False by lia. apply lookup_insert_ne. lia.
    + intros j Hj. rewrite lookup_insert_ne by lia. apply Hfresh. lia.
    + destruct (decide (S a <= i)%nat).
      * rewrite decide_True by lia.
        replace (i - a)%nat with (S (i - S a)) by lia. reflexivity.
      * destruct (decide (i = a)) as [->|Hne].
        -- rewrite decide_True by lia. rewrite Nat.sub_diag. cbn.
           rewrite Hidx. apply Hfresh. lia.
        -- rewrite decide_False by lia. reflexivity.
    + intros j Hj. apply Hfresh. lia.
Qed.

(** [filter] re-keys the sampling map: the new row [i] holds the sampler of
    the old row [indices[i]], and the rows past the retained ones hold none. *)
Lemma sampling_filter_lookup (self : HeterogeneousSampling.t) (indices : list nat) (i : nat) :
  HeterogeneousSampling.sampling_mapping (HeterogeneousSampling.filter self indices) !! i
  = indices !! i ≫= (HeterogeneousSampling.sampling_mapping self !!.).
Proof.
  unfold HeterogeneousSampling.filter, enumerate.
  pose proof (sampling_filter_fold (HeterogeneousSampling.sampling_mapping self)
                indices 0 [] ∅ (fun j _ => lookup_empty j) i) as Hfold.
  destruct (fold_left _ _ _) as [g m]. cbn [snd] in Hfold.
  cbn [HeterogeneousSampling.sampling_mapping]. rewrite Hfold.
  rewrite decide_True by lia. now rewrite Nat.sub_0_r.
Qed.

Lemma sampling_filter_separate (self : HeterogeneousSampling.t) (indices : list nat) :
  NoDup indices ->
  samplers_separate (HeterogeneousSampling.sampling_mapping self) ->
  samplers_separate
    (HeterogeneousSampling.sampling_mapping (HeterogeneousSampling.filter self indices)).
Proof.
  intros Hnd Hsep i j l. rewrite !sampling_filter_lookup.
  destruct (indices !! i) as [x|] eqn:Hi; [|discriminate].
  destruct (indices !! j) as [y|] eqn:Hj; [|discriminate]. cbn.
  intros Hx Hy. assert (x = y) as -> by (eapply Hsep; eauto).
  eapply NoDup_lookup; eauto.
Qed.

Section Draws.
Context `{Torch}.

Lemma sampling_filter_allocated (self : HeterogeneousSampling.t) (indices : list nat)
    (σ : store) :
  samplers_allocated (HeterogeneousSampling.sampling_mapping self) σ ->
  samplers_allocated
    (HeterogeneousSampling.sampling_mapping (HeterogeneousSampling.filter self indices)) σ.
Proof.
  intros Hall i l. rewrite sampling_filter_lookup.
  destruct (indices !! i) as [x|]; [|discriminate]. cbn. apply Hall.
Qed.

(** Construction keeps the samplers separate and in the store. *)
Lemma sampling_init_step_separate (st : list nat * gmap nat loc * store)
    (x : nat * (bool * Z)) :
  samplers_separate st.1.2 /\ samplers_allocated st.1.2 st.2 ->
  samplers_separate (HeterogeneousSampling.init_step st x).1.2
  /\ samplers_allocated (HeterogeneousSampling.init_step st x).1.2
       (HeterogeneousSampling.init_step st x).2.
Proof.
  destruct st as [[g m] σ], x as [i [sample seed]]. cbn [fst snd].
  intros [Hsep Hall]. unfold HeterogeneousSampling.init_step, new_Sampling.
  destruct sample; cbn [fst snd]; [|auto]. split.
  - intros a b l. rewrite !lookup_insert.
    destruct (decide (i = a)), (decide (i = b)); try congruence.
    + intros [= <-] Hb. apply Hall in Hb. lia.
    + intros Ha [= <-]. apply Hall in Ha. lia.
    + apply Hsep.
  - intros a l. rewrite lookup_insert, length_app. cbn.
    destruct (decide (i = a)); [intros [= <-]; lia|].
    intros Ha. apply Hall in Ha. lia.
Qed.

Lemma sampling_init_separate (do_sample : list bool) (seeds : list Z) (σ : store) :
  samplers_separate
    (HeterogeneousSampling.sampling_mapping
       (HeterogeneousSampling.__init__ do_sample seeds σ).1)
  /\ samplers_allocated
       (HeterogeneousSampling.sampling_mapping
          (HeterogeneousSampling.__init__ do_sample seeds σ).1)
       (HeterogeneousSampling.__init__ do_sample seeds σ).2.
Proof.
  unfold HeterogeneousSampling.__init__.
  assert (Hfold : forall xs st,
            samplers_separate st.1.2 /\ samplers_allocated st.1.2 st.2 ->
            samplers_separate (fold_left HeterogeneousSampling.init_step xs st).1.2
            /\ samplers_allocated (fold_left HeterogeneousSampling.init_step xs st).1.2
                 (fold_left HeterogeneousSampling.init_step xs st).2).
  { induction xs as [|x xs IH]; intros st Hst; [exact Hst|].
    cbn [fold_left]. apply IH, sampling_init_step_separate, Hst. }
  specialize (Hfold (enumerate (zip do_sample seeds)) ([], ∅, σ)).
  destruct (fold_left _ _ _) as [[g m] σ']. cbn [fst snd] in *.
  apply Hfold. split.
  - intros i j l Hi. rewrite lookup_empty in Hi. discriminate.
  - intros i l Hi. rewrite lookup_empty in Hi. discriminate.
Qed.

End Draws.

Section Calls.
Context `{Torch}.

Lemma call_Sampling_ok (l : loc) (logits : list float) (σ : store) (s : Sampling.t) :
  σ !! l = Some s ->
  call_Sampling l logits σ
  = Ok ((Sampling.__call__ s logits).1, <[l := (Sampling.__call__ s logits).2]> σ).
Proof.
  intros Hs. unfold call_Sampling. rewrite (getitem_Some _ _ _ Hs).
  cbn [mbind result_bind]. now destruct (Sampling.__call__ s logits).
Qed.

(** The loop over the sampling map: each row with a sampler draws once from
    its own sampler and from no other. *)
Lemma sample_rows_run (m : gmap nat loc) (rows : list (nat * list float)) :
  samplers_separate m ->
  NoDup rows.*1 ->
  forall (out : list Z) (σ : store),
    samplers_allocated m σ ->
    exists (out' : list Z) (σ' : store),
      HeterogeneousSampling.sample_rows m rows out σ = Ok (out', σ')
      /\ length out' = length out /\ length σ' = length σ
      /\ (forall i logits l s,
            (i, logits) ∈ rows -> m !! i = Some l -> σ !! l = Some s ->
            σ' !! l = Some (Sampling.__call__ s logits).2
            /\ ((i < length out)%nat -> out' !! i = Some (Sampling.__call__ s logits).1))
      /\ (forall l, (forall i, i ∈ rows.*1 -> m !! i <> Some l) -> σ' !! l = σ !! l)
      /\ (forall i, i ∉ rows.*1 \/ m !! i = None -> out' !! i = out !! i).
Proof.
  intros Hsep. induction rows as [|[i lg] rows IH]; intros Hnd out σ Hall.
  - exists out, σ. cbn [HeterogeneousSampling.sample_rows].
    split; [reflexivity|]. split; [reflexivity|]. split; [reflexivity|].
    split; [|split; reflexivity].
    intros i logits l s Hin. apply elem_of_nil in Hin. contradiction.
  - cbn [fmap list_fmap fst] in Hnd. apply NoDup_cons in Hnd. destruct Hnd as [Hi Hnd].
    cbn [HeterogeneousSampling.sample_rows]. destruct (m !! i) as [l|] eqn:Hm.
    + destruct (σ !! l) as [s|] eqn:Hs;
        [|apply lookup_ge_None in Hs; apply Hall in Hm; lia].
      rewrite (call_Sampling_ok l lg σ s Hs). cbn [mbind result_bind].
      set (tok := (Sampling.__call__ s lg).1). set (s' := (Sampling.__call__ s lg).2).
      destruct (IH Hnd (<[i := tok]> out) (<[l := s']> σ))
        as (out' & σ' & Hrun & Hlo & Hlσ & Hrows & Hframe & Hout).
      { intros a b Hab. rewrite (length_insert σ). eapply Hall, Hab. }
      rewrite (length_insert out) in Hlo. rewrite (length_insert σ) in Hlσ.
      exists out', σ'. split; [exact Hrun|]. split; [exact Hlo|]. split; [exact Hlσ|].
      split; [|split].
      * intros j lg' l' s0 Hin Hj Hs0. apply elem_of_cons in Hin.
        destruct Hin as [[= -> ->]|Hin].
        -- assert (l' = l) as -> by congruence. assert (s0 = s) as -> by congruence.
           split.
           ++ rewrite Hframe.
              ** apply list_lookup_insert_eq. apply Hall in Hm. exact Hm.
              ** intros a Ha Hal. assert (a = i) as -> by (eapply Hsep; eauto).
                 contradiction.
           ++ intros Hlt. rewrite Hout by (left; exact Hi).
              now apply list_lookup_insert_eq.
        -- assert (Hji : j <> i).
           { intros ->. apply Hi. apply list_elem_of_fmap. now exists (i, lg'). }
           assert (Hll : l <> l') by (intros ->; apply Hji; eapply Hsep; eauto).
           destruct (Hrows j lg' l' s0 Hin Hj) as [H1 H2].
           { rewrite list_lookup_insert_ne by exact Hll. exact Hs0. }
           split; [exact H1|]. intros Hlt. apply H2. now rewrite (length_insert out).
      * intros l0 Hl0. rewrite Hframe.
        -- apply list_lookup_insert_ne. intros ->. apply (Hl0 i); [left|exact Hm].
        -- intros a Ha. apply Hl0. now right.
      * intros i0 Hi0. rewrite Hout.
        -- apply list_lookup_insert_ne. intros ->.
           destruct Hi0 as [Hi0|Hi0]; [apply Hi0; left|congruence].
        -- destruct Hi0 as [Hi0|Hi0]; [left|right; exact Hi0].
           intros Hin. apply Hi0. now right.
    + destruct (IH Hnd out σ Hall)
        as (out' & σ' & Hrun & Hlo & Hlσ & Hrows & Hframe & Hout).
      exists out', σ'. split; [exact Hrun|]. split; [exact Hlo|]. split; [exact Hlσ|].
      split; [|split].
      * intros j lg' l' s0 Hin Hj Hs0. apply elem_of_cons in Hin.
        destruct Hin as [[= -> ->]|Hin]; [congruence|]. now apply Hrows.
      * intros l0 Hl0. apply Hframe. intros a Ha. apply Hl0. now right.
      * intros i0 Hi0. apply Hout. destruct Hi0 as [Hi0|Hi0]; [left|right; exact Hi0].
        intros Hin. apply Hi0. now right.
Qed.

End Calls.

Lemma list_index_ok {A : Type} (l : list A) (indices : list nat) :
  Forall (fun idx => (idx < length l)%nat) indices ->
  exists r : list A,
    list_index l indices = Ok r
    /\ length r = length indices
    /\ forall i idx, indices !! i = Some idx -> r !! i = l !! idx.
Proof.
  unfold list_index. induction 1 as [|idx indices Hidx Hall IH].
  - exists []. repeat split. intros i idx Hi. discriminate.
  - destruct IH as (r & Hr & Hlen & Hlook).
    destruct (l !! idx) as [x|] eqn:Hx; [|apply lookup_ge_None in Hx; lia].
    exists (x :: r). cbn [traverse]. rewrite (getitem_Some _ _ _ Hx), Hr.
    split; [reflexivity|]. split; [cbn; now rewrite Hlen|].
    intros [|i] idx'; cbn; [intros [= <-]; now rewrite Hx|apply Hlook].
Qed.

Lemma enumerate_elem {A : Type} (l : list A) (i : nat) (x : A) :
  (i, x) ∈ enumerate l <-> l !! i = Some x.
Proof.
  unfold enumerate. rewrite list_elem_of_lookup. split.
  - intros (j & Hj). rewrite (lookup_zip_with pair (seq 0 (length l)) l j) in Hj.
    destruct (seq 0 (length l) !! j) as [a|] eqn:Ha; [|discriminate]. cbn in Hj.
    destruct (l !! j) as [y|] eqn:Hy; [|discriminate]. cbn in Hj.
    injection Hj as <- <-. apply lookup_seq in Ha. destruct Ha as [-> _]. exact Hy.
  - intros Hx. exists i. rewrite (lookup_zip_with pair (seq 0 (length l)) l i).
    rewrite lookup_seq_lt by (eapply lookup_lt_Some; eauto). cbn. now rewrite Hx.
Qed.

Lemma enumerate_fst {A : Type} (l : list A) : (enumerate l).*1 = seq 0 (length l).
Proof. unfold enumerate. apply fst_zip. now rewrite length_seq. Qed.

Section BatchCalls.
Context `{Torch}.

(** One call of the heterogeneous sampler on a batch: every row of the
    sampling map gets the draw of its own sampler, whose state advances by
    that one draw; no other object of the store changes. *)
Lemma heterogeneous_sampling_call_run (self : HeterogeneousSampling.t)
    (logits : list (list float)) (σ : store) :
  samplers_separate (HeterogeneousSampling.sampling_mapping self) ->
  samplers_allocated (HeterogeneousSampling.sampling_mapping self) σ ->
  (forall i l, HeterogeneousSampling.sampling_mapping self !! i = Some l ->
               (i < length logits)%nat) ->
  exists (out : list Z) (σ' : store),
    HeterogeneousSampling.__call__ self logits σ = Ok (out, σ')
    /\ length out = length logits /\ length σ' = length σ
    /\ (forall i lg l s,
          logits !! i = Some lg ->
          HeterogeneousSampling.sampling_mapping self !! i = Some l ->
          σ !! l = Some s ->
          out !! i = Some (Sampling.__call__ s lg).1
          /\ σ' !! l = Some (Sampling.__call__ s lg).2)
    /\ (forall l, (forall i, HeterogeneousSampling.sampling_mapping self !! i <> Some l) ->
                  σ' !! l = σ !! l).
Proof.
  intros Hsep Hall Hkeys. unfold HeterogeneousSampling.__call__.
  set (m := HeterogeneousSampling.sampling_mapping self) in *.
  set (out0 := match HeterogeneousSampling.greedy_indices self with
               | [] => replicate (length logits) 0
               | _ :: _ => map argmax logits
               end).
  assert (Hout0 : length out0 = length logits).
  { subst out0. destruct (HeterogeneousSampling.greedy_indices self);
      [apply length_replicate|apply length_map]. }
  assert (Hcheck : forallb (fun '(i, _) => (i <? length logits)%nat) (map_to_list m) = true).
  { apply forallb_forall. intros [i l] Hin.
    apply list_elem_of_In, elem_of_map_to_list in Hin.
    apply Nat.ltb_lt. eapply Hkeys, Hin. }
  rewrite Hcheck.
  destruct (sample_rows_run m (enumerate logits) Hsep) with (out := out0) (σ := σ)
    as (out & σ' & Hrun & Hlo & Hlσ & Hrows & Hframe & _).
  { rewrite enumerate_fst. apply NoDup_seq. }
  { exact Hall. }
  exists out, σ'. split; [exact Hrun|]. split; [congruence|]. split; [exact Hlσ|].
  split.
  - intros i lg l s Hlg Hm Hs.
    destruct (Hrows i lg l s) as [H1 H2]; [now apply enumerate_elem|exact Hm|exact Hs|].
    split; [|exact H1]. apply H2. rewrite Hout0. eapply lookup_lt_Some, Hlg.
  - intros l Hl. apply Hframe. intros i _. apply Hl.
Qed.

End BatchCalls.

Section Compaction.
Context `{Torch} `{LogitsProcess}.


End Compaction.

Section Filter.
Context `{Torch} `{LogitsProcess}.

(** After construction the sampling map has exactly the rows that sample. *)
Lemma heterogeneous_sampling_init_rows (do_sample : list bool) (seeds : list Z)
    (σ : store) (i : nat) :
  length seeds = length do_sample ->
  is_Some (HeterogeneousSampling.sampling_mapping
             (HeterogeneousSampling.__init__ do_sample seeds σ).1 !! i)
  <-> do_sample !! i = Some true.
Proof.
  intros Hlen. destruct (do_sample !! i) as [sample|] eqn:Hs.
  - destruct (seeds !! i) as [seed|] eqn:Hseed.
    + rewrite (proj1 (heterogeneous_sampling_init do_sample seeds σ i sample seed Hs Hseed)).
      split; congruence.
    + apply lookup_ge_None in Hseed. apply lookup_lt_Some in Hs. lia.
  - unfold HeterogeneousSampling.__init__, enumerate.
    destruct (sampling_init_fold (zip do_sample seeds) 0 [] ∅ σ)
      as (g' & m' & σ' & Hfold & Hm & _).
    rewrite Hfold. cbn [fst HeterogeneousSampling.sampling_mapping].
    rewrite Hm, lookup_empty.
    + split; [intros [? ?]; discriminate|discriminate].
    + right. apply lookup_ge_None in Hs. rewrite length_zip_with. lia.
Qed.


End Filter.


(** ** Top-n extraction *)

(** ** The order of the floats *)

Ltac fold_pos_compare :=
  repeat match goal with
         | |- context [PosDef.Pos.compare_cont Eq ?a ?b] =>
             change (PosDef.Pos.compare_cont Eq a b) with (Pos.compare a b)
         end.

Lemma SFleb_trans (x y z : spec_float) :
  SFleb x y = true -> SFleb y z = true -> SFleb x z = true.
Proof.
  unfold SFleb, SFcompare.
  destruct x as [sx|sx| |sx mx ex], y as [sy|sy| |sy my ey], z as [sz|sz| |sz mz ez];
    try destruct sx; try destruct sy; try destruct sz; cbn; try congruence;
    fold_pos_compare;
    destruct (Z.compare_spec ex ey), (Z.compare_spec ey ez), (Z.compare_spec ex ez);
    try lia; try congruence; subst;
    destruct (Pos.compare_spec mx my), (Pos.compare_spec my mz),
      (Pos.compare_spec mx mz); cbn; try lia; congruence.
Qed.

Lemma SFleb_total (x y : spec_float) :
  x <> S754_nan -> y <> S754_nan -> SFleb x y = true \/ SFleb y x = true.
Proof.
  unfold SFleb, SFcompare.
  destruct x as [sx|sx| |sx mx ex], y as [sy|sy| |sy my ey];
    try destruct sx; try destruct sy; cbn; try congruence; auto;
    fold_pos_compare; intros _ _;
    rewrite (Z.compare_antisym ex ey), (Pos.compare_antisym mx my);
    destruct (ex ?= ey), (mx ?= my)%positive; cbn; auto.
Qed.

Lemma SFltb_not_leb (x y : spec_float) :
  x <> S754_nan -> y <> S754_nan -> SFltb x y = negb (SFleb y x).
Proof.
  unfold SFltb, SFleb, SFcompare.
  destruct x as [sx|sx| |sx mx ex], y as [sy|sy| |sy my ey];
    try destruct sx; try destruct sy; cbn; try congruence; auto;
    fold_pos_compare; intros _ _;
    rewrite (Z.compare_antisym ex ey), (Pos.compare_antisym mx my);
    destruct (ex ?= ey), (mx ?= my)%positive; cbn; auto.
Qed.

Lemma is_nan_false (x : float) : is_nan x = false -> Prim2SF x <> S754_nan.
Proof.
  unfold is_nan. rewrite FloatAxioms.eqb_spec. intros H Hx. rewrite Hx in H. discriminate.
Qed.

Lemma float_leb_trans (x y z : float) :
  (x <=? y)%float = true -> (y <=? z)%float = true -> (x <=? z)%float = true.
Proof. rewrite !FloatAxioms.leb_spec. apply SFleb_trans. Qed.

Lemma float_leb_total (x y : float) :
  is_nan x = false -> is_nan y = false ->
  (x <=? y)%float = true \/ (y <=? x)%float = true.
Proof.
  intros Hx Hy. rewrite !FloatAxioms.leb_spec. apply SFleb_total; now apply is_nan_false.
Qed.

Lemma float_ltb_not_leb (x y : float) :
  is_nan x = false -> is_nan y = false -> (x <? y)%float = negb (y <=? x)%float.
Proof.
  intros Hx Hy. rewrite FloatAxioms.ltb_spec, FloatAxioms.leb_spec. apply SFltb_not_leb; now apply is_nan_false.
Qed.

Lemma float_leb_refl (x : float) : is_nan x = false -> (x <=? x)%float = true.
Proof. intros Hx. destruct (float_leb_total x x Hx Hx); assumption. Qed.

(** ** Sorting a row *)

Lemma insert_desc_perm (x : nat * float) (l : list (nat * float)) :
  insert_desc x l ≡ₚ x :: l.
Proof.
  induction l as [|y l IH]; cbn; [reflexivity|].
  destruct (x.2 <? y.2)%float; [|reflexivity].
  rewrite IH. apply Permutation_swap.
Qed.

Lemma sort_desc_perm (row : list float) : sort_desc row ≡ₚ enumerate row.
Proof.
  unfold sort_desc. induction (enumerate row) as [|x l IH]; cbn; [reflexivity|].
  now rewrite insert_desc_perm, IH.
Qed.

Lemma insert_desc_descending (x : nat * float) (l : list (nat * float)) :
  is_nan x.2 = false -> Forall (fun y => is_nan y.2 = false) l ->
  descending l -> descending (insert_desc x l).
Proof.
  intros Hx Hl Hs. induction Hs as [|y l Hs IH Hy]; cbn.
  - repeat constructor.
  - apply Forall_cons in Hl. destruct Hl as [Hny Hl].
    rewrite (float_ltb_not_leb x.2 y.2 Hx Hny).
    destruct (y.2 <=? x.2)%float eqn:Hyx; cbn.
    + constructor; [now constructor|]. constructor; [exact Hyx|].
      eapply Forall_impl; [exact Hy|]. cbn. intros z Hz.
      eapply float_leb_trans; eauto.
    + constructor; [now apply IH|].
      rewrite insert_desc_perm. constructor; [|exact Hy].
      destruct (float_leb_total x.2 y.2 Hx Hny); [assumption|congruence].
Qed.

Lemma enumerate_no_nan (row : list float) :
  no_nan row -> Forall (fun y : nat * float => is_nan y.2 = false) (enumerate row).
Proof.
  intros H. apply Forall_forall. intros [i x] Hin. apply enumerate_elem in Hin.
  unfold no_nan in H. rewrite Forall_forall in H. apply H.
  apply list_elem_of_lookup. eauto.
Qed.

Lemma sort_desc_descending (row : list float) : no_nan row -> descending (sort_desc row).
Proof.
  intros H. apply enumerate_no_nan in H. unfold sort_desc.
  induction H as [|x l Hx Hl IH]; cbn; [constructor|].
  apply insert_desc_descending; [exact Hx| |exact IH].
  clear IH. induction l as [|y l IHl]; cbn; [constructor|].
  apply Forall_cons in Hl. destruct Hl as [Hy Hl].
  rewrite insert_desc_perm. constructor; [exact Hy|now apply IHl].
Qed.

(** In a list sorted by descending value the entries at or above a
    threshold form a prefix. *)
Lemma descending_filter_prefix (th : float) (l : list (nat * float)) :
  descending l ->
  List.filter (fun e : nat * float => (th <=? e.2)%float) l
  = take (length (List.filter (fun e : nat * float => (th <=? e.2)%float) l)) l.
Proof.
  induction 1 as [|y l Hs IH Hy]; [reflexivity|]. cbn [List.filter].
  destruct (th <=? y.2)%float eqn:Hth; cbn [length take]; [now rewrite <- IH|].
  assert (Hnone : List.filter (fun e : nat * float => (th <=? e.2)%float) l = []).
  { clear IH Hs. induction l as [|z l IHl]; [reflexivity|]. cbn.
    apply Forall_cons in Hy. destruct Hy as [Hz Hy].
    destruct (th <=? z.2)%float eqn:Hthz; [|now apply IHl].
    rewrite (float_leb_trans th z.2 y.2 Hthz Hz) in Hth. discriminate. }
  now rewrite Hnone.
Qed.

Lemma filter_length_perm {A : Type} (p : A -> bool) (l1 l2 : list A) :
  l1 ≡ₚ l2 -> length (List.filter p l1) = length (List.filter p l2).
Proof.
  induction 1 as [|x l1 l2 _ IH|x y l|l1 l2 l3 _ IH1 _ IH2]; cbn.
  - reflexivity.
  - destruct (p x); cbn; now rewrite IH.
  - destruct (p x), (p y); reflexivity.
  - congruence.
Qed.

Lemma filter_enumerate_length {A : Type} (p : A -> bool) (l : list A) (a : nat) :
  length (List.filter (fun e : nat * A => p e.2) (zip (seq a (length l)) l))
  = length (List.filter p l).
Proof.
  revert a. induction l as [|x l IH]; intros a; [reflexivity|]. cbn.
  destruct (p x); cbn; now rewrite IH.
Qed.

(** ** The steps of batch_top_tokens *)

Lemma sort_desc_length (row : list float) : length (sort_desc row) = length row.
Proof.
  rewrite (Permutation_length (sort_desc_perm row)).
  unfold enumerate. rewrite length_zip_with, length_seq. lia.
Qed.

Lemma traverse_map_ok {A B : Type} (f : A -> result B) (g : A -> B) (l : list A) :
  Forall (fun x => f x = Ok (g x)) l -> traverse f l = Ok (map g l).
Proof.
  induction 1 as [|x l Hx _ IH]; cbn; [reflexivity|]. now rewrite Hx, IH.
Qed.

Lemma topk_ok (V : nat) (k : nat) (rows : list (list float)) :
  (k <= V)%nat -> Forall (fun r => length r = V) rows ->
  topk rows (Z.of_nat k) = Ok (map (fun r => take k (sort_desc r)) rows).
Proof.
  intros Hk Hrows. unfold topk. apply traverse_map_ok.
  eapply Forall_impl; [exact Hrows|]. cbn. intros r Hr. unfold topk_row.
  destruct (Z.leb_spec 0 (Z.of_nat k)); [|lia].
  destruct (Z.leb_spec (Z.of_nat k) (Z.of_nat (length r))); [|lia].
  cbn. now rewrite Nat2Z.id.
Qed.

(** The value at rank [n], when the row has that many entries. *)
Lemma rank_value_is_Some (row : list float) (n : nat) :
  (1 <= n <= length row)%nat -> is_Some (rank_value row n).
Proof.
  intros Hn. unfold rank_value. apply fmap_is_Some, lookup_lt_is_Some.
  rewrite sort_desc_length. lia.
Qed.

Lemma gather_ranks (M V : nat) (rows : list (list float)) (ns : list Z) :
  (1 <= M <= V)%nat ->
  Forall (fun r => length r = V) rows ->
  Forall (fun n => 0 <= n <= Z.of_nat M) ns ->
  length rows = length ns ->
  gather (map (map snd) (map (fun r => take M (sort_desc r)) rows))
    (map (fun n => [Z.max (n - 1) 0]) ns)
  = Ok (zip_with
          (fun r n => [default 0%float (rank_value r (Nat.max (Z.to_nat n) 1))])
          rows ns).
Proof.
  intros HM Hrows. revert ns.
  induction Hrows as [|r rows Hr _ IH]; intros [|n ns] Hns Hlen; try discriminate;
    [reflexivity|].
  apply Forall_cons in Hns. destruct Hns as [Hn Hns]. injection Hlen as Hlen.
  cbn [map gather zip_with]. rewrite (IH ns Hns Hlen).
  unfold gather_row. cbn [traverse].
  rewrite length_map, length_take, sort_desc_length, Hr.
  destruct (Z.leb_spec 0 (Z.max (n - 1) 0)); [|lia].
  destruct (Z.ltb_spec (Z.max (n - 1) 0) (Z.of_nat (M `min` V))); [|lia].
  cbn [andb].
  assert (Hidx : Z.to_nat (Z.max (n - 1) 0) = (Nat.max (Z.to_nat n) 1 - 1)%nat) by lia.
  destruct (rank_value_is_Some r (Nat.max (Z.to_nat n) 1)) as [x Hx]; [lia|].
  rewrite Hx. cbn [default]. unfold rank_value in Hx.
  rewrite (getitem_Some _ _ x); [reflexivity|].
  rewrite Hidx. change (map snd ?l) with (snd <$> l).
  rewrite list_lookup_fmap, lookup_take_lt by lia. exact Hx.
Qed.

Lemma ge_column_ok (rows : list (list float)) (ths : list float) :
  length rows = length ths ->
  ge_column rows (map (fun x => [x]) ths)
  = Ok (zip_with (fun r th => map (fun y => (th <=? y)%float) r) rows ths).
Proof.
  intros Hlen. unfold ge_column. rewrite length_map, Hlen, Nat.eqb_refl.
  revert ths Hlen. induction rows as [|r rows IH]; intros [|th ths] Hlen;
    try discriminate; [reflexivity|].
  injection Hlen as Hlen. cbn [map zip_with traverse]. cbn [mbind result_bind].
  rewrite (IH ths Hlen). reflexivity.
Qed.

Lemma count_true_enumerate (row : list bool) (a : nat) :
  length (List.filter (fun '(_, b) => b) (zip (seq a (length row)) row))
  = count_true row.
Proof.
  unfold count_true. revert a. induction row as [|b row IH]; intros a; [reflexivity|].
  cbn. destruct b; cbn; now rewrite IH.
Qed.

Lemma nonzero_rows (mask : list (list bool)) (a : nat) :
  map fst
    (concat
       (map (fun '(i, row) =>
               map (fun '(v, _) => (i, v))
                 (List.filter (fun '(_, b) => b) (enumerate row)))
          (zip (seq a (length mask)) mask)))
  = concat (map (fun '(i, row) => replicate (count_true row) i)
              (zip (seq a (length mask)) mask)).
Proof.
  revert a. induction mask as [|row mask IH]; intros a; [reflexivity|].
  cbn [length seq zip_with map concat]. rewrite map_app, IH. f_equal.
  rewrite <- (count_true_enumerate row 0). unfold enumerate.
  induction (List.filter _ _) as [|[v b] l IHl]; [reflexivity|].
  cbn. now rewrite IHl.
Qed.

Lemma unique_consecutive_run (a c : nat) (rest : list nat) :
  match unique_consecutive rest with
  | (y, _) :: _ => y <> a
  | [] => True
  end ->
  unique_consecutive (replicate (S c) a ++ rest)
  = (a, Z.of_nat (S c)) :: unique_consecutive rest.
Proof.
  intros Hrest. induction c as [|c IH].
  - cbn [replicate app unique_consecutive].
    destruct (unique_consecutive rest) as [|[y n] l]; [reflexivity|].
    destruct (Nat.eqb_spec a y); [congruence|reflexivity].
  - change (replicate (S (S c)) a ++ rest) with (a :: (replicate (S c) a ++ rest)).
    cbn [unique_consecutive]. rewrite IH, Nat.eqb_refl. f_equal. f_equal. lia.
Qed.

(** The counts read off the row numbers of [nonzero]: one per row, as long
    as every row has a true entry. *)
Lemma unique_consecutive_rows (cs : list nat) (a : nat) :
  Forall (fun c => (0 < c)%nat) cs ->
  unique_consecutive
    (concat (map (fun '(i, c) => replicate c i) (zip (seq a (length cs)) cs)))
  = zip (seq a (length cs)) (map Z.of_nat cs).
Proof.
  intros Hcs. revert a. induction Hcs as [|c cs Hc _ IH]; intros a; [reflexivity|].
  cbn [length seq zip_with map concat]. destruct c as [|c]; [lia|].
  rewrite unique_consecutive_run; rewrite (IH (S a)).
  - reflexivity.
  - destruct cs; cbn; [exact I|lia].
Qed.

Lemma map_zip_with {A B C D : Type} (f : C -> D) (g : A -> B -> C)
    (l : list A) (k : list B) :
  map f (zip_with g l k) = zip_with (fun x y => f (g x y)) l k.
Proof.
  revert k. induction l as [|x l IH]; intros [|y k]; cbn; try reflexivity.
  now rewrite IH.
Qed.

Lemma zip_with_zip_with_r {A B C D : Type} (f : A -> C -> D) (g : A -> B -> C)
    (l : list A) (k : list B) :
  zip_with f l (zip_with g l k) = zip_with (fun x y => f x (g x y)) l k.
Proof.
  revert k. induction l as [|x l IH]; intros [|y k]; cbn; try reflexivity.
  now rewrite IH.
Qed.

Lemma py_max_ok (l : list Z) (m : Z) :
  py_max l = Ok m -> Forall (fun x => x <= m) l /\ m ∈ l.
Proof.
  destruct l as [|x l]; [discriminate|]. cbn. intros [= <-].
  assert (Hgen : forall l x, Forall (fun y => y <= fold_left Z.max l x) (x :: l)
                              /\ fold_left Z.max l x ∈ x :: l).
  { clear. induction l as [|y l IH]; intros x; cbn.
    - split; [repeat constructor; lia|left].
    - destruct (IH (Z.max x y)) as [H1 H2]. apply Forall_cons in H1 as [H0 H1].
      split.
      + constructor; [lia|]. constructor; [lia|exact H1].
      + apply elem_of_cons in H2. destruct H2 as [H2|H2].
        * rewrite H2. destruct (Z.max_spec x y) as [[_ ->]|[_ ->]];
            [right; left|left].
        * right. now right. }
  apply Hgen.
Qed.

Lemma py_max_nat (cs : list nat) :
  cs <> [] ->
  exists K : nat, py_max (map Z.of_nat cs) = Ok (Z.of_nat K)
                  /\ Forall (fun c => (c <= K)%nat) cs /\ K ∈ cs.
Proof.
  intros Hne. destruct (py_max (map Z.of_nat cs)) as [m|e] eqn:Hm.
  - destruct (py_max_ok _ _ Hm) as [H1 H2].
    apply list_elem_of_fmap in H2. destruct H2 as (K & -> & HK).
    exists K. split; [reflexivity|]. split; [|exact HK].
    apply Forall_forall. intros c Hc. rewrite Forall_forall in H1.
    specialize (H1 (Z.of_nat c)). assert (Z.of_nat c <= Z.of_nat K); [|lia].
    apply H1. apply list_elem_of_fmap. now exists c.
  - destruct cs; [contradiction|discriminate].
Qed.

Lemma final_rows {A : Type} (K V : nat) (d : dtype) (proj : nat * float -> A)
    (rows : list (list float)) (ns : list Z) :
  (0 < V)%nat ->
  length rows = length ns ->
  Forall2 (fun r n => (row_count d r n <= K)%nat) rows ns ->
  map (fun '(xs, (n, req_n)) => if 0 <? req_n then take (Z.to_nat n) xs else [])
    (zip (map (map proj) (map (fun r => take K (sort_desc r)) rows))
       (zip (map Z.of_nat (zip_with (row_count d) rows ns))
          (map (fun tok => Z.min tok (Z.of_nat V)) ns)))
  = zip_with (fun r n => if 0 <? n then map proj (take (row_count d r n) (sort_desc r))
                         else [])
      rows ns.
Proof.
  intros HV Hlen Hall. clear Hlen.
  induction Hall as [|r n rows ns Hrn _ IH]; [reflexivity|].
  cbn [map zip_with]. rewrite IH. f_equal.
  destruct (Z.ltb_spec 0 n), (Z.ltb_spec 0 (Z.min n (Z.of_nat V))); try lia;
    [|reflexivity].
  rewrite Nat2Z.id. change (map proj ?l) with (proj <$> l).
  rewrite <- fmap_take, take_take. do 2 f_equal. lia.
Qed.

Lemma count_true_map (th : float) (row : list float) :
  count_true (map (fun y => (th <=? y)%float) row)
  = length (List.filter (fun y => (th <=? y)%float) row).
Proof.
  unfold count_true. induction row as [|y row IH]; [reflexivity|]. cbn.
  destruct (th <=? y)%float; cbn; now rewrite IH.
Qed.

Lemma runs_of_mask (mask : list (list bool)) (a : nat) :
  map (fun '(i, row) => replicate (count_true row) i) (zip (seq a (length mask)) mask)
  = map (fun '(i, c) => replicate c i)
      (zip (seq a (length (map count_true mask))) (map count_true mask)).
Proof.
  revert a. induction mask as [|row mask IH]; intros a; [reflexivity|].
  cbn [length seq zip_with map]. now rewrite IH.
Qed.

Lemma row_count_le (d : dtype) (row : list float) (n : Z) :
  (row_count d row n <= length row)%nat.
Proof.
  unfold row_count. generalize (fun y => (row_threshold d row n <=? y)%float).
  intros p. induction row as [|y row IH]; cbn; [lia|]. destruct (p y); cbn; lia.
Qed.

Lemma zip_with_Forall2 {A B C : Type} (P : C -> Prop) (f : A -> B -> C)
    (l : list A) (k : list B) :
  length l = length k ->
  Forall P (zip_with f l k) <-> Forall2 (fun x y => P (f x y)) l k.
Proof.
  revert k. induction l as [|x l IH]; intros [|y k] Hlen; try discriminate; cbn.
  - split; constructor.
  - injection Hlen as Hlen. rewrite Forall_cons, (IH k Hlen). split.
    + intros [H1 H2]. now constructor.
    + intros H. inversion H; subst. now split.
Qed.

Lemma top_n_ishes_rows (d : dtype) (rows : list (list float)) (ns : list Z) :
  length rows = length ns ->
  Forall2 (fun r n => (0 < row_count d r n)%nat) rows ns ->
  map snd
    (unique_consecutive
       (map fst
          (nonzero
             (zip_with (fun r n => map (fun y => (row_threshold d r n <=? y)%float) r)
                rows ns))))
  = map Z.of_nat (zip_with (row_count d) rows ns).
Proof.
  intros Hlen Hcount. unfold nonzero. unfold enumerate at 2.
  assert (Hcs : map count_true
                  (zip_with
                     (fun r n => map (fun y => (row_threshold d r n <=? y)%float) r)
                     rows ns)
                = zip_with (row_count d) rows ns).
  { rewrite map_zip_with. apply zip_with_ext; try reflexivity.
    intros r n. apply count_true_map. }
  rewrite nonzero_rows, runs_of_mask, Hcs.
  rewrite unique_consecutive_rows by (now apply zip_with_Forall2).
  change (map snd ?l) with (l.*2).
  apply snd_zip. rewrite length_seq, length_map. lia.
Qed.

(** What [batch_top_tokens] returns when the requested counts fit the
    vocabulary, one of them is positive and every row has an entry at or
    above its threshold. *)
Lemma batch_top_tokens_run (d : dtype) (ns : list Z) (rows : list (list float)) :
  length rows = length ns ->
  Forall (fun r => length r = shape1 rows) rows ->
  Forall (fun n => 0 <= n <= Z.of_nat (shape1 rows)) ns ->
  Exists (fun n => 0 < n) ns ->
  Forall2 (fun r n => (0 < row_count d r n)%nat) rows ns ->
  batch_top_tokens d ns ns rows
  = Ok (zip_with (fun r n => if 0 <? n
                             then map fst (take (row_count d r n) (sort_desc r)) else [])
          rows ns,
        zip_with (fun r n => if 0 <? n
                             then map snd (take (row_count d r n) (sort_desc r)) else [])
          rows ns).
Proof.
  intros Hlen Hrows Hns Hpos Hcount.
  set (V := shape1 rows) in *.
  assert (Hne : ns <> []) by (intros ->; inversion Hpos).
  destruct (py_max ns) as [M|e] eqn:HM; [|destruct ns; [contradiction|discriminate]].
  destruct (py_max_ok ns M HM) as [HleM HMin].
  assert (HM1 : 1 <= M <= Z.of_nat V).
  { rewrite Forall_forall in Hns, HleM. split; [|apply Hns, HMin].
    apply Exists_exists in Hpos. destruct Hpos as (n & Hn & Hn0).
    specialize (HleM n Hn). lia. }
  unfold batch_top_tokens. fold V. rewrite HM. cbn [mbind result_bind].
  destruct (Z.eqb_spec M 0) as [|HM0]; [lia|].
  rewrite <- (Z2Nat.id M) by lia.
  rewrite (topk_ok V (Z.to_nat M) rows) by (lia || exact Hrows).
  cbn [mbind result_bind].
  rewrite (gather_ranks (Z.to_nat M) V rows ns); [|lia|exact Hrows| |exact Hlen].
  2:{ apply Forall_forall. intros n Hn. rewrite Forall_forall in Hns, HleM.
      specialize (Hns n Hn). specialize (HleM n Hn). lia. }
  cbn [mbind result_bind].
  rewrite map_zip_with. cbn [map].
  match goal with
  | |- context [ge_column rows ?t] =>
      replace t with (map (fun x => [x]) (zip_with (row_threshold d) rows ns))
        by (rewrite map_zip_with; reflexivity)
  end.
  rewrite ge_column_ok by (rewrite length_zip_with; lia).
  cbn [mbind result_bind]. rewrite zip_with_zip_with_r.
  rewrite (top_n_ishes_rows d rows ns Hlen Hcount).
  assert (Hcs : zip_with (row_count d) rows ns <> []).
  { intros Hz. apply (f_equal length) in Hz. rewrite length_zip_with in Hz.
    destruct ns; [contradiction|]. cbn in Hz, Hlen. lia. }
  destruct (py_max_nat _ Hcs) as (K & HK & HKle & HKin).
  destruct (map Z.of_nat (zip_with (row_count d) rows ns)) as [|c0 cs0] eqn:Hcs0.
  { destruct (zip_with (row_count d) rows ns); [contradiction|discriminate]. }
  rewrite <- Hcs0 in *. rewrite HK. cbn [mbind result_bind].
  assert (HKV : (K <= V)%nat).
  { apply elem_of_lookup_zip_with in HKin. destruct HKin as (i & r & n & HKeq & Hr & _).
    rewrite HKeq.
    rewrite Forall_forall in Hrows. rewrite <- (Hrows r).
    - apply row_count_le.
    - apply list_elem_of_lookup. eauto. }
  rewrite (topk_ok V K rows HKV Hrows). cbn [mbind result_bind].
  assert (HV : (0 < V)%nat) by lia.
  assert (Hall : Forall2 (fun r n => (row_count d r n <= K)%nat) rows ns)
    by (apply (zip_with_Forall2 (fun c => (c <= K)%nat) (row_count d) rows ns Hlen);
        exact HKle).
  rewrite (final_rows K V d fst rows ns HV Hlen Hall).
  rewrite (final_rows K V d snd rows ns HV Hlen Hall).
  reflexivity.
Qed.

(** ** One row of the result *)

Lemma descending_count (th : float) (l : list (nat * float)) (j : nat) (e : nat * float) :
  descending l -> l !! j = Some e -> (th <=? e.2)%float = true ->
  (j < length (List.filter (fun e : nat * float => (th <=? e.2)%float) l))%nat.
Proof.
  intros Hs. revert j. induction Hs as [|y l Hs IH Hy]; intros j Hj He; [discriminate|].
  assert (Hy' : (th <=? y.2)%float = true).
  { destruct j as [|j]; cbn in Hj; [congruence|].
    rewrite Forall_forall in Hy. eapply float_leb_trans; [exact He|].
    apply Hy. apply list_elem_of_lookup. eauto. }
  cbn [List.filter]. rewrite Hy'. cbn [length].
  destruct j as [|j]; [lia|]. cbn in Hj. specialize (IH j Hj He). lia.
Qed.

Lemma sort_desc_elem (row : list float) (v : nat) (x : float) :
  (v, x) ∈ sort_desc row <-> row !! v = Some x.
Proof. rewrite (sort_desc_perm row). apply enumerate_elem. Qed.

Lemma sort_desc_no_nan (row : list float) :
  no_nan row -> Forall (fun e : nat * float => is_nan e.2 = false) (sort_desc row).
Proof.
  intros H. rewrite (sort_desc_perm row). now apply enumerate_no_nan.
Qed.

(** The entries kept for a row are those at or above its threshold. *)
Lemma row_kept (d : dtype) (row : list float) (n : Z) :
  no_nan row ->
  take (row_count d row n) (sort_desc row)
  = List.filter (fun e : nat * float => (row_threshold d row n <=? e.2)%float)
      (sort_desc row).
Proof.
  intros Hnan. rewrite (descending_filter_prefix _ _ (sort_desc_descending row Hnan)).
  f_equal. unfold row_count.
  rewrite (filter_length_perm _ _ _ (sort_desc_perm row)). unfold enumerate.
  symmetry. exact (filter_enumerate_length
                     (fun y => (row_threshold d row n <=? y)%float) row 0).
Qed.

Lemma threshold_row_threshold (d : dtype) (row : list float) (n : Z) :
  (Nat.max (Z.to_nat n) 1 <= length row)%nat ->
  threshold d row (Z.to_nat n) = Some (row_threshold d row n).
Proof.
  intros Hn. unfold threshold, row_threshold.
  destruct (rank_value_is_Some row (Nat.max (Z.to_nat n) 1)) as [x Hx]; [lia|].
  rewrite Hx. reflexivity.
Qed.

(** Every row has an entry at or above its threshold. *)
Lemma row_count_pos (d : dtype) (row : list float) (n : Z) :
  no_nan row ->
  (Nat.max (Z.to_nat n) 1 <= length row)%nat ->
  (exists y, y ∈ row /\ (finfo_min d <=? y)%float = true) ->
  (0 < row_count d row n)%nat.
Proof.
  intros Hnan Hn (y & Hy & Hmin).
  assert (Hcount : row_count d row n
            = length (List.filter
                        (fun e : nat * float => (row_threshold d row n <=? e.2)%float)
                        (sort_desc row))).
  { rewrite <- (row_kept d row n Hnan), length_take, sort_desc_length.
    symmetry. apply Nat.min_l, row_count_le. }
  rewrite Hcount. unfold row_threshold.
  destruct (rank_value_is_Some row (Nat.max (Z.to_nat n) 1)) as [x Hx]; [lia|].
  rewrite Hx. cbn [default from_option]. unfold id. unfold rank_value in Hx.
  destruct (sort_desc row !! (Nat.max (Z.to_nat n) 1 - 1)%nat) as [e|] eqn:He;
    [|discriminate].
  injection Hx as <-.
  destruct (e.2 =? neg_infinity)%float.
  - apply list_elem_of_lookup in Hy. destruct Hy as [v Hv].
    apply sort_desc_elem, list_elem_of_lookup in Hv. destruct Hv as [j Hj].
    pose proof (descending_count (finfo_min d) _ j (v, y)
                  (sort_desc_descending row Hnan) Hj Hmin). lia.
  - pose proof (sort_desc_no_nan row Hnan) as Hall. rewrite Forall_forall in Hall.
    assert (Hrefl : (e.2 <=? e.2)%float = true).
    { apply float_leb_refl, Hall. apply list_elem_of_lookup. eauto. }
    pose proof (descending_count e.2 _ _ e (sort_desc_descending row Hnan) He Hrefl).
    lia.
Qed.

(** When the value at rank [n] is not minus infinity, at least [n] entries
    are kept: the ties at the boundary are all there. *)
Lemma row_count_ge (d : dtype) (row : list float) (n : Z) (x : float) :
  no_nan row -> 0 < n ->
  rank_value row (Z.to_nat n) = Some x -> (x =? neg_infinity)%float = false ->
  (Z.to_nat n <= row_count d row n)%nat.
Proof.
  intros Hnan Hn Hx Hfin.
  assert (Hcount : row_count d row n
            = length (List.filter
                        (fun e : nat * float => (row_threshold d row n <=? e.2)%float)
                        (sort_desc row))).
  { rewrite <- (row_kept d row n Hnan), length_take, sort_desc_length.
    symmetry. apply Nat.min_l, row_count_le. }
  rewrite Hcount. unfold row_threshold.
  replace (Nat.max (Z.to_nat n) 1) with (Z.to_nat n) by lia.
  rewrite Hx. cbn [default from_option]. unfold id. rewrite Hfin.
  unfold rank_value in Hx.
  destruct (sort_desc row !! (Z.to_nat n - 1)%nat) as [e|] eqn:He; [|discriminate].
  injection Hx as <-.
  pose proof (sort_desc_no_nan row Hnan) as Hall. rewrite Forall_forall in Hall.
  assert (Hrefl : (e.2 <=? e.2)%float = true).
  { apply float_leb_refl, Hall. apply list_elem_of_lookup. eauto. }
  pose proof (descending_count e.2 _ _ e (sort_desc_descending row Hnan) He Hrefl).
  lia.
Qed.

Lemma kept_ids_values (row : list float) (l : list (nat * float)) :
  Forall (fun e : nat * float => row !! e.1 = Some e.2) l ->
  Forall2 (fun v x => row !! v = Some x) (map fst l) (map snd l).
Proof. induction 1; cbn; constructor; auto. Qed.

Lemma kept_ids_NoDup (row : list float) (c : nat) :
  NoDup (map fst (take c (sort_desc row))).
Proof.
  change (map fst ?l) with (l.*1). rewrite fmap_take.
  eapply sublist_NoDup; [|apply sublist_take].
  rewrite (sort_desc_perm row), enumerate_fst. apply NoDup_seq.
Qed.

(** C7, as the code computes it. For log-probabilities without NaN, with
    requested counts between 0 and the vocabulary size, one of them
    positive, and a value at or above the least finite value of the dtype in
    every row: token [v] of sequence [i] is returned iff the count asked for
    the sequence is positive and the log-probability of [v] is at or above
    the threshold of the sequence, which is the value at rank
    [top_n_tokens[i]] of the row, replaced by the least finite value of the
    dtype when it is minus infinity. Every token is returned once, with its
    log-probability. When the value at that rank is not minus infinity, all
    tokens tied with it are returned and the list has at least the requested
    length; a requested count of 0 yields empty lists. *)
Theorem top_n_fuzzy_inclusion (d : dtype) (top_n_tokens : list Z)
    (logprobs : list (list float)) :
  length logprobs = length top_n_tokens ->
  Forall (fun row => length row = shape1 logprobs) logprobs ->
  Forall no_nan logprobs ->
  Forall (fun row => exists y, y ∈ row /\ (finfo_min d <=? y)%float = true) logprobs ->
  Forall (fun n => 0 <= n <= Z.of_nat (shape1 logprobs)) top_n_tokens ->
  Exists (fun n => 0 < n) top_n_tokens ->
  exists (ids : list (list nat)) (vals : list (list float)),
    batch_top_tokens d top_n_tokens top_n_tokens logprobs = Ok (ids, vals)
    /\ length ids = length logprobs /\ length vals = length logprobs
    /\ forall (i : nat) (row : list float) (n : Z),
         logprobs !! i = Some row -> top_n_tokens !! i = Some n ->
         exists (ids_i : list nat) (vals_i : list float) (th : float),
           ids !! i = Some ids_i /\ vals !! i = Some vals_i
           /\ threshold d row (Z.to_nat n) = Some th
           /\ (forall v, v ∈ ids_i
                         <-> 0 < n /\ exists x, row !! v = Some x
                                                /\ (th <=? x)%float = true)
           /\ NoDup ids_i
           /\ Forall2 (fun v x => row !! v = Some x) ids_i vals_i
           /\ (forall x, 0 < n -> rank_value row (Z.to_nat n) = Some x ->
                         (x =? neg_infinity)%float = false ->
                         (Z.to_nat n <= length ids_i)%nat)
           /\ (n = 0 -> ids_i = [] /\ vals_i = []).
Proof.
  intros Hlen Hrows Hnan Hmin Hns Hpos.
  assert (Hrank : forall i row n, logprobs !! i = Some row -> top_n_tokens !! i = Some n ->
            no_nan row /\ 0 <= n /\ (Nat.max (Z.to_nat n) 1 <= length row)%nat
            /\ exists y, y ∈ row /\ (finfo_min d <=? y)%float = true).
  { intros i row n Hrow Hn.
    assert (Hin : row ∈ logprobs) by (apply list_elem_of_lookup; eauto).
    assert (Hin' : n ∈ top_n_tokens) by (apply list_elem_of_lookup; eauto).
    pose proof (proj1 (Forall_forall _ _) Hrows row Hin) as Hr.
    pose proof (proj1 (Forall_forall _ _) Hnan row Hin) as Hnr.
    pose proof (proj1 (Forall_forall _ _) Hmin row Hin) as Hmr.
    pose proof (proj1 (Forall_forall _ _) Hns n Hin') as Hnn.
    cbn beta in Hr, Hnn. rewrite Hr.
    split; [exact Hnr|]. split; [lia|]. split; [|exact Hmr].
    apply Exists_exists in Hpos. destruct Hpos as (m & Hm & Hm0).
    pose proof (proj1 (Forall_forall _ _) Hns m Hm) as Hmm. cbn beta in Hmm. lia. }
  assert (Hcount : Forall2 (fun r n => (0 < row_count d r n)%nat) logprobs top_n_tokens).
  { apply Forall2_same_length_lookup. split; [exact Hlen|].
    intros i row n Hrow Hn. destruct (Hrank i row n Hrow Hn) as (H1 & H2 & H3 & H4).
    now apply row_count_pos. }
  eexists _, _. split; [now apply batch_top_tokens_run|].
  split; [rewrite length_zip_with; lia|]. split; [rewrite length_zip_with; lia|].
  intros i row n Hrow Hn. destruct (Hrank i row n Hrow Hn) as (H1 & H2 & H3 & H4).
  eexists _, _, (row_threshold d row n).
  split; [rewrite lookup_zip_with, Hrow; cbn; rewrite Hn; reflexivity|].
  split; [rewrite lookup_zip_with, Hrow; cbn; rewrite Hn; reflexivity|].
  split; [now apply threshold_row_threshold|].
  destruct (Z.ltb_spec 0 n) as [Hn0|Hn0].
  - split; [|split; [|split; [|split]]].
    + intros v. rewrite (row_kept d row n H1). split.
      * intros Hv. split; [exact Hn0|]. apply list_elem_of_fmap in Hv.
        destruct Hv as ([v' x] & -> & Hvx). apply list_elem_of_In, filter_In in Hvx.
        destruct Hvx as [Hvx Hth]. exists x. split; [|exact Hth].
        apply sort_desc_elem, list_elem_of_In, Hvx.
      * intros (_ & x & Hx & Hth). apply list_elem_of_fmap. exists (v, x).
        split; [reflexivity|]. apply list_elem_of_In, filter_In.
        split; [|exact Hth]. apply list_elem_of_In, sort_desc_elem, Hx.
    + apply kept_ids_NoDup.
    + apply kept_ids_values. apply Forall_forall. intros [v x] Hvx.
      apply sort_desc_elem. eapply subseteq_take, Hvx.
    + intros x _ Hx Hfin. rewrite length_map, length_take, sort_desc_length.
      pose proof (row_count_ge d row n x H1 Hn0 Hx Hfin).
      pose proof (row_count_le d row n). lia.
    + lia.
  - split; [|split; [|split; [|split]]].
    + intros v. split; [intros Hv; apply elem_of_nil in Hv; contradiction|lia].
    + constructor.
    + constructor.
    + lia.
    + auto.
Qed.

Lemma top_n_fuzzy_inclusion_witness :
  exists (ids : list (list nat)) (vals : list (list float)),
    batch_top_tokens float32 [1; 2] [1; 2]
      [[(-0.5)%float; (-2)%float; (-0.5)%float; (-3)%float];
       [(-1)%float; (-1)%float; (-1)%float; (-4)%float]]
    = Ok (ids, vals)
    /\ length ids = 2%nat.
Proof.
  destruct (top_n_fuzzy_inclusion float32 [1; 2]
              [[(-0.5)%float; (-2)%float; (-0.5)%float; (-3)%float];
               [(-1)%float; (-1)%float; (-1)%float; (-4)%float]])
    as (ids & vals & Hrun & Hlen & _).
  - reflexivity.
  - repeat constructor.
  - repeat constructor.
  - constructor; [|constructor; [|constructor]].
    + exists (-0.5)%float. split; [left|reflexivity].
    + exists (-1)%float. split; [left|reflexivity].
  - repeat constructor; cbn; lia.
  - left. lia.
  - exists ids, vals. split; [exact Hrun|exact Hlen].
Defined.

(** C7 as stated fails where the value at the requested rank is minus
    infinity. In the row [[0, -inf, -inf]] with a requested count of 2 the
    value at rank 2 is minus infinity and every token is at or above it, yet
    the threshold used is the least finite value: the tokens 1 and 2 are not
    returned and the list has one entry, fewer than the two asked for. *)
Lemma top_n_minus_infinity_rank :
  batch_top_tokens float32 [2] [2] [[0%float; neg_infinity; neg_infinity]]
  = Ok ([[0%nat]], [[0%float]])
  /\ rank_value [0%float; neg_infinity; neg_infinity] 2 = Some neg_infinity
  /\ [0%float; neg_infinity; neg_infinity] !! 1%nat = Some neg_infinity
  /\ (neg_infinity <=? neg_infinity)%float = true
  /\ ~ (1%nat ∈ [0%nat])
  /\ (length [0%nat] < 2)%nat.
Proof.
  repeat split; try reflexivity.
  - intros H. apply list_elem_of_singleton in H. discriminate.
  - cbn. lia.
Qed.

(** A requested count above the vocabulary size is not clamped where it
    matters: the first [topk] is asked for that many values and raises. *)
Lemma top_n_above_vocabulary_raises :
  batch_top_tokens float32 [5] [5] [[0%float; (-1)%float; (-2)%float]]
  = Raise RuntimeError.
Proof. reflexivity. Qed.

(** C10: on an empty list of requested counts the function raises
    (ValueError, from [max] of an empty list), whatever the other arguments
    are; on a list that is not empty and whose maximum is 0 it returns one
    empty list per sequence for the ids and for the values, whatever the
    tensor of counts and the log-probabilities are. *)
Theorem batch_top_tokens_empty_and_unused (d : dtype) (top_n_tokens_tensor : list Z)
    (logprobs : list (list float)) :
  batch_top_tokens d [] top_n_tokens_tensor logprobs = Raise ValueError
  /\ forall top_n_tokens : list Z,
       top_n_tokens <> [] -> py_max top_n_tokens = Ok 0 ->
       batch_top_tokens d top_n_tokens top_n_tokens_tensor logprobs
       = Ok (replicate (length top_n_tokens) [], replicate (length top_n_tokens) []).
Proof.
  split; [reflexivity|]. intros top_n_tokens _ Hmax.
  unfold batch_top_tokens. rewrite Hmax. reflexivity.
Qed.

Lemma batch_top_tokens_empty_and_unused_witness :
  batch_top_tokens float32 [0; 0] [0; 0] [] = Ok ([[]; []], [[]; []]).
Proof.
  apply (proj2 (batch_top_tokens_empty_and_unused float32 [0; 0] []) [0; 0]);
    [discriminate | reflexivity].
Defined.

(** ** Stop sequences over a run of calls *)

Lemma length_list_ascii_of_string (s : string) :
  length (list_ascii_of_string s) = String.length s.
Proof. induction s as [|c s IH]; cbn; [reflexivity|now rewrite IH]. Qed.

Lemma list_ascii_of_substring (s : string) (n m : nat) :
  list_ascii_of_string (String.substring n m s)
  = take m (drop n (list_ascii_of_string s)).
Proof.
  revert n m. induction s as [|c s IH]; intros [|n] [|m]; cbn; try reflexivity.
  - now rewrite IH.
  - rewrite IH. reflexivity.
  - rewrite IH. reflexivity.
Qed.

Lemma list_ascii_of_str_suffix (n : nat) (s : string) :
  list_ascii_of_string (str_suffix n s)
  = drop (String.length s - n) (list_ascii_of_string s).
Proof.
  unfold str_suffix. rewrite list_ascii_of_substring.
  apply take_ge. rewrite length_drop, length_list_ascii_of_string. lia.
Qed.

Lemma any_stop_iff (cs : list StopSequenceCriteria.t) (output : string) :
  StoppingCriteria.any_stop cs output = true
  <-> Exists (fun c => StopSequenceCriteria.__call__ c output = true) cs.
Proof.
  induction cs as [|c cs IH]; cbn.
  - split; [discriminate|]. intros H. inversion H.
  - destruct (StopSequenceCriteria.__call__ c output) eqn:Hc.
    + split; [|reflexivity]. intros _. now left.
    + rewrite IH. split; [intros H; now right|].
      intros H. inversion H; subst; [congruence|assumption].
Qed.

Lemma traverse_Forall2 {A B : Type} (f : A -> result B) (l : list A) (r : list B) :
  traverse f l = Ok r -> Forall2 (fun x y => f x = Ok y) l r.
Proof.
  revert r. induction l as [|x l IH]; cbn; intros r.
  - intros [= <-]. constructor.
  - destruct (f x) as [y|] eqn:Hx; cbn; [|discriminate].
    destruct (traverse f l) as [ys|]; cbn; [|discriminate].
    intros [= <-]. constructor; [assumption|]. now apply IH.
Qed.

(** The stop check of a criteria object whose stop sequences were built from
    [stops]. *)
Lemma any_stop_stops (stops : list string) (cs : list StopSequenceCriteria.t)
    (output : string) :
  traverse StopSequenceCriteria.__init__ stops = Ok cs ->
  StoppingCriteria.any_stop cs output = true
  <-> exists stop, stop ∈ stops /\ ends_with_stop stop (list_ascii_of_string output).
Proof.
  intros Hcs. apply traverse_Forall2 in Hcs. rewrite any_stop_iff.
  induction Hcs as [|stop c stops cs Hc _ IH].
  - split; [intros H; inversion H|]. intros (stop & Hin & _). inversion Hin.
  - rewrite Exists_cons, IH, (stop_sequence_call_iff stop output c Hc).
    split.
    + intros [H|(s & Hin & H)]; [exists stop|exists s]; split; auto; constructor.
      assumption.
    + intros (s & Hin & H). inversion Hin; subst; [now left|right; eauto].
Qed.

Lemma calls_cons (self : StoppingCriteria.t) (x : Z * string) (inputs : list (Z * string)) :
  StoppingCriteria.calls self (x :: inputs)
  = ((StoppingCriteria.calls (StoppingCriteria.__call__ self x.1 x.2).1 inputs).1,
     (StoppingCriteria.__call__ self x.1 x.2).2
       :: (StoppingCriteria.calls (StoppingCriteria.__call__ self x.1 x.2).1 inputs).2).
Proof.
  destruct x as [tok txt]. cbn [StoppingCriteria.calls fst snd].
  destruct (StoppingCriteria.__call__ self tok txt) as [self' r]. cbn [fst snd].
  destruct (StoppingCriteria.calls self' inputs) as [self'' rs]. reflexivity.
Qed.

(** The fields that a call never writes. *)
Lemma stopping_call_fields (self : StoppingCriteria.t) (tok : Z) (txt : string) :
  let self' := (StoppingCriteria.__call__ self tok txt).1 in
  StoppingCriteria.eos_token_id self' = StoppingCriteria.eos_token_id self
  /\ StoppingCriteria.stop_sequence_criterias self'
     = StoppingCriteria.stop_sequence_criterias self
  /\ StoppingCriteria.ignore_eos_token self' = StoppingCriteria.ignore_eos_token self.
Proof.
  unfold StoppingCriteria.__call__. cbn.
  destruct (_ >=? _); [cbn; auto|].
  destruct (_ && _); [cbn; auto|].
  destruct (StoppingCriteria.stop_sequence_criterias self) eqn:E; [cbn; auto|].
  match goal with |- context [if ?b then _ else _] => destruct b end; cbn; auto.
Qed.

(** A call that reaches the stop sequences: the text is appended to the
    buffer, the buffer is cut when it is too long, and the stop sequences are
    tried on it. *)
Lemma stopping_call_check (self : StoppingCriteria.t) (tok : Z) (txt : string) :
  StoppingCriteria.current_tokens self + 1 < StoppingCriteria.max_new_tokens self ->
  StoppingCriteria.ignore_eos_token self = true
  \/ tok <> StoppingCriteria.eos_token_id self ->
  StoppingCriteria.stop_sequence_criterias self <> [] ->
  exists output : string,
    output = (if (300 <? String.length (StoppingCriteria.current_output self +:+ txt))%nat
              then str_suffix 200 (StoppingCriteria.current_output self +:+ txt)
              else StoppingCriteria.current_output self +:+ txt)
    /\ StoppingCriteria.current_output (StoppingCriteria.__call__ self tok txt).1 = output
    /\ (StoppingCriteria.__call__ self tok txt).2
       = if StoppingCriteria.any_stop (StoppingCriteria.stop_sequence_criterias self) output
         then (true, Some FINISH_REASON_STOP_SEQUENCE) else (false, None).
Proof.
  intros Hlt Heos Hcs. eexists. split; [reflexivity|].
  unfold StoppingCriteria.__call__. cbn.
  destruct (Z.geb_spec (StoppingCriteria.current_tokens self + 1)
              (StoppingCriteria.max_new_tokens self)) as [Hge|_]; [lia|].
  replace (negb (StoppingCriteria.ignore_eos_token self)
           && (tok =? StoppingCriteria.eos_token_id self)) with false.
  2: { destruct Heos as [-> | Hne]; [reflexivity|].
       apply Z.eqb_neq in Hne. rewrite Hne. now rewrite andb_false_r. }
  destruct (StoppingCriteria.stop_sequence_criterias self) as [|c cs] eqn:E;
    [congruence|].
  destruct (StoppingCriteria.any_stop (c :: cs) _); cbn; split; reflexivity.
Qed.

Lemma suffix_of_suffixes {A : Type} (s b T : list A) :
  s `suffix_of` T -> b `suffix_of` T -> (length s <= length b)%nat -> s `suffix_of` b.
Proof.
  intros [k1 H1] [k2 H2] Hlen.
  assert (Hk : (length k2 <= length k1)%nat).
  { apply (f_equal length) in H1, H2. rewrite length_app in H1, H2. lia. }
  exists (drop (length k2) k1).
  assert (Hd : drop (length k2) T = b).
  { rewrite H2. rewrite drop_app_length. reflexivity. }
  rewrite <- Hd, H1. rewrite drop_app_le by assumption. reflexivity.
Qed.

Lemma buffer_of_suffix (s buffer T : list ascii) :
  buffer_of buffer T -> (length s <= 200)%nat ->
  s `suffix_of` buffer <-> s `suffix_of` T.
Proof.
  intros [Hsuf Hb] Hs. split.
  - intros H. etrans; eassumption.
  - intros H. destruct Hb as [-> | Hb]; [assumption|].
    eapply suffix_of_suffixes; eauto. lia.
Qed.

Lemma buffer_of_step (buffer T : list ascii) (txt : string) :
  buffer_of buffer T ->
  forall s : string,
    list_ascii_of_string s = buffer ++ list_ascii_of_string txt ->
    buffer_of
      (list_ascii_of_string
         (if (300 <? String.length s)%nat then str_suffix 200 s else s))
      (T ++ list_ascii_of_string txt).
Proof.
  intros [[k Hk] Hb] s Hs.
  assert (Hlen : String.length s = length (buffer ++ list_ascii_of_string txt)).
  { rewrite <- Hs. symmetry. apply length_list_ascii_of_string. }
  destruct (Nat.ltb_spec 300 (String.length s)) as [Hlong|Hshort].
  - rewrite list_ascii_of_str_suffix, Hs. split.
    + subst T. rewrite <- app_assoc. apply suffix_app_r. apply suffix_drop.
    + right. rewrite length_drop. lia.
  - rewrite Hs. split.
    + subst T. rewrite <- app_assoc. apply suffix_app_r. reflexivity.
    + destruct Hb as [-> | Hb]; [now left|right]. rewrite length_app. lia.
Qed.

Lemma ends_with_stop_buffer (stop : string) (buffer T : list ascii) :
  buffer_of buffer T -> (String.length stop < 200)%nat ->
  ends_with_stop stop buffer <-> ends_with_stop stop T.
Proof.
  intros Hb Hs. unfold ends_with_stop.
  rewrite (buffer_of_suffix (list_ascii_of_string stop) buffer T Hb)
    by (rewrite length_list_ascii_of_string; lia).
  rewrite (buffer_of_suffix (list_ascii_of_string stop ++ [Re.newline]) buffer T Hb)
    by (rewrite length_app, length_list_ascii_of_string; cbn; lia).
  reflexivity.
Qed.

Lemma stopping_run_text (stops : list string) (inputs : list (Z * string)) :
  stops <> [] ->
  Forall (fun stop => (String.length stop < 200)%nat) stops ->
  forall (self : StoppingCriteria.t) (T : list ascii),
    traverse StopSequenceCriteria.__init__ stops
    = Ok (StoppingCriteria.stop_sequence_criterias self) ->
    buffer_of (list_ascii_of_string (StoppingCriteria.current_output self)) T ->
    Forall (fun x => StoppingCriteria.ignore_eos_token self = true
                     \/ x.1 <> StoppingCriteria.eos_token_id self) inputs ->
    StoppingCriteria.current_tokens self + Z.of_nat (length inputs)
    < StoppingCriteria.max_new_tokens self ->
    forall (k : nat) (r : bool * option FinishReason),
      (StoppingCriteria.calls self inputs).2 !! k = Some r ->
      (r = (true, Some FINISH_REASON_STOP_SEQUENCE) \/ r = (false, None))
      /\ (r = (true, Some FINISH_REASON_STOP_SEQUENCE)
          <-> exists stop, stop ∈ stops
                /\ ends_with_stop stop (T ++ run_text (take (S k) inputs))).
Proof.
  intros Hne Hshort.
  induction inputs as [|[tok txt] inputs IH]; intros self T Hcs Hbuf Heos Hlt k r Hk.
  - cbn in Hk. discriminate.
  - rewrite calls_cons in Hk. cbn [fst snd] in Hk.
    inversion Heos as [|? ? Heos1 Heos']; subst.
    cbn [length] in Hlt.
    assert (Hcs' : StoppingCriteria.stop_sequence_criterias self <> []).
    { intros E. rewrite E in Hcs. destruct stops; [congruence|].
      cbn in Hcs. destruct (StopSequenceCriteria.__init__ s); cbn in Hcs;
        [|discriminate].
      destruct (traverse StopSequenceCriteria.__init__ stops); discriminate. }
    destruct (stopping_call_check self tok txt ltac:(lia) Heos1 Hcs')
      as (output & Hout & Hbuf' & Hres).
    pose proof (buffer_of_step _ T txt Hbuf
                  (StoppingCriteria.current_output self +:+ txt)
                  (list_ascii_of_string_app _ _)) as Hstep.
    rewrite <- Hout in Hstep.
    destruct k as [|k].
    + cbn in Hk. injection Hk as <-. rewrite Hres.
      cbn [take run_text map concat snd]. rewrite app_nil_r.
      pose proof (any_stop_stops stops _ output Hcs) as Hany.
      destruct (StoppingCriteria.any_stop _ output).
      * split; [now left|]. split; [intros _|reflexivity].
        destruct (proj1 Hany eq_refl) as (stop & Hin & Hend).
        exists stop. split; [assumption|].
        apply (ends_with_stop_buffer stop _ _ Hstep); [|assumption].
        exact (proj1 (Forall_forall _ _) Hshort stop Hin).
      * split; [now right|]. split; [discriminate|].
        intros (stop & Hin & Hend).
        assert (false = true); [|discriminate].
        apply Hany. exists stop. split; [assumption|].
        apply (ends_with_stop_buffer stop _ _ Hstep); [|assumption].
        exact (proj1 (Forall_forall _ _) Hshort stop Hin).
    + cbn [lookup list_lookup] in Hk.
      destruct (stopping_call_fields self tok txt) as (He & Hc & Hi).
      destruct (stopping_call_state self tok txt) as (Hct & Hmax).
      cbn zeta in He, Hc, Hi, Hct, Hmax.
      specialize (IH (StoppingCriteria.__call__ self tok txt).1
                    (T ++ list_ascii_of_string txt)).
      rewrite Hc, Hbuf', He, Hi, Hct, Hmax in IH.
      specialize (IH Hcs Hstep Heos' ltac:(lia) k r Hk).
      replace (T ++ run_text (take (S (S k)) ((tok, txt) :: inputs)))
        with ((T ++ list_ascii_of_string txt) ++ run_text (take (S k) inputs)).
      { exact IH. }
      rewrite <- app_assoc. reflexivity.
Qed.

(** X1. The construction of a stop sequence never fails, whatever the
    characters of the stop string, and the check it makes of a text is true
    exactly when the text ends with the stop string, or with the stop string
    and one final newline. *)
Theorem stop_sequence_criteria_meaning (stop : string) :
  exists c : StopSequenceCriteria.t,
    StopSequenceCriteria.__init__ stop = Ok c
    /\ forall output : string,
         StopSequenceCriteria.__call__ c output = true
         <-> ends_with_stop stop (list_ascii_of_string output).
Proof.
  eexists. split; [apply stop_sequence_init|].
  intros output. apply stop_sequence_call_iff. apply stop_sequence_init.
Qed.

(** X2. An empty stop string ends the generation at once: every call that
    is below the budget and not ended by the end-of-sequence token returns
    the stop sequence reason, whatever the text. *)
Theorem empty_stop_sequence_stops_every_call (stops : list string)
    (self : StoppingCriteria.t) (tok : Z) (txt : string) :
  traverse StopSequenceCriteria.__init__ stops
  = Ok (StoppingCriteria.stop_sequence_criterias self) ->
  ""%string ∈ stops ->
  StoppingCriteria.current_tokens self + 1 < StoppingCriteria.max_new_tokens self ->
  StoppingCriteria.ignore_eos_token self = true
  \/ tok <> StoppingCriteria.eos_token_id self ->
  (StoppingCriteria.__call__ self tok txt).2
  = (true, Some FINISH_REASON_STOP_SEQUENCE).
Proof.
  intros Hcs Hin Hlt Heos.
  assert (Hne : StoppingCriteria.stop_sequence_criterias self <> []).
  { intros E. rewrite E in Hcs. apply traverse_Forall2 in Hcs.
    inversion Hcs; subst. inversion Hin. }
  destruct (stopping_call_check self tok txt Hlt Heos Hne) as (output & _ & _ & ->).
  replace (StoppingCriteria.any_stop _ output) with true; [reflexivity|].
  symmetry. apply (any_stop_stops stops _ output Hcs).
  exists ""%string. split; [assumption|]. left. cbn. apply suffix_nil.
Qed.

Lemma empty_stop_sequence_stops_every_call_witness :
  (StoppingCriteria.__call__
     (StoppingCriteria.__init__ 2
        [{| StopSequenceCriteria.regex := [Re.AtEnd] |}] 10 false) 7 "hello").2
  = (true, Some FINISH_REASON_STOP_SEQUENCE).
Proof.
  apply (empty_stop_sequence_stops_every_call [""%string]).
  - reflexivity.
  - constructor.
  - cbn. lia.
  - right. cbn. lia.
Defined.

(** X3. The cut of the buffer loses no stop sequence of fewer than 200
    characters. For criteria made by [from_pb], in a run of calls below the
    budget that the end-of-sequence token does not end, a call returns the
    stop sequence reason exactly when the whole text handed over so far
    ends with one of the stop strings (or with it and one final newline),
    and it returns [(False, None)] otherwise. *)
Theorem stop_sequence_found_in_whole_text
    (pb : generate_pb2.StoppingCriteriaParameters) (eos : Z)
    (sc : StoppingCriteria.t) (inputs : list (Z * string)) :
  StoppingCriteria_from_pb pb eos = Ok sc ->
  generate_pb2.stop_sequences pb <> [] ->
  Forall (fun stop => (String.length stop < 200)%nat) (generate_pb2.stop_sequences pb) ->
  Forall (fun x => generate_pb2.ignore_eos_token pb = true \/ x.1 <> eos) inputs ->
  Z.of_nat (length inputs) < generate_pb2.max_new_tokens pb ->
  forall (k : nat) (r : bool * option FinishReason),
    (StoppingCriteria.calls sc inputs).2 !! k = Some r ->
    (r = (true, Some FINISH_REASON_STOP_SEQUENCE) \/ r = (false, None))
    /\ (r = (true, Some FINISH_REASON_STOP_SEQUENCE)
        <-> exists stop, stop ∈ generate_pb2.stop_sequences pb
              /\ ends_with_stop stop (run_text (take (S k) inputs))).
Proof.
  unfold StoppingCriteria_from_pb. intros Hpb Hne Hshort Heos Hlt k r Hk.
  destruct (traverse StopSequenceCriteria.__init__ (generate_pb2.stop_sequences pb))
    as [cs|] eqn:Hcs; cbn in Hpb; [|discriminate].
  injection Hpb as <-.
  apply (stopping_run_text (generate_pb2.stop_sequences pb) inputs Hne Hshort
           (StoppingCriteria.__init__ eos cs (generate_pb2.max_new_tokens pb)
              (generate_pb2.ignore_eos_token pb)) [] Hcs); try assumption.
  split; [reflexivity|now left].
Qed.

Lemma stop_sequence_found_in_whole_text_witness :
  ((true, Some FINISH_REASON_STOP_SEQUENCE) = (true, Some FINISH_REASON_STOP_SEQUENCE)
   \/ (true, Some FINISH_REASON_STOP_SEQUENCE) = (false, None))
  /\ ((true, Some FINISH_REASON_STOP_SEQUENCE) = (true, Some FINISH_REASON_STOP_SEQUENCE)
      <-> exists stop : string,
            stop ∈ ["bc"%string]
            /\ ends_with_stop stop
                 (run_text (take 2 [(1, "ab"%string); (3, "c"%string)]))).
Proof.
  apply (stop_sequence_found_in_whole_text
           {| generate_pb2.max_new_tokens := 5;
              generate_pb2.stop_sequences := ["bc"%string];
              generate_pb2.ignore_eos_token := false |} 0
           (StoppingCriteria.__init__ 0
              [{| StopSequenceCriteria.regex :=
                    [Re.Literal "b"; Re.Literal "c"; Re.AtEnd] |}] 5 false)
           [(1, "ab"%string); (3, "c"%string)]).
  - reflexivity.
  - discriminate.
  - repeat constructor.
  - repeat (constructor; [right; cbn; lia|]). constructor.
  - cbn. lia.
  - reflexivity.
Defined.

Lemma buffer_cut_bounded (s : string) :
  (String.length (if (300 <? String.length s)%nat then str_suffix 200 s else s)
   <= 300)%nat.
Proof.
  destruct (Nat.ltb_spec 300 (String.length s)) as [Hl|Hl]; [|exact Hl].
  rewrite <- length_list_ascii_of_string, list_ascii_of_str_suffix, length_drop,
    length_list_ascii_of_string. lia.
Qed.

Lemma stopping_call_buffer (self : StoppingCriteria.t) (tok : Z) (txt : string) :
  (String.length (StoppingCriteria.current_output self) <= 300)%nat ->
  (String.length (StoppingCriteria.current_output
                    (StoppingCriteria.__call__ self tok txt).1) <= 300)%nat.
Proof.
  intros Hlen. unfold StoppingCriteria.__call__. cbn.
  destruct (_ >=? _); [exact Hlen|].
  destruct (_ && _); [exact Hlen|].
  destruct (StoppingCriteria.stop_sequence_criterias self) eqn:E; [exact Hlen|].
  match goal with |- context [if StoppingCriteria.any_stop ?cs ?o then _ else _] =>
    destruct (StoppingCriteria.any_stop cs o) end; cbn; apply buffer_cut_bounded.
Qed.

(** X4. The buffer of the stop sequences stays bounded: after any run of
    calls on a new criteria object, with texts of any length, it holds at
    most 300 characters. *)
Theorem stopping_buffer_bounded (eos : Z) (crits : list StopSequenceCriteria.t)
    (N : Z) (ignore_eos : bool) (inputs : list (Z * string)) :
  (String.length
     (StoppingCriteria.current_output
        (StoppingCriteria.calls (StoppingCriteria.__init__ eos crits N ignore_eos)
           inputs).1) <= 300)%nat.
Proof.
  assert (H : forall self,
            (String.length (StoppingCriteria.current_output self) <= 300)%nat ->
            (String.length
               (StoppingCriteria.current_output
                  (StoppingCriteria.calls self inputs).1) <= 300)%nat).
  { induction inputs as [|[tok txt] inputs IH]; intros self Hlen; [exact Hlen|].
    rewrite calls_cons. cbn [fst snd]. apply IH. now apply stopping_call_buffer. }
  apply H. cbn. lia.
Qed.

Lemma stopping_call_stop (self : StoppingCriteria.t) (tok : Z) (txt : string) :
  (StoppingCriteria.__call__ self tok txt).2 = (true, Some FINISH_REASON_STOP_SEQUENCE) ->
  exists output : string,
    (String.length output <= 300)%nat
    /\ StoppingCriteria.any_stop (StoppingCriteria.stop_sequence_criterias self) output
       = true.
Proof.
  unfold StoppingCriteria.__call__. cbn.
  destruct (_ >=? _); [discriminate|].
  destruct (_ && _); [discriminate|].
  destruct (StoppingCriteria.stop_sequence_criterias self) eqn:E; [discriminate|].
  match goal with |- context [if StoppingCriteria.any_stop ?cs ?o then _ else _] =>
    destruct (StoppingCriteria.any_stop cs o) eqn:Hany; [|discriminate];
    intros _; exists o end.
  split; [|exact Hany]. apply buffer_cut_bounded.
Qed.

(** X5. A stop string of more than 300 characters is never found: the
    buffer that the stop sequences are tried on holds at most 300
    characters, so no call of any run returns the stop sequence reason when
    every stop string is that long. *)
Theorem long_stop_sequence_never_found (stops : list string)
    (self : StoppingCriteria.t) (inputs : list (Z * string))
    (r : bool * option FinishReason) :
  traverse StopSequenceCriteria.__init__ stops
  = Ok (StoppingCriteria.stop_sequence_criterias self) ->
  Forall (fun stop => (300 < String.length stop)%nat) stops ->
  r ∈ (StoppingCriteria.calls self inputs).2 ->
  r <> (true, Some FINISH_REASON_STOP_SEQUENCE).
Proof.
  intros Hcs Hlong. revert self Hcs.
  induction inputs as [|[tok txt] inputs IH]; intros self Hcs Hin.
  - inversion Hin.
  - rewrite calls_cons in Hin. cbn [fst snd] in Hin.
    apply elem_of_cons in Hin. destruct Hin as [-> | Hin].
    + intros Hstop. apply stopping_call_stop in Hstop.
      destruct Hstop as (output & Hlen & Hany).
      apply (any_stop_stops stops _ output Hcs) in Hany.
      destruct Hany as (stop & Hstop & Hend).
      pose proof (proj1 (Forall_forall _ _) Hlong stop Hstop) as Hl. cbn in Hl.
      assert (Hle : (String.length stop <= String.length output)%nat).
      { rewrite <- !length_list_ascii_of_string.
        destruct Hend as [H|H]; apply suffix_length in H;
          [exact H|rewrite length_app in H; lia]. }
      lia.
    + apply (IH (StoppingCriteria.__call__ self tok txt).1); [|exact Hin].
      destruct (stopping_call_fields self tok txt) as (_ & -> & _). exact Hcs.
Qed.

Lemma long_stop_sequence_never_found_witness :
  (false, None)
    ∈ (StoppingCriteria.calls
         (StoppingCriteria.__init__ 0
            [{| StopSequenceCriteria.regex :=
                  map Re.Literal (replicate 301 "a"%char) ++ [Re.AtEnd] |}] 5 false)
         [(1, "a"%string)]).2
  /\ (false, None) <> (true, Some FINISH_REASON_STOP_SEQUENCE).
Proof.
  assert (Hin : (false, None)
                  ∈ (StoppingCriteria.calls
                       (StoppingCriteria.__init__ 0
                          [{| StopSequenceCriteria.regex :=
                                map Re.Literal (replicate 301 "a"%char) ++ [Re.AtEnd] |}]
                          5 false)
                       [(1, "a"%string)]).2).
  { vm_compute. constructor. }
  split; [exact Hin|].
  apply (long_stop_sequence_never_found
           [string_of_list_ascii (replicate 301 "a"%char)]
           (StoppingCriteria.__init__ 0
              [{| StopSequenceCriteria.regex :=
                    map Re.Literal (replicate 301 "a"%char) ++ [Re.AtEnd] |}] 5 false)
           [(1, "a"%string)]).
  - vm_compute. reflexivity.
  - constructor; [|constructor]. apply Nat.ltb_lt. vm_compute. reflexivity.
  - exact Hin.
Defined.

(** X6. With [ignore_eos_token] set, no call of any run ends on the
    end-of-sequence token, whatever the tokens. *)
Theorem ignore_eos_token_never_eos (self : StoppingCriteria.t)
    (inputs : list (Z * string)) (r : bool * option FinishReason) :
  StoppingCriteria.ignore_eos_token self = true ->
  r ∈ (StoppingCriteria.calls self inputs).2 ->
  r <> (true, Some FINISH_REASON_EOS_TOKEN).
Proof.
  revert self. induction inputs as [|[tok txt] inputs IH]; intros self Hig Hin.
  - inversion Hin.
  - rewrite calls_cons in Hin. cbn [fst snd] in Hin.
    apply elem_of_cons in Hin. destruct Hin as [-> | Hin].
    + unfold StoppingCriteria.__call__. cbn. rewrite Hig. cbn.
      destruct (_ >=? _); [discriminate|].
      destruct (StoppingCriteria.stop_sequence_criterias self) eqn:E; [discriminate|].
      match goal with |- context [if ?b then _ else _] => destruct b end; discriminate.
    + apply (IH (StoppingCriteria.__call__ self tok txt).1); [|exact Hin].
      destruct (stopping_call_fields self tok txt) as (_ & _ & ->). exact Hig.
Qed.

Lemma ignore_eos_token_never_eos_witness :
  (false, None)
    ∈ (StoppingCriteria.calls (StoppingCriteria.__init__ 2 [] 5 true)
         [(2, "a"%string)]).2
  /\ (false, None) <> (true, Some FINISH_REASON_EOS_TOKEN).
Proof.
  assert (Hin : (false, None)
                  ∈ (StoppingCriteria.calls (StoppingCriteria.__init__ 2 [] 5 true)
                       [(2, "a"%string)]).2).
  { vm_compute. constructor. }
  split; [exact Hin|].
  apply (ignore_eos_token_never_eos (StoppingCriteria.__init__ 2 [] 5 true)
           [(2, "a"%string)] (false, None) eq_refl Hin).
Defined.

Lemma stopping_run_plain (inputs : list (Z * string)) :
  forall (self : StoppingCriteria.t) (c0 : Z) (a : nat),
    StoppingCriteria.stop_sequence_criterias self = [] ->
    StoppingCriteria.current_tokens self = c0 + Z.of_nat a ->
    (StoppingCriteria.calls self inputs).2
    = map (fun '(k, x) =>
             if StoppingCriteria.max_new_tokens self <=? c0 + Z.of_nat k + 1
             then (true, Some FINISH_REASON_LENGTH)
             else if negb (StoppingCriteria.ignore_eos_token self)
                     && (x.1 =? StoppingCriteria.eos_token_id self)
                  then (true, Some FINISH_REASON_EOS_TOKEN)
                  else (false, None))
        (zip (seq a (length inputs)) inputs)
    /\ StoppingCriteria.current_output (StoppingCriteria.calls self inputs).1
       = StoppingCriteria.current_output self.
Proof.
  induction inputs as [|[tok txt] inputs IH]; intros self c0 a Hcs Hct.
  - split; reflexivity.
  - rewrite calls_cons. cbn [fst snd length seq zip zip_with map].
    destruct (stopping_call_fields self tok txt) as (He & Hc & Hi).
    destruct (stopping_call_state self tok txt) as (Hct' & Hmax).
    cbn zeta in He, Hc, Hi, Hct', Hmax.
    destruct (IH (StoppingCriteria.__call__ self tok txt).1 c0 (S a)) as [IH1 IH2].
    { now rewrite Hc. }
    { rewrite Hct', Hct. lia. }
    rewrite IH1, IH2, He, Hi, Hmax.
    assert (Hcall : (StoppingCriteria.__call__ self tok txt).2
                    = (if StoppingCriteria.max_new_tokens self <=? c0 + Z.of_nat a + 1
                       then (true, Some FINISH_REASON_LENGTH)
                       else if negb (StoppingCriteria.ignore_eos_token self)
                               && (tok =? StoppingCriteria.eos_token_id self)
                            then (true, Some FINISH_REASON_EOS_TOKEN)
                            else (false, None))
                      /\ StoppingCriteria.current_output
                           (StoppingCriteria.__call__ self tok txt).1
                         = StoppingCriteria.current_output self).
    { unfold StoppingCriteria.__call__. cbn. rewrite Hcs, Hct.
      rewrite Z.geb_leb.
      destruct (_ <=? _); [split; reflexivity|].
      destruct (_ && _); split; reflexivity. }
    destruct Hcall as [-> ->]. split; reflexivity.
Qed.

(** X7. Without stop sequences the texts play no part: call number [k + 1]
    on a new criteria object returns the length reason when [k + 1] has
    reached the budget, else the end-of-sequence reason when the token is
    the end-of-sequence token and it is not ignored, else [(False, None)];
    the buffer stays empty. *)
Theorem stopping_run_without_stop_sequences (eos N : Z) (ignore_eos : bool)
    (inputs : list (Z * string)) :
  (StoppingCriteria.calls (StoppingCriteria.__init__ eos [] N ignore_eos) inputs).2
  = map (fun '(k, x) =>
           if N <=? Z.of_nat k + 1 then (true, Some FINISH_REASON_LENGTH)
           else if negb ignore_eos && (x.1 =? eos)
                then (true, Some FINISH_REASON_EOS_TOKEN)
                else (false, None))
      (enumerate inputs)
  /\ StoppingCriteria.current_output
       (StoppingCriteria.calls (StoppingCriteria.__init__ eos [] N ignore_eos) inputs).1
     = ""%string.
Proof.
  exact (stopping_run_plain inputs (StoppingCriteria.__init__ eos [] N ignore_eos)
           0 0%nat eq_refl eq_refl).
Qed.

(** X8. The budget is final: from call number [max_new_tokens] on, every
    call on a criteria object returns the length reason, whatever the token
    and the text (the counter goes on counting). *)
Theorem stopping_length_is_final (eos : Z) (crits : list StopSequenceCriteria.t)
    (N : Z) (ignore_eos : bool) (inputs : list (Z * string)) (k : nat) :
  N <= Z.of_nat k + 1 ->
  (k < length inputs)%nat ->
  (StoppingCriteria.calls (StoppingCriteria.__init__ eos crits N ignore_eos) inputs).2
    !! k = Some (true, Some FINISH_REASON_LENGTH).
Proof.
  intros HN Hk.
  destruct (lookup_lt_is_Some_2
              (StoppingCriteria.calls
                 (StoppingCriteria.__init__ eos crits N ignore_eos) inputs).2 k)
    as [r Hr].
  { now rewrite stopping_calls_length. }
  rewrite Hr. f_equal.
  apply (stopping_calls_lookup inputs _ k r Hr). cbn. lia.
Qed.

Lemma stopping_length_is_final_witness :
  (StoppingCriteria.calls (StoppingCriteria.__init__ 2 [] 2 false)
     [(5, "a"); (6, "b"); (7, "c")]%string).2 !! 2%nat
  = Some (true, Some FINISH_REASON_LENGTH).
Proof.
  apply (stopping_length_is_final 2 [] 2 false
           [(5, "a"); (6, "b"); (7, "c")]%string 2%nat).
  - cbn. lia.
  - cbn. lia.
Defined.

(** X9. [StoppingCriteria.from_pb] never fails: whatever the stop strings
    of the message, it returns a new criteria object (counter 0, empty
    buffer) with the budget and the flag of the message and one stop
    sequence for each stop string, in their order. *)
Theorem stopping_criteria_from_pb_total
    (pb : generate_pb2.StoppingCriteriaParameters) (eos : Z) :
  exists crits : list StopSequenceCriteria.t,
    StoppingCriteria_from_pb pb eos
    = Ok (StoppingCriteria.__init__ eos crits (generate_pb2.max_new_tokens pb)
            (generate_pb2.ignore_eos_token pb))
    /\ Forall2
         (fun stop c =>
            forall output : string,
              StopSequenceCriteria.__call__ c output = true
              <-> ends_with_stop stop (list_ascii_of_string output))
         (generate_pb2.stop_sequences pb) crits.
Proof.
  unfold StoppingCriteria_from_pb.
  assert (H : exists crits,
            traverse StopSequenceCriteria.__init__ (generate_pb2.stop_sequences pb)
            = Ok crits).
  { induction (generate_pb2.stop_sequences pb) as [|stop stops [crits IH]].
    - now exists [].
    - eexists. cbn. rewrite stop_sequence_init, IH. reflexivity. }
  destruct H as [crits Hcs]. exists crits. rewrite Hcs. split; [reflexivity|].
  apply traverse_Forall2 in Hcs.
  induction Hcs as [|stop c stops cs Hc _ IH]; constructor; [|exact IH].
  intros output. exact (stop_sequence_call_iff stop output c Hc).
Qed.

(** ** The validation and the n-gram speculation together *)

Lemma common_prefix_length_full (a b : list Z) :
  length a = length b ->
  common_prefix_length a b = length a <-> a = b.
Proof.
  revert b. induction a as [|x a IH]; intros [|y b] Hlen; try discriminate.
  - split; reflexivity.
  - cbn in Hlen. injection Hlen as Hlen. cbn [common_prefix_length length].
    destruct (Z.eqb_spec x y) as [->|Hne].
    + split.
      * intros [= H]. f_equal. now apply (IH b Hlen).
      * intros [= H]. f_equal. now apply (IH b Hlen).
    + split; [discriminate|]. intros [= H _]. contradiction.
Qed.

Lemma matching_run_le (S : nat) (next_ids : list Z) (speculated_ids : list (list Z))
    (i : nat) :
  (matching_run S next_ids speculated_ids i <= length (speculated_ids !!! i))%nat.
Proof. apply common_prefix_length_le. Qed.

(** The validation on well-shaped arguments: [B] sequences of [S] chosen
    ids each, and at least [B] rows of [S - 1] speculated ids. *)
Lemma speculative_validation_run (next_ids : list Z) (speculated_ids : list (list Z)) :
  Forall (fun row => length row = shape1 speculated_ids) speculated_ids ->
  (length next_ids / (shape1 speculated_ids + 1) <= length speculated_ids)%nat ->
  HeterogeneousNextTokenChooser.speculative_validation next_ids speculated_ids
  = Ok (concat (map (kept_ids (shape1 speculated_ids + 1) next_ids speculated_ids)
                  (seq 0 (length next_ids / (shape1 speculated_ids + 1)))),
        map (fun i => 1 + Z.of_nat (matching_run (shape1 speculated_ids + 1)
                                      next_ids speculated_ids i))
          (seq 0 (length next_ids / (shape1 speculated_ids + 1))),
        concat (map (fun i => map (fun k => (i * (shape1 speculated_ids + 1) + k)%nat)
                      (seq 0 (1 + matching_run (shape1 speculated_ids + 1)
                                    next_ids speculated_ids i)))
                  (seq 0 (length next_ids / (shape1 speculated_ids + 1))))).
Proof.
  intros Hrows HB.
  unfold HeterogeneousNextTokenChooser.speculative_validation.
  set (S := (shape1 speculated_ids + 1)%nat) in *.
  set (B := (length next_ids / S)%nat) in *.
  assert (HBS : (B * S <= length next_ids)%nat).
  { subst B. rewrite Nat.mul_comm. apply Nat.Div0.mul_div_le. }
  assert (Hrange : Forall (fun i => (i < length speculated_ids)%nat
                     /\ ((i + 1) * S <= length next_ids)%nat
                     /\ length (speculated_ids !!! i) = (S - 1)%nat) (seq 0 B)).
  { apply Forall_forall. intros i Hi. apply elem_of_seq in Hi.
    split; [lia|]. split; [nia|].
    destruct (lookup_lt_is_Some_2 speculated_ids i ltac:(lia)) as [row Hrow].
    rewrite (list_lookup_total_correct _ _ _ Hrow).
    pose proof (proj1 (Forall_forall _ _) Hrows row
                  (list_elem_of_lookup_2 _ _ _ Hrow)) as Hl.
    cbn in Hl. subst S. lia. }
  rewrite (validate_loop_ok S next_ids speculated_ids (seq 0 B) ([], []) Hrange).
  cbn [fst snd app mbind result_bind].
  rewrite (list_index_chosen S next_ids
             (fun i => matching_run S next_ids speculated_ids i) (seq 0 B)).
  - reflexivity.
  - apply Forall_forall. intros i Hi.
    pose proof (proj1 (Forall_forall _ _) Hrange i Hi) as (_ & H2 & H3).
    split; [exact H2|]. pose proof (matching_run_le S next_ids speculated_ids i). lia.
Qed.

Lemma kept_ids_length (S : nat) (next_ids : list Z) (speculated_ids : list (list Z))
    (i : nat) :
  ((i + 1) * S <= length next_ids)%nat ->
  length (speculated_ids !!! i) = (S - 1)%nat -> (0 < S)%nat ->
  length (kept_ids S next_ids speculated_ids i)
  = (1 + matching_run S next_ids speculated_ids i)%nat.
Proof.
  intros H1 H2 H3. unfold kept_ids. rewrite length_take, chosen_ids_length by exact H1.
  pose proof (matching_run_le S next_ids speculated_ids i). lia.
Qed.

Lemma sum_Z_lengths {A : Type} (ls : list (list A)) :
  Z.of_nat (length (concat ls)) = sum_Z (map (fun l => Z.of_nat (length l)) ls).
Proof.
  induction ls as [|l ls IH]; [reflexivity|].
  cbn [concat map sum_Z foldr]. rewrite length_app, Nat2Z.inj_add. unfold sum_Z in IH.
  now rewrite IH.
Qed.

(** X10. In a validation of [B] sequences of [S] chosen ids against at
    least [B] rows of [S - 1] speculated ids, there is one accepted count for
    each sequence, every count is between 1 and [S], and the number of ids
    kept, which is also the number of positions kept, is the sum of the
    counts. *)
Theorem speculative_validation_counts (next_ids : list Z)
    (speculated_ids : list (list Z)) :
  Forall (fun row => length row = shape1 speculated_ids) speculated_ids ->
  (length next_ids / (shape1 speculated_ids + 1) <= length speculated_ids)%nat ->
  exists (out accepted_ids : list Z) (indices : list nat),
    HeterogeneousNextTokenChooser.speculative_validation next_ids speculated_ids
    = Ok (out, accepted_ids, indices)
    /\ length accepted_ids = (length next_ids / (shape1 speculated_ids + 1))%nat
    /\ Forall (fun a => 1 <= a <= Z.of_nat (shape1 speculated_ids + 1)) accepted_ids
    /\ Z.of_nat (length out) = sum_Z accepted_ids
    /\ length indices = length out.
Proof.
  intros Hrows HB.
  rewrite (speculative_validation_run next_ids speculated_ids Hrows HB).
  set (S := (shape1 speculated_ids + 1)%nat) in *.
  set (B := (length next_ids / S)%nat) in *.
  assert (HBS : (B * S <= length next_ids)%nat).
  { subst B. rewrite Nat.mul_comm. apply Nat.Div0.mul_div_le. }
  assert (Hrow : forall i, (i < B)%nat -> length (speculated_ids !!! i) = (S - 1)%nat).
  { intros i Hi.
    destruct (lookup_lt_is_Some_2 speculated_ids i ltac:(lia)) as [row Hr].
    rewrite (list_lookup_total_correct _ _ _ Hr).
    pose proof (proj1 (Forall_forall _ _) Hrows row
                  (list_elem_of_lookup_2 _ _ _ Hr)) as Hl.
    cbn in Hl. subst S. lia. }
  do 3 eexists. split; [reflexivity|].
  split; [now rewrite length_map, length_seq|].
  split.
  { apply Forall_forall. intros a Ha. apply list_elem_of_fmap in Ha.
    destruct Ha as (i & -> & Hi). apply elem_of_seq in Hi.
    pose proof (matching_run_le S next_ids speculated_ids i) as Hle.
    rewrite Hrow in Hle by lia. subst S. lia. }
  assert (Hlens : map (fun l => Z.of_nat (length l))
                    (map (kept_ids S next_ids speculated_ids) (seq 0 B))
                  = map (fun i => 1 + Z.of_nat (matching_run S next_ids speculated_ids i))
                      (seq 0 B)).
  { rewrite map_map. apply map_ext_in. intros i Hi. apply in_seq in Hi.
    rewrite kept_ids_length; [lia|nia|apply Hrow; lia|subst S; lia]. }
  split.
  - rewrite sum_Z_lengths, Hlens. reflexivity.
  - apply Nat2Z.inj. rewrite !sum_Z_lengths, Hlens. f_equal.
    rewrite map_map. apply map_ext. intros i. rewrite length_map, length_seq. lia.
Qed.

Lemma speculative_validation_counts_witness :
  exists (out accepted_ids : list Z) (indices : list nat),
    HeterogeneousNextTokenChooser.speculative_validation
      [7; 8; 4; 1; 2; 3] [[7; 8]; [0; 2]]
    = Ok (out, accepted_ids, indices)
    /\ length accepted_ids = (length [7; 8; 4; 1; 2; 3]
                              / (shape1 [[7; 8]; [0; 2]] + 1))%nat
    /\ Forall (fun a => 1 <= a <= Z.of_nat (shape1 [[7; 8]; [0; 2]] + 1)) accepted_ids
    /\ Z.of_nat (length out) = sum_Z accepted_ids
    /\ length indices = length out.
Proof.
  apply (speculative_validation_counts [7; 8; 4; 1; 2; 3] [[7; 8]; [0; 2]]).
  - repeat constructor.
  - cbn. lia.
Defined.

(** X11. A sequence has all its [S] chosen ids accepted exactly when its
    speculated ids are the chosen ids but the last one. *)
Theorem speculative_validation_accepts_all_iff (next_ids : list Z)
    (speculated_ids : list (list Z)) (i : nat) (proposed : list Z) :
  Forall (fun row => length row = shape1 speculated_ids) speculated_ids ->
  (length next_ids / (shape1 speculated_ids + 1) <= length speculated_ids)%nat ->
  (i < length next_ids / (shape1 speculated_ids + 1))%nat ->
  speculated_ids !! i = Some proposed ->
  exists (out accepted_ids : list Z) (indices : list nat),
    HeterogeneousNextTokenChooser.speculative_validation next_ids speculated_ids
    = Ok (out, accepted_ids, indices)
    /\ (accepted_ids !! i = Some (Z.of_nat (shape1 speculated_ids + 1))
        <-> proposed = but_last (chosen_ids (shape1 speculated_ids + 1) next_ids i)).
Proof.
  intros Hrows HB Hi Hp.
  rewrite (speculative_validation_run next_ids speculated_ids Hrows HB).
  set (S := (shape1 speculated_ids + 1)%nat) in *.
  set (B := (length next_ids / S)%nat) in *.
  assert (HBS : (B * S <= length next_ids)%nat).
  { subst B. rewrite Nat.mul_comm. apply Nat.Div0.mul_div_le. }
  do 3 eexists. split; [reflexivity|].
  rewrite list_lookup_fmap, lookup_seq_lt by exact Hi. cbn [fmap option_fmap option_map].
  change (0 + i)%nat with i. unfold matching_run. rewrite (list_lookup_total_correct _ _ _ Hp).
  assert (Hl : length proposed = shape1 speculated_ids).
  { exact (proj1 (Forall_forall _ _) Hrows proposed (list_elem_of_lookup_2 _ _ _ Hp)). }
  assert (Hb : length (but_last (chosen_ids S next_ids i)) = length proposed).
  { unfold but_last. rewrite length_take, chosen_ids_length by nia. subst S. lia. }
  rewrite <- (common_prefix_length_full proposed _ (eq_sym Hb)).
  split.
  - intros [= H]. subst S. lia.
  - intros H. rewrite H. f_equal. subst S. lia.
Qed.

Lemma speculative_validation_accepts_all_iff_witness :
  exists (out accepted_ids : list Z) (indices : list nat),
    HeterogeneousNextTokenChooser.speculative_validation
      [7; 8; 4; 1; 2; 3] [[7; 8]; [0; 2]]
    = Ok (out, accepted_ids, indices)
    /\ (accepted_ids !! 0%nat = Some (Z.of_nat (shape1 [[7; 8]; [0; 2]] + 1))
        <-> [7; 8] = but_last (chosen_ids (shape1 [[7; 8]; [0; 2]] + 1)
                                 [7; 8; 4; 1; 2; 3] 0)).
Proof.
  apply (speculative_validation_accepts_all_iff [7; 8; 4; 1; 2; 3] [[7; 8]; [0; 2]]
           0 [7; 8]).
  - repeat constructor.
  - cbn. lia.
  - cbn. lia.
  - reflexivity.
Defined.

Lemma validate_loop_app (S : nat) (next_ids : list Z) (speculated_ids : list (list Z))
    (l1 l2 : list nat) (st : list Z * list nat) :
  HeterogeneousNextTokenChooser.validate_loop S next_ids speculated_ids st (l1 ++ l2)
  = st' ← HeterogeneousNextTokenChooser.validate_loop S next_ids speculated_ids st l1;
    HeterogeneousNextTokenChooser.validate_loop S next_ids speculated_ids st' l2.
Proof.
  revert st. induction l1 as [|i l1 IH]; intros st; [reflexivity|].
  cbn [app HeterogeneousNextTokenChooser.validate_loop].
  destruct (HeterogeneousNextTokenChooser.validate_sequence S next_ids speculated_ids
              st i) as [st1|e]; cbn [mbind result_bind]; [apply IH|reflexivity].
Qed.

(** X12. With fewer rows of speculated ids than sequences in the chosen
    ids, the validation raises [IndexError] at the first sequence that has
    no row. *)
Theorem speculative_validation_too_few_rows (next_ids : list Z)
    (speculated_ids : list (list Z)) :
  speculated_ids <> [] ->
  Forall (fun row => length row = shape1 speculated_ids) speculated_ids ->
  (length speculated_ids < length next_ids / (shape1 speculated_ids + 1))%nat ->
  HeterogeneousNextTokenChooser.speculative_validation next_ids speculated_ids
  = Raise IndexError.
Proof.
  intros _ Hrows HB.
  unfold HeterogeneousNextTokenChooser.speculative_validation.
  set (S := (shape1 speculated_ids + 1)%nat) in *.
  set (B := (length next_ids / S)%nat) in *.
  set (R := length speculated_ids) in *.
  assert (HBS : (B * S <= length next_ids)%nat).
  { subst B. rewrite Nat.mul_comm. apply Nat.Div0.mul_div_le. }
  assert (Hseq : seq 0 B = seq 0 R ++ R :: seq (Datatypes.S R) (B - Datatypes.S R)).
  { transitivity (seq 0 (R + Datatypes.S (B - Datatypes.S R))); [f_equal; lia|].
    rewrite seq_app. reflexivity. }
  rewrite Hseq, validate_loop_app.
  rewrite (validate_loop_ok S next_ids speculated_ids (seq 0 R) ([], [])).
  - cbn [mbind result_bind HeterogeneousNextTokenChooser.validate_loop].
    unfold HeterogeneousNextTokenChooser.validate_sequence at 1.
    cbn [fst snd app]. unfold getitem.
    rewrite (lookup_ge_None_2 speculated_ids R) by (subst R; lia). reflexivity.
  - apply Forall_forall. intros i Hi. apply elem_of_seq in Hi.
    split; [lia|]. split; [nia|].
    destruct (lookup_lt_is_Some_2 speculated_ids i ltac:(lia)) as [row Hrow].
    rewrite (list_lookup_total_correct _ _ _ Hrow).
    pose proof (proj1 (Forall_forall _ _) Hrows row
                  (list_elem_of_lookup_2 _ _ _ Hrow)) as Hl.
    cbn in Hl. subst S. lia.
Qed.

Lemma speculative_validation_too_few_rows_witness :
  HeterogeneousNextTokenChooser.speculative_validation [7; 8; 4; 1; 2; 3] [[7; 8]]
  = Raise IndexError.
Proof.
  apply (speculative_validation_too_few_rows [7; 8; 4; 1; 2; 3] [[7; 8]]).
  - discriminate.
  - repeat constructor.
  - cbn. lia.
Defined.

(** The n-gram speculation on well-shaped arguments, sequence by sequence. *)
Lemma n_gram_run (input_ids kept : list (list Z)) (speculate : Z) (verbose : bool) :
  length input_ids = length kept ->
  Forall (fun row => length row = shape1 input_ids) input_ids ->
  Forall (fun row => row <> []) input_ids ->
  Forall (fun k => k <> []) kept ->
  0 <= speculate ->
  create_n_gram_speculation input_ids (concat kept)
    (map (fun k => Z.of_nat (length k)) kept) speculate verbose
  = Ok (zip_with
          (fun row k => n_gram_after_first row (default 0 (last k)) (Z.to_nat speculate))
          input_ids kept).
Proof.
  intros Hlen Hrows Hne Hkept Hspec. unfold create_n_gram_speculation, cumsum.
  pose proof (n_gram_seeds kept [] Hkept) as Hseeds.
  change (Z.of_nat (length (@nil Z))) with 0 in Hseeds. cbn [app] in Hseeds.
  rewrite Hseeds. cbn [mbind result_bind].
  unfold eq_unsqueeze. rewrite length_map, Hlen, Nat.eqb_refl. cbn [mbind result_bind].
  unfold arange. destruct (Z.ltb_spec speculate 0); [lia|].
  destruct input_ids as [|row0 input_ids].
  - destruct kept; [reflexivity|discriminate].
  - assert (HL : (0 < shape1 (row0 :: input_ids))%nat).
    { apply Forall_cons in Hne. destruct Hne as [H0 _].
      cbn. destruct row0; [contradiction|cbn; lia]. }
    destruct (n_gram_rows (shape1 (row0 :: input_ids)) (Z.to_nat speculate)
                (row0 :: input_ids) (map (fun k => default 0 (last k)) kept)
                HL Hrows) as (firsts & H1 & H2); [now rewrite length_map|].
    rewrite H1. cbn [mbind result_bind]. rewrite H2.
    f_equal. apply zip_with_fmap_r.
Qed.

Lemma following_from_row (row : list Z) (start speculate : nat) :
  row <> [] ->
  length (following row start speculate) = speculate
  /\ following row start speculate ⊆ row.
Proof.
  intros Hne. unfold following. split; [now rewrite length_map, length_seq|].
  intros x Hx. apply list_elem_of_fmap in Hx. destruct Hx as (j & -> & _).
  apply list_elem_of_lookup_total_2.
  destruct row; [contradiction|cbn [length]; lia].
Qed.

(** X13. The n-gram speculation proposes [speculate] ids for every
    sequence, and every id it proposes is an id of the history of that
    sequence. *)
Theorem n_gram_speculation_from_history (input_ids kept : list (list Z))
    (speculate : Z) (verbose : bool) :
  length input_ids = length kept ->
  Forall (fun row => length row = shape1 input_ids) input_ids ->
  Forall (fun row => row <> []) input_ids ->
  Forall (fun k => k <> []) kept ->
  0 <= speculate ->
  exists speculative_ids : list (list Z),
    create_n_gram_speculation input_ids (concat kept)
      (map (fun k => Z.of_nat (length k)) kept) speculate verbose
    = Ok speculative_ids
    /\ Forall2 (fun row proposal =>
                  length proposal = Z.to_nat speculate /\ proposal ⊆ row)
         input_ids speculative_ids.
Proof.
  intros Hlen Hrows Hne Hkept Hspec.
  rewrite (n_gram_run input_ids kept speculate verbose Hlen Hrows Hne Hkept Hspec).
  eexists. split; [reflexivity|].
  clear Hrows Hkept. revert kept Hlen.
  induction Hne as [|row input_ids Hrow Hne IH]; intros [|k kept] Hlen;
    try discriminate; cbn [zip_with]; constructor.
  - unfold n_gram_after_first. now apply following_from_row.
  - apply IH. now injection Hlen.
Qed.

Lemma n_gram_speculation_from_history_witness :
  exists speculative_ids : list (list Z),
    create_n_gram_speculation [[1; 2; 3; 4]; [5; 6; 7; 6]] (concat [[9; 3]; [6]])
      (map (fun k => Z.of_nat (length k)) [[9; 3]; [6]]) 3 false
    = Ok speculative_ids
    /\ Forall2 (fun row proposal =>
                  length proposal = Z.to_nat 3 /\ proposal ⊆ row)
         [[1; 2; 3; 4]; [5; 6; 7; 6]] speculative_ids.
Proof.
  apply (n_gram_speculation_from_history [[1; 2; 3; 4]; [5; 6; 7; 6]] [[9; 3]; [6]]
           3 false).
  - reflexivity.
  - repeat constructor.
  - repeat constructor; discriminate.
  - repeat constructor; discriminate.
  - lia.
Defined.

Lemma kept_ids_lengths (next_ids : list Z) (speculated_ids : list (list Z)) (B : nat) :
  Forall (fun row => length row = shape1 speculated_ids) speculated_ids ->
  (B <= length speculated_ids)%nat ->
  (B * (shape1 speculated_ids + 1) <= length next_ids)%nat ->
  map (fun k => Z.of_nat (length k))
    (map (kept_ids (shape1 speculated_ids + 1) next_ids speculated_ids) (seq 0 B))
  = map (fun i => 1 + Z.of_nat (matching_run (shape1 speculated_ids + 1)
                                  next_ids speculated_ids i)) (seq 0 B)
  /\ Forall (fun k => k <> [])
       (map (kept_ids (shape1 speculated_ids + 1) next_ids speculated_ids) (seq 0 B)).
Proof.
  intros Hrows HB HBS.
  assert (Hlen : forall i, (i < B)%nat ->
            length (kept_ids (shape1 speculated_ids + 1) next_ids speculated_ids i)
            = (1 + matching_run (shape1 speculated_ids + 1) next_ids speculated_ids i)%nat).
  { intros i Hi. apply kept_ids_length; [nia| |lia].
    destruct (lookup_lt_is_Some_2 speculated_ids i ltac:(lia)) as [row Hr].
    rewrite (list_lookup_total_correct _ _ _ Hr).
    pose proof (proj1 (Forall_forall _ _) Hrows row
                  (list_elem_of_lookup_2 _ _ _ Hr)) as Hl.
    cbn in Hl. lia. }
  split.
  - rewrite map_map. apply map_ext_in. intros i Hi. apply in_seq in Hi.
    rewrite Hlen by lia. lia.
  - apply Forall_forall. intros k Hk. apply list_elem_of_fmap in Hk.
    destruct Hk as (i & -> & Hi). apply elem_of_seq in Hi.
    intros E. apply (f_equal length) in E. rewrite Hlen in E by lia. discriminate.
Qed.

(** X14. The validation and the n-gram speculation, one after the other as
    in a step: the accepted counts lead the speculation to the last id kept
    for each sequence, and the ids proposed for a sequence are those that
    follow the first occurrence of that id in the history of the sequence. *)
Theorem n_gram_after_validation (input_ids : list (list Z)) (next_ids : list Z)
    (speculated_ids : list (list Z)) (speculate : Z) (verbose : bool) :
  Forall (fun row => length row = shape1 speculated_ids) speculated_ids ->
  length next_ids = (length speculated_ids * (shape1 speculated_ids + 1))%nat ->
  length input_ids = length speculated_ids ->
  Forall (fun row => length row = shape1 input_ids) input_ids ->
  Forall (fun row => row <> []) input_ids ->
  0 <= speculate ->
  exists (out accepted_ids : list Z) (indices : list nat),
    HeterogeneousNextTokenChooser.speculative_validation next_ids speculated_ids
    = Ok (out, accepted_ids, indices)
    /\ create_n_gram_speculation input_ids out accepted_ids speculate verbose
       = Ok (zip_with
               (fun row k =>
                  n_gram_after_first row (default 0 (last k)) (Z.to_nat speculate))
               input_ids
               (map (kept_ids (shape1 speculated_ids + 1) next_ids speculated_ids)
                  (seq 0 (length speculated_ids)))).
Proof.
  intros Hrows Hlen Hin Hrect Hne Hspec.
  assert (HB : (length next_ids / (shape1 speculated_ids + 1))%nat
               = length speculated_ids).
  { rewrite Hlen. apply Nat.div_mul. lia. }
  rewrite (speculative_validation_run next_ids speculated_ids Hrows) by lia.
  rewrite HB. do 3 eexists. split; [reflexivity|].
  destruct (kept_ids_lengths next_ids speculated_ids (length speculated_ids) Hrows)
    as [Hl Hk]; [lia|lia|].
  rewrite <- Hl. apply n_gram_run; try assumption.
  now rewrite length_map, length_seq.
Qed.

Lemma n_gram_after_validation_witness :
  exists (out accepted_ids : list Z) (indices : list nat),
    HeterogeneousNextTokenChooser.speculative_validation
      [7; 8; 4; 1; 2; 3] [[7; 8]; [0; 2]]
    = Ok (out, accepted_ids, indices)
    /\ create_n_gram_speculation [[5; 4; 6; 4]; [1; 9; 9; 9]] out accepted_ids 2 false
       = Ok (zip_with
               (fun row k => n_gram_after_first row (default 0 (last k)) (Z.to_nat 2))
               [[5; 4; 6; 4]; [1; 9; 9; 9]]
               (map (kept_ids (shape1 [[7; 8]; [0; 2]] + 1) [7; 8; 4; 1; 2; 3]
                       [[7; 8]; [0; 2]])
                  (seq 0 (length [[7; 8]; [0; 2]])))).
Proof.
  apply (n_gram_after_validation [[5; 4; 6; 4]; [1; 9; 9; 9]] [7; 8; 4; 1; 2; 3]
           [[7; 8]; [0; 2]] 2 false).
  - repeat constructor.
  - reflexivity.
  - reflexivity.
  - repeat constructor.
  - repeat constructor; discriminate.
  - lia.
Defined.

(** ** The greedy selection *)

Lemma float_ltb_leb (x y : float) :
  is_nan x = false -> is_nan y = false ->
  (x <? y)%float = true -> (x <=? y)%float = true.
Proof.
  intros Hx Hy H. rewrite (float_ltb_not_leb x y Hx Hy) in H.
  destruct (float_leb_total x y Hx Hy) as [Hle|Hle]; [exact Hle|].
  rewrite Hle in H. discriminate.
Qed.

Lemma float_leb_ltb_trans (x y z : float) :
  is_nan x = false -> is_nan y = false -> is_nan z = false ->
  (x <=? y)%float = true -> (y <? z)%float = true -> (x <? z)%float = true.
Proof.
  intros Hx Hy Hz Hxy Hyz. rewrite (float_ltb_not_leb x z Hx Hz).
  rewrite (float_ltb_not_leb y z Hy Hz) in Hyz.
  destruct (z <=? x)%float eqn:Hzx; [|reflexivity].
  rewrite (float_leb_trans z x y Hzx Hxy) in Hyz. discriminate.
Qed.

Lemma argmax_from_first_largest (row pre : list float) (best : nat) (bv : float) :
  no_nan (pre ++ row) ->
  pre !! best = Some bv ->
  (forall y, y ∈ pre -> (y <=? bv)%float = true) ->
  (forall j y, (j < best)%nat -> pre !! j = Some y -> (y <? bv)%float = true) ->
  exists x : float,
    (pre ++ row) !! argmax_from best bv (length pre) row = Some x
    /\ (forall y, y ∈ pre ++ row -> (y <=? x)%float = true)
    /\ (forall j y, (j < argmax_from best bv (length pre) row)%nat ->
                    (pre ++ row) !! j = Some y -> (y <? x)%float = true).
Proof.
  revert pre best bv. induction row as [|x row IH]; intros pre best bv Hnan Hb Hle Hlt.
  - cbn [argmax_from]. rewrite app_nil_r. exists bv. auto.
  - cbn [argmax_from].
    assert (Hbest : (best < length pre)%nat) by (eapply lookup_lt_Some, Hb).
    assert (Hall : forall y, y ∈ pre ++ x :: row -> is_nan y = false).
    { intros y Hy. exact (proj1 (Forall_forall _ _) Hnan y Hy). }
    assert (Hnb : is_nan bv = false).
    { apply Hall. apply elem_of_app. left. eapply list_elem_of_lookup_2, Hb. }
    assert (Hnx : is_nan x = false).
    { apply Hall. apply elem_of_app. right. constructor. }
    rewrite Hnb, Hnx. cbn [negb andb orb].
    replace (pre ++ x :: row) with ((pre ++ [x]) ++ row) in * by now rewrite <- app_assoc.
    replace (S (length pre)) with (length (pre ++ [x]))
      by (rewrite length_app; cbn; lia).
    destruct (bv <? x)%float eqn:Hbx.
    + replace (length pre) with (length (pre ++ [x]) - 1)%nat at 1
        by (rewrite length_app; cbn; lia).
      assert (Hlast : (pre ++ [x]) !! (length (pre ++ [x]) - 1)%nat = Some x).
      { rewrite length_app. cbn [length].
        replace (length pre + 1 - 1)%nat with (length pre + 0)%nat by lia.
        rewrite lookup_app_r by lia.
        replace (length pre + 0 - length pre)%nat with 0%nat by lia. reflexivity. }
      replace (length (pre ++ [x]) - 1)%nat with (length pre) in *
        by (rewrite length_app; cbn; lia).
      apply (IH (pre ++ [x]) (length pre) x Hnan Hlast).
      * intros y Hy. apply elem_of_app in Hy. destruct Hy as [Hy|Hy].
        -- apply (float_leb_trans y bv x); [now apply Hle|].
           now apply float_ltb_leb.
        -- apply list_elem_of_singleton in Hy. subst y. now apply float_leb_refl.
      * intros j y Hj Hy. rewrite lookup_app_l in Hy by lia.
        assert (Hyin : y ∈ pre) by (eapply list_elem_of_lookup_2, Hy).
        apply (float_leb_ltb_trans y bv x); auto.
        apply Hall. apply elem_of_app. left. apply elem_of_app. now left.
    + apply (IH (pre ++ [x]) best bv Hnan).
      * now apply lookup_app_l_Some.
      * intros y Hy. apply elem_of_app in Hy. destruct Hy as [Hy|Hy]; [now apply Hle|].
        apply list_elem_of_singleton in Hy. subst y.
        rewrite (float_ltb_not_leb bv x Hnb Hnx) in Hbx.
        now destruct (x <=? bv)%float.
      * intros j y Hj Hy. rewrite lookup_app_l in Hy by lia. now apply (Hlt j).
Qed.

(** On a row without NaN that is not empty, [argmax] is the position of a
    largest value, and the first such position. *)
Lemma argmax_first_largest (row : list float) :
  row <> [] -> no_nan row -> first_largest row (argmax row).
Proof.
  destruct row as [|x0 row]; [contradiction|]. intros _ Hnan.
  unfold first_largest, argmax. split; [lia|]. rewrite Nat2Z.id.
  assert (Hn0 : is_nan x0 = false).
  { apply (proj1 (Forall_forall _ _) Hnan). constructor. }
  apply (argmax_from_first_largest row [x0] 0 x0 Hnan eq_refl).
  - intros y Hy. apply list_elem_of_singleton in Hy. subst y. now apply float_leb_refl.
  - intros j y Hj. lia.
Qed.

Lemma argmax_from_nan_best (row : list float) (best : nat) (bv : float) (i : nat) :
  is_nan bv = true -> argmax_from best bv i row = best.
Proof.
  intros Hb. revert i. induction row as [|x row IH]; intros i; cbn [argmax_from];
    [reflexivity|].
  rewrite Hb. cbn [negb andb]. apply IH.
Qed.

Lemma argmax_from_first_nan (row pre : list float) (best : nat) (bv : float) :
  (best < length pre)%nat ->
  is_nan bv = false ->
  no_nan pre ->
  Exists (fun y => is_nan y = true) row ->
  exists x : float,
    (pre ++ row) !! argmax_from best bv (length pre) row = Some x
    /\ is_nan x = true
    /\ forall j y, (j < argmax_from best bv (length pre) row)%nat ->
                   (pre ++ row) !! j = Some y -> is_nan y = false.
Proof.
  revert pre best bv. induction row as [|x row IH]; intros pre best bv Hbest Hb Hpre Hex.
  - inversion Hex.
  - cbn [argmax_from]. rewrite Hb. cbn [negb andb].
    destruct (is_nan x) eqn:Hx; cbn [orb].
    + rewrite (argmax_from_nan_best row (length pre) x _ Hx).
      exists x. split; [|split; [exact Hx|]].
      * rewrite lookup_app_r by lia. now rewrite Nat.sub_diag.
      * intros j y Hj Hy. rewrite lookup_app_l in Hy by lia.
        apply (proj1 (Forall_forall _ _) Hpre y). eapply list_elem_of_lookup_2, Hy.
    + apply Exists_cons in Hex. destruct Hex as [Hex|Hex]; [congruence|].
      replace (pre ++ x :: row) with ((pre ++ [x]) ++ row) by now rewrite <- app_assoc.
      replace (S (length pre)) with (length (pre ++ [x]))
        by (rewrite length_app; cbn; lia).
      assert (Hpre' : no_nan (pre ++ [x])).
      { apply Forall_app. split; [exact Hpre|]. now constructor. }
      destruct (bv <? x)%float.
      * replace (length pre) with (length (pre ++ [x]) - 1)%nat at 1
          by (rewrite length_app; cbn; lia).
        apply IH; try assumption. rewrite length_app. cbn. lia.
      * apply IH; try assumption. rewrite length_app. cbn. lia.
Qed.

(** On a row with a NaN, [argmax] is the position of the first NaN, as
    [torch.argmax] has it. *)
Lemma argmax_first_nan (row : list float) :
  Exists (fun y => is_nan y = true) row -> first_nan row (argmax row).
Proof.
  destruct row as [|x0 row]; [intros H; inversion H|]. intros Hex.
  unfold first_nan, argmax. split; [lia|]. rewrite Nat2Z.id.
  destruct (is_nan x0) eqn:H0.
  - rewrite (argmax_from_nan_best row 0 x0 1 H0). exists x0.
    split; [reflexivity|]. split; [exact H0|]. intros j y Hj. lia.
  - apply Exists_cons in Hex. destruct Hex as [Hex|Hex]; [congruence|].
    apply (argmax_from_first_nan row [x0] 0 x0); try assumption.
    + cbn. lia.
    + now constructor.
Qed.

(** A NaN is taken for the largest value, the first of two NaN and of two
    equal values is taken. *)
Lemma argmax_examples :
  argmax [1%float; nan; 3%float] = 1
  /\ argmax [nan; 2%float; nan] = 0
  /\ argmax [1%float; 3%float; 3%float] = 1.
Proof. repeat split; reflexivity. Qed.

Lemma argmax_rows_first_largest (rows : list (list float)) :
  Forall (fun row => row <> []) rows -> Forall no_nan rows ->
  Forall2 first_largest rows (map argmax rows).
Proof.
  induction 1 as [|row rows Hrow _ IH]; intros Hnan; cbn [map]; constructor.
  - apply argmax_first_largest; [exact Hrow|]. now apply Forall_cons in Hnan.
  - apply IH. now apply Forall_cons in Hnan.
Qed.

(** ** A step of a greedy chooser *)

Lemma argmax_from_range (row : list float) (best : nat) (best_value : float) (i : nat) :
  argmax_from best best_value i row = best
  \/ (i <= argmax_from best best_value i row < i + length row)%nat.
Proof.
  revert best best_value i. induction row as [|x row IH]; intros best bv i; cbn.
  - now left.
  - destruct (negb (is_nan bv) && (is_nan x || (bv <? x)%float)).
    + right. destruct (IH i x (S i)) as [-> | H]; lia.
    + destruct (IH best bv (S i)) as [-> | H]; [now left|right; lia].
Qed.

Lemma argmax_lt (row : list float) :
  row <> [] -> 0 <= argmax row < Z.of_nat (length row).
Proof.
  destruct row as [|x row]; [contradiction|]. intros _. unfold argmax.
  destruct (argmax_from_range row 0 x 1) as [-> | H]; cbn [length]; lia.
Qed.

Lemma groups_length {A : Type} (B S : nat) (rows : list A) :
  length (HeterogeneousNextTokenChooser.groups B S rows) = B.
Proof.
  revert rows. induction B as [|B IH]; intros rows; cbn; [reflexivity|now rewrite IH].
Qed.

Lemma groups_concat {A : Type} (B S : nat) (rows : list A) :
  length rows = (B * S)%nat ->
  concat (HeterogeneousNextTokenChooser.groups B S rows) = rows.
Proof.
  revert rows. induction B as [|B IH]; intros rows Hlen; cbn.
  - destruct rows; [reflexivity|discriminate].
  - rewrite IH; [apply take_drop|]. rewrite length_drop. cbn in Hlen. lia.
Qed.

Lemma groups_rows {A : Type} (B S : nat) (rows : list A) :
  (B * S <= length rows)%nat ->
  Forall (fun g => length g = S) (HeterogeneousNextTokenChooser.groups B S rows).
Proof.
  revert rows. induction B as [|B IH]; intros rows Hlen; cbn; constructor.
  - rewrite length_take. cbn in Hlen. lia.
  - apply IH. rewrite length_drop. cbn in Hlen. lia.
Qed.

Lemma groups_of_concat {A : Type} (V : nat) (rows : list (list A)) :
  Forall (fun r => length r = V) rows ->
  HeterogeneousNextTokenChooser.groups (length rows) V (concat rows) = rows.
Proof.
  induction 1 as [|r rows Hr _ IH]; cbn; [reflexivity|].
  rewrite take_app_length' by (symmetry; exact Hr).
  rewrite drop_app_length' by (symmetry; exact Hr).
  now rewrite IH.
Qed.

Lemma length_concat_rows {A : Type} (V : nat) (rows : list (list A)) :
  Forall (fun r => length r = V) rows ->
  length (concat rows) = (length rows * V)%nat.
Proof.
  induction 1 as [|r rows Hr _ IH]; cbn; [reflexivity|].
  rewrite length_app, IH, Hr. reflexivity.
Qed.

(** [view] on scores of the expected shape: [B * S] rows of one length. *)
Lemma view_ok {A : Type} (B S V : nat) (rows : list (list A)) :
  (0 < B * S)%nat -> length rows = (B * S)%nat ->
  Forall (fun r => length r = V) rows ->
  HeterogeneousNextTokenChooser.view B S rows
  = Ok (HeterogeneousNextTokenChooser.groups B S rows).
Proof.
  intros Hpos Hlen Hrows. unfold HeterogeneousNextTokenChooser.view.
  rewrite (length_concat_rows V rows Hrows), Hlen.
  destruct (Nat.ltb_spec 0 (B * S)) as [_|]; [|lia].
  rewrite (Nat.mul_comm (B * S) V), Nat.Div0.mod_mul, Nat.div_mul by lia.
  cbn [andb Nat.eqb]. rewrite <- Hlen.
  now rewrite (groups_of_concat V rows Hrows).
Qed.

Lemma column_ok {A : Type} `{Inhabited A} (j S : nat) (t : list (list A)) :
  Forall (fun g => length g = S) t -> (j < S)%nat ->
  HeterogeneousNextTokenChooser.column j t = Ok (map (fun g => g !!! j) t).
Proof.
  intros Ht Hj. unfold HeterogeneousNextTokenChooser.column.
  apply traverse_map_ok. apply (Forall_impl _ _ _ Ht). intros g Hg.
  apply getitem_Some. apply list_lookup_lookup_total_lt. lia.
Qed.

Lemma zip_with_maps {A B C D : Type} (h : B -> C -> D) (f : A -> B) (g : A -> C)
    (l : list A) :
  zip_with h (map f l) (map g l) = map (fun x => h (f x) (g x)) l.
Proof. induction l as [|x l IH]; cbn; [reflexivity|now rewrite IH]. Qed.

Lemma n_gram_single (input_ids : list (list Z)) (ids : list Z) (speculate : Z)
    (verbose : bool) :
  length input_ids = length ids ->
  Forall (fun row => length row = shape1 input_ids) input_ids ->
  Forall (fun row => row <> []) input_ids ->
  0 <= speculate ->
  create_n_gram_speculation input_ids ids (map (fun _ => 1) ids) speculate verbose
  = Ok (zip_with (fun row id => n_gram_after_first row id (Z.to_nat speculate))
          input_ids ids).
Proof.
  intros Hlen Hrect Hne Hspec.
  pose proof (n_gram_run input_ids (map (fun id => [id]) ids) speculate verbose) as Hrun.
  rewrite length_map, map_map in Hrun. cbn [length] in Hrun.
  replace (concat (map (fun id => [id]) ids)) with ids in Hrun
    by (clear; induction ids as [|x ids IH]; cbn; [reflexivity|now rewrite <- IH]).
  change (Z.of_nat 1) with 1 in Hrun.
  rewrite Hrun; try assumption.
  - f_equal. rewrite zip_with_fmap_r. reflexivity.
  - apply Forall_forall. intros k Hk. apply list_elem_of_fmap in Hk.
    destruct Hk as (id & -> & _). discriminate.
Qed.

Section GreedyStep.
Context `{Torch} `{LogitsProcess}.

Lemma select_loop_greedy (self : HeterogeneousNextTokenChooser.t)
    (input_ids : list (list Z)) (S : nat) (scores : list (list (list float)))
    (σ : store) :
  greedy_chooser self ->
  Forall (fun g => length g = S) scores ->
  forall n j : nat,
    (j + n = S)%nat ->
    HeterogeneousNextTokenChooser.select_loop self input_ids (seq j n) scores
      (map (fun g => map argmax (take j g) ++ replicate (S - j) 0) scores) σ
    = Ok (scores, map (map argmax) scores, σ).
Proof.
  intros (Hw & Hr & Hwarp & Hc) Hrows.
  induction n as [|n IH]; intros j Hj.
  - cbn. do 3 f_equal. apply map_ext_in. intros g Hg. apply list_elem_of_In in Hg.
    pose proof (proj1 (Forall_forall _ _) Hrows g Hg) as Hl. cbn in Hl.
    replace (S - j)%nat with 0%nat by lia. cbn. rewrite app_nil_r.
    rewrite take_ge by lia. reflexivity.
  - cbn [seq HeterogeneousNextTokenChooser.select_loop].
    rewrite (column_ok j S scores Hrows) by lia. cbn [mbind result_bind].
    rewrite Hw, Hr, Hwarp, Hc. cbn [fold_left HeterogeneousNextTokenChooser.call_choice].
    cbn [mbind result_bind]. unfold Greedy.__call__.
    unfold HeterogeneousNextTokenChooser.set_column.
    rewrite !length_map, Nat.eqb_refl. cbn [mbind result_bind].
    replace (zip_with (fun (group : list (list float)) x => <[j:=x]> group) scores
               (map (fun g => g !!! j) scores)) with scores.
    2: { rewrite <- (map_id scores) at 2. rewrite zip_with_maps.
         rewrite <- (map_id scores) at 1. apply map_ext_in. intros g Hg.
         apply list_elem_of_In in Hg.
         pose proof (proj1 (Forall_forall _ _) Hrows g Hg) as Hl. cbn in Hl.
         symmetry. apply list_insert_id. apply list_lookup_lookup_total_lt. lia. }
    rewrite map_map, zip_with_maps.
    rewrite <- (IH (Datatypes.S j)) by lia. f_equal.
    apply map_ext_in. intros g Hg. apply list_elem_of_In in Hg.
    pose proof (proj1 (Forall_forall _ _) Hrows g Hg) as Hl. cbn in Hl.
    rewrite insert_app_r_alt by (rewrite length_map, length_take; lia).
    rewrite length_map, length_take.
    replace (j - j `min` length g)%nat with 0%nat by lia.
    replace (S - j)%nat with (Datatypes.S (S - Datatypes.S j)) by lia.
    cbn [replicate]. cbn.
    rewrite (take_S_r g j (g !!! j)) by (apply list_lookup_lookup_total_lt; lia).
    rewrite map_app, <- app_assoc. reflexivity.
Qed.

Lemma list_index_map {A B : Type} (f : A -> B) (l : list A) (indices : list nat) :
  list_index (map f l) indices = map f <$> list_index l indices.
Proof.
  unfold list_index. induction indices as [|i indices IH]; [reflexivity|].
  cbn [traverse]. rewrite IH.
  destruct (traverse (getitem l) indices) as [ys|e]; unfold getitem;
    rewrite list_lookup_fmap; destruct (l !! i); reflexivity.
Qed.

Lemma gather_argmax (rows : list (list float)) :
  (forall row, length (log_softmax row) = length row) ->
  Forall (fun row => row <> []) rows ->
  gather (map log_softmax rows) (map (fun id => [id]) (map argmax rows))
  = Ok (map (fun row => [argmax_logprob row]) rows).
Proof.
  intros Hls. induction 1 as [|row rows Hrow _ IH]; [reflexivity|].
  cbn [map gather gather_row traverse]. rewrite Hls.
  pose proof (argmax_lt row Hrow) as Hlt.
  destruct (Z.leb_spec 0 (argmax row)); [|lia].
  destruct (Z.ltb_spec (argmax row) (Z.of_nat (length row))); [|lia].
  cbn [andb]. unfold argmax_logprob, getitem.
  destruct (lookup_lt_is_Some_2 (log_softmax row) (Z.to_nat (argmax row))) as [x Hx].
  { rewrite Hls. lia. }
  rewrite Hx. cbn [mbind result_bind default from_option]. unfold id.
  rewrite IH. reflexivity.
Qed.

(** X15. A step raises [RuntimeError] when the scores have fewer rows than
    one sequence takes: one row without speculated ids, one more than the
    speculated ids of a sequence with them. A step on scores without rows
    always raises. *)
Theorem step_raises_on_too_few_rows (self : HeterogeneousNextTokenChooser.t)
    (input_ids : list (list Z)) (scores : list (list float)) (speculate : Z)
    (speculated_ids : option (list (list Z)))
    (speculative_scores : option (list (list (list float)))) (verbose : bool)
    (σ : store) :
  (length scores < match speculated_ids with
                   | Some ids => shape1 ids + 1
                   | None => 1
                   end)%nat ->
  HeterogeneousNextTokenChooser.__call__ self input_ids scores speculate
    speculated_ids speculative_scores verbose σ
  = Raise RuntimeError.
Proof.
  intros Hlt. unfold HeterogeneousNextTokenChooser.__call__.
  assert (Hv : forall B S : nat, (B * S = 0)%nat ->
            HeterogeneousNextTokenChooser.view B S scores = Raise RuntimeError).
  { intros B S E. unfold HeterogeneousNextTokenChooser.view. now rewrite E. }
  rewrite Hv; [reflexivity|].
  destruct speculated_ids as [ids|].
  - rewrite Nat.div_small by exact Hlt. reflexivity.
  - lia.
Qed.


Lemma select_loop_greedy_groups (self : HeterogeneousNextTokenChooser.t)
    (input_ids : list (list Z)) (B S : nat) (scores : list (list float)) (σ : store) :
  greedy_chooser self ->
  length scores = (B * S)%nat ->
  HeterogeneousNextTokenChooser.select_loop self input_ids (seq 0 S)
    (HeterogeneousNextTokenChooser.groups B S scores)
    (replicate B (replicate S 0)) σ
  = Ok (HeterogeneousNextTokenChooser.groups B S scores,
        map (map argmax) (HeterogeneousNextTokenChooser.groups B S scores), σ).
Proof.
  intros Hg Hlen.
  rewrite <- (select_loop_greedy self input_ids S
                (HeterogeneousNextTokenChooser.groups B S scores) σ Hg
                (groups_rows B S scores ltac:(lia)) S 0%nat eq_refl).
  f_equal. rewrite <- (groups_length B S scores) at 1.
  generalize (HeterogeneousNextTokenChooser.groups B S scores). intros l.
  induction l as [|g l IH]; cbn [length replicate map]; [reflexivity|].
  rewrite IH. rewrite Nat.sub_0_r. reflexivity.
Qed.

(** X16. A step without speculated ids of a chooser that has no processor
    and no warper and selects greedily, on rows of scores without NaN that
    are not empty: every sequence gets the id of the largest score of its
    row (the first one when several are largest) with the accepted count 1,
    the log-probabilities are those of the rows as they came, the store of
    the samplers is left as it is, and with [speculate > 0] the ids proposed
    for a sequence are those that follow the first occurrence of its chosen
    id in its history. *)
Theorem greedy_step_plain (self : HeterogeneousNextTokenChooser.t)
    (input_ids : list (list Z)) (scores : list (list float)) (speculate : Z)
    (verbose : bool) (σ : store) :
  greedy_chooser self ->
  (forall row, length (log_softmax row) = length row) ->
  scores <> [] ->
  Forall (fun row => length row = shape1 scores) scores ->
  (0 < shape1 scores)%nat ->
  Forall no_nan scores ->
  length input_ids = length scores ->
  Forall (fun row => length row = shape1 input_ids) input_ids ->
  Forall (fun row => row <> []) input_ids ->
  Forall2 first_largest scores (map argmax scores)
  /\ HeterogeneousNextTokenChooser.__call__ self input_ids scores speculate
       None None verbose σ
     = Ok ({| HeterogeneousNextTokenChooser.step_next_ids := map argmax scores;
           HeterogeneousNextTokenChooser.step_next_logprobs := map argmax_logprob scores;
           HeterogeneousNextTokenChooser.step_logprobs := map log_softmax scores;
           HeterogeneousNextTokenChooser.step_accepted_ids := map (fun _ => 1) scores;
           HeterogeneousNextTokenChooser.step_speculative_ids :=
             if 0 <? speculate
             then Some (zip_with (fun row id =>
                                    n_gram_after_first row id (Z.to_nat speculate))
                          input_ids (map argmax scores))
             else None |}, σ).
Proof.
  intros Hg Hls Hne Hrows HV Hnan Hin Hrect Hhist.
  assert (Hnonempty : Forall (fun row : list float => row <> []) scores).
  { apply (Forall_impl _ _ _ Hrows). intros row Hl E. subst row. cbn in Hl. lia. }
  split; [now apply argmax_rows_first_largest|].
  unfold HeterogeneousNextTokenChooser.__call__.
  rewrite (view_ok (length scores) 1 (shape1 scores) scores);
    [|destruct scores; [contradiction|cbn; lia]|lia|exact Hrows].
  cbn [mbind result_bind].
  rewrite (select_loop_greedy_groups self input_ids (length scores) 1 scores σ Hg)
    by lia.
  cbn [mbind result_bind].
  rewrite <- concat_map, (groups_concat (length scores) 1 scores) by lia.
  rewrite (gather_argmax scores Hls Hnonempty). cbn [mbind result_bind].
  rewrite !map_map.
  replace (concat (map (fun row => [argmax_logprob row]) scores))
    with (map argmax_logprob scores)
    by (clear; induction scores as [|x l IH]; cbn; [reflexivity|now rewrite <- IH]).
  destruct (Z.ltb_spec 0 speculate) as [Hs|Hs]; [|reflexivity].
  pose proof (n_gram_single input_ids (map argmax scores) speculate verbose) as Hn.
  rewrite map_map in Hn. rewrite Hn; [reflexivity| |assumption|assumption|lia].
  now rewrite length_map.
Qed.

Lemma speculative_validation_index (next_ids : list Z) (speculated_ids : list (list Z))
    (out accepted_ids : list Z) (indices : list nat) :
  HeterogeneousNextTokenChooser.speculative_validation next_ids speculated_ids
  = Ok (out, accepted_ids, indices) ->
  list_index next_ids indices = Ok out.
Proof.
  unfold HeterogeneousNextTokenChooser.speculative_validation.
  destruct (HeterogeneousNextTokenChooser.validate_loop _ _ _ _ _) as [[acc idx]|];
    cbn; [|discriminate].
  destruct (list_index next_ids idx) as [o|] eqn:E; cbn; [|discriminate].
  intros Heq. injection Heq as <- <- <-. exact E.
Qed.

Lemma list_index_elems {A : Type} (l : list A) (indices : list nat) (r : list A) :
  list_index l indices = Ok r -> Forall (fun x => x ∈ l) r.
Proof.
  intros Hr. apply traverse_Forall2 in Hr.
  induction Hr as [|i x indices r Hi _ IH]; constructor; [|exact IH].
  unfold getitem in Hi. destruct (l !! i) as [y|] eqn:Hy; [|discriminate].
  injection Hi as <-. eapply list_elem_of_lookup_2; eassumption.
Qed.

(** X17. A step with speculated ids of a chooser that has no processor and
    no warper and selects greedily, on rows of scores without NaN that are
    not empty: the id selected for a row is that of its largest score (the
    first one when several are largest), the ids returned and the accepted
    counts are those of the validation of the ids selected for all the rows,
    the log-probabilities are those of the rows at the positions kept, the
    store of the samplers is left as it is, and with [speculate > 0] the ids
    proposed for a sequence are those that follow the first occurrence of
    its last id kept in its history. *)
Theorem greedy_step_speculation (self : HeterogeneousNextTokenChooser.t)
    (input_ids : list (list Z)) (scores : list (list float)) (speculate : Z)
    (speculated_ids : list (list Z)) (verbose : bool) (σ : store) :
  greedy_chooser self ->
  (forall row, length (log_softmax row) = length row) ->
  speculated_ids <> [] ->
  Forall (fun row => length row = shape1 speculated_ids) speculated_ids ->
  length scores = (length speculated_ids * (shape1 speculated_ids + 1))%nat ->
  Forall (fun row => length row = shape1 scores) scores ->
  (0 < shape1 scores)%nat ->
  Forall no_nan scores ->
  length input_ids = length speculated_ids ->
  Forall (fun row => length row = shape1 input_ids) input_ids ->
  Forall (fun row => row <> []) input_ids ->
  Forall2 first_largest scores (map argmax scores)
  /\ exists (kept_rows : list (list float)) (accepted_ids : list Z)
           (indices : list nat),
    HeterogeneousNextTokenChooser.speculative_validation (map argmax scores)
      speculated_ids
    = Ok (map argmax kept_rows, accepted_ids, indices)
    /\ list_index scores indices = Ok kept_rows
    /\ HeterogeneousNextTokenChooser.__call__ self input_ids scores speculate
         (Some speculated_ids) None verbose σ
       = Ok ({| HeterogeneousNextTokenChooser.step_next_ids := map argmax kept_rows;
                HeterogeneousNextTokenChooser.step_next_logprobs :=
                  map argmax_logprob kept_rows;
                HeterogeneousNextTokenChooser.step_logprobs :=
                  map log_softmax kept_rows;
                HeterogeneousNextTokenChooser.step_accepted_ids := accepted_ids;
                HeterogeneousNextTokenChooser.step_speculative_ids :=
                  if 0 <? speculate
                  then Some (zip_with
                               (fun row k =>
                                  n_gram_after_first row (default 0 (last k))
                                    (Z.to_nat speculate))
                               input_ids
                               (map (kept_ids (shape1 speculated_ids + 1)
                                       (map argmax scores) speculated_ids)
                                  (seq 0 (length speculated_ids))))
                  else None |}, σ).
Proof.
  intros Hg Hls Hne Hspec Hlen Hrows HV Hnan Hin Hrect Hhist.
  split.
  { apply argmax_rows_first_largest; [|exact Hnan].
    apply (Forall_impl _ _ _ Hrows). intros row Hl E. subst row. cbn in Hl. lia. }
  set (S := (shape1 speculated_ids + 1)%nat) in *.
  set (B := length speculated_ids) in *.
  assert (HB : (length scores / S)%nat = B).
  { rewrite Hlen. apply Nat.div_mul. subst S. lia. }
  assert (HBpos : (0 < B * S)%nat).
  { subst B S. destruct speculated_ids; [contradiction|cbn [length]; lia]. }
  assert (Hchosen : length (map argmax scores) = (B * S)%nat)
    by now rewrite length_map.
  assert (Hval := speculative_validation_run (map argmax scores) speculated_ids Hspec).
  fold S in Hval. rewrite Hchosen, Nat.div_mul in Hval by (subst S; lia).
  specialize (Hval (Nat.le_refl _)).
  pose proof (speculative_validation_index _ _ _ _ _ Hval) as Hidx.
  rewrite list_index_map in Hidx.
  destruct (list_index scores
              (concat (map (fun i => map (fun k => (i * S + k)%nat)
                             (seq 0 (1 + matching_run S (map argmax scores)
                                           speculated_ids i)))
                         (seq 0 B)))) as [kept_rows|] eqn:Hkept;
    cbn in Hidx; [|discriminate].
  injection Hidx as Hout.
  exists kept_rows. do 2 eexists. rewrite Hout. split; [exact Hval|].
  split; [exact Hkept|].
  unfold HeterogeneousNextTokenChooser.__call__. fold S. rewrite HB.
  rewrite (view_ok B S (shape1 scores) scores HBpos Hlen Hrows).
  cbn [mbind result_bind].
  rewrite (select_loop_greedy_groups self input_ids B S scores σ Hg Hlen).
  cbn [mbind result_bind].
  rewrite <- concat_map, (groups_concat B S scores Hlen).
  rewrite Hval. cbn [mbind result_bind]. rewrite Hkept. cbn [mbind result_bind].
  assert (Hnonempty : Forall (fun row : list float => row <> []) kept_rows).
  { apply list_index_elems in Hkept. apply (Forall_impl _ _ _ Hkept).
    intros row Hrow E. subst row.
    pose proof (proj1 (Forall_forall _ _) Hrows [] Hrow) as Hl. cbn in Hl. lia. }
  rewrite <- Hout, (gather_argmax kept_rows Hls Hnonempty). cbn [mbind result_bind].
  replace (concat (map (fun row => [argmax_logprob row]) kept_rows))
    with (map argmax_logprob kept_rows)
    by (clear; induction kept_rows as [|x l IH]; cbn; [reflexivity|now rewrite <- IH]).
  destruct (Z.ltb_spec 0 speculate) as [Hs|Hs]; [|reflexivity].
  destruct (kept_ids_lengths (map argmax scores) speculated_ids B Hspec
              (Nat.le_refl _)) as [Hl Hk]; [fold S; lia|]. fold S in Hl, Hk.
  rewrite Hout, <- Hl.
  rewrite (n_gram_run input_ids _ speculate verbose); [reflexivity| | | | |lia];
    try assumption.
  now rewrite length_map, length_seq.
Qed.

End GreedyStep.

Lemma step_raises_on_too_few_rows_witness :
  @HeterogeneousNextTokenChooser.__call__ example_torch example_processors
    example_greedy_chooser [[1; 2; 3]] [example_scores 5; example_scores 7] 0
    (Some [[7; 8]]) None false []
  = Raise RuntimeError.
Proof.
  apply (@step_raises_on_too_few_rows example_torch example_processors).
  cbn. lia.
Defined.

Lemma greedy_step_plain_witness :
  Forall2 first_largest [example_scores 5; example_scores 7]
    (map argmax [example_scores 5; example_scores 7])
  /\ @HeterogeneousNextTokenChooser.__call__ example_torch example_processors
       example_greedy_chooser [[1; 5; 3]; [4; 4; 7]]
       [example_scores 5; example_scores 7] 2 None None false []
     = Ok ({| HeterogeneousNextTokenChooser.step_next_ids :=
                map argmax [example_scores 5; example_scores 7];
              HeterogeneousNextTokenChooser.step_next_logprobs :=
                map (@argmax_logprob example_torch)
                  [example_scores 5; example_scores 7];
              HeterogeneousNextTokenChooser.step_logprobs :=
                map (@log_softmax example_torch) [example_scores 5; example_scores 7];
              HeterogeneousNextTokenChooser.step_accepted_ids :=
                map (fun _ => 1) [example_scores 5; example_scores 7];
              HeterogeneousNextTokenChooser.step_speculative_ids :=
                if 0 <? 2
                then Some (zip_with
                             (fun row id => n_gram_after_first row id (Z.to_nat 2))
                             [[1; 5; 3]; [4; 4; 7]]
                             (map argmax [example_scores 5; example_scores 7]))
                else None |}, []).
Proof.
  apply (@greedy_step_plain example_torch example_processors).
  - repeat split; reflexivity.
  - intros row. reflexivity.
  - discriminate.
  - repeat constructor.
  - cbn. lia.
  - vm_compute. repeat constructor.
  - reflexivity.
  - repeat constructor.
  - repeat constructor; discriminate.
Defined.

Lemma greedy_step_speculation_witness :
  Forall2 first_largest [example_scores 5; example_scores 7; example_scores 9]
    (map argmax [example_scores 5; example_scores 7; example_scores 9])
  /\ exists (kept_rows : list (list float)) (accepted_ids : list Z)
           (indices : list nat),
    HeterogeneousNextTokenChooser.speculative_validation
      (map argmax [example_scores 5; example_scores 7; example_scores 9]) [[5; 8]]
    = Ok (map argmax kept_rows, accepted_ids, indices)
    /\ list_index [example_scores 5; example_scores 7; example_scores 9] indices
       = Ok kept_rows
    /\ @HeterogeneousNextTokenChooser.__call__ example_torch example_processors
         example_greedy_chooser [[1; 7; 3]]
         [example_scores 5; example_scores 7; example_scores 9] 2
         (Some [[5; 8]]) None false []
       = Ok ({| HeterogeneousNextTokenChooser.step_next_ids := map argmax kept_rows;
                HeterogeneousNextTokenChooser.step_next_logprobs :=
                  map (@argmax_logprob example_torch) kept_rows;
                HeterogeneousNextTokenChooser.step_logprobs :=
                  map (@log_softmax example_torch) kept_rows;
                HeterogeneousNextTokenChooser.step_accepted_ids := accepted_ids;
                HeterogeneousNextTokenChooser.step_speculative_ids :=
                  if 0 <? 2
                  then Some (zip_with
                               (fun row k =>
                                  n_gram_after_first row (default 0 (last k))
                                    (Z.to_nat 2))
                               [[1; 7; 3]]
                               (map (kept_ids (shape1 [[5; 8]] + 1)
                                       (map argmax
                                          [example_scores 5; example_scores 7;
                                           example_scores 9]) [[5; 8]])
                                  (seq 0 (length [[5; 8]]))))
                  else None |}, []).
Proof.
  apply (@greedy_step_speculation example_torch example_processors).
  - repeat split; reflexivity.
  - intros row. reflexivity.
  - discriminate.
  - repeat constructor.
  - reflexivity.
  - repeat constructor.
  - cbn. lia.
  - vm_compute. repeat constructor.
  - reflexivity.
  - repeat constructor.
  - repeat constructor; discriminate.
Defined.

(** ** The rows of a batch between greedy selection and sampling *)

Lemma sampling_filter_greedy_fold (old : gmap nat loc) (xs : list nat) (a : nat)
    (g : list nat) (m : gmap nat loc) :
  (fold_left (HeterogeneousSampling.filter_step old) (zip (seq a (length xs)) xs)
     (g, m)).1
  = g ++ List.filter
           (fun i => bool_decide (xs !! (i - a)%nat ≫= (old !!.) = None))
           (seq a (length xs)).
Proof.
  revert a g m. induction xs as [|idx xs IH]; intros a g m.
  - cbn. now rewrite app_nil_r.
  - cbn [length seq zip_with fold_left HeterogeneousSampling.filter_step List.filter].
    rewrite Nat.sub_diag. cbn [lookup list_lookup mbind option_bind].
    assert (Hext : List.filter
                     (fun i => bool_decide ((idx :: xs) !! (i - a)%nat ≫= (old !!.) = None))
                     (seq (S a) (length xs))
                   = List.filter
                       (fun i => bool_decide (xs !! (i - S a)%nat ≫= (old !!.) = None))
                       (seq (S a) (length xs))).
    { apply filter_ext_in. intros i Hi. apply in_seq in Hi.
      replace (i - a)%nat with (S (i - S a)) by lia. reflexivity. }
    destruct (old !! idx) as [s|] eqn:Hidx; rewrite IH.
    + rewrite bool_decide_eq_false_2 by discriminate. now rewrite Hext.
    + rewrite bool_decide_eq_true_2 by reflexivity.
      rewrite <- app_assoc. cbn [app]. now rewrite Hext.
Qed.

Lemma sampling_filter_greedy (self : HeterogeneousSampling.t) (indices : list nat) :
  HeterogeneousSampling.greedy_indices (HeterogeneousSampling.filter self indices)
  = List.filter
      (fun i => bool_decide (indices !! i
                               ≫= (HeterogeneousSampling.sampling_mapping self !!.)
                             = None))
      (seq 0 (length indices)).
Proof.
  unfold HeterogeneousSampling.filter, enumerate.
  pose proof (sampling_filter_greedy_fold (HeterogeneousSampling.sampling_mapping self)
                indices 0 [] ∅) as Hfold.
  destruct (fold_left _ _ _) as [g m]. cbn [fst] in Hfold.
  cbn [HeterogeneousSampling.greedy_indices]. rewrite Hfold. cbn [app].
  apply filter_ext. intros i. now rewrite Nat.sub_0_r.
Qed.

Section Partition.
Context `{Torch}.

Lemma sampling_init_greedy_fold (xs : list (bool * Z)) (a : nat) (g : list nat)
    (m : gmap nat loc) (σ : store) :
  (fold_left HeterogeneousSampling.init_step (zip (seq a (length xs)) xs) (g, m, σ)).1.1
  = g ++ List.filter
           (fun i => bool_decide (fst <$> xs !! (i - a)%nat = Some false))
           (seq a (length xs)).
Proof.
  revert a g m σ. induction xs as [|[sample seed] xs IH]; intros a g m σ.
  - cbn. now rewrite app_nil_r.
  - cbn [length seq zip_with fold_left List.filter].
    rewrite Nat.sub_diag. cbn [lookup list_lookup fmap option_fmap option_map fst].
    assert (Hext : List.filter
                     (fun i => bool_decide
                                 (fst <$> ((sample, seed) :: xs) !! (i - a)%nat
                                  = Some false))
                     (seq (S a) (length xs))
                   = List.filter
                       (fun i => bool_decide (fst <$> xs !! (i - S a)%nat = Some false))
                       (seq (S a) (length xs))).
    { apply filter_ext_in. intros i Hi. apply in_seq in Hi.
      replace (i - a)%nat with (S (i - S a)) by lia. reflexivity. }
    destruct sample; cbn [HeterogeneousSampling.init_step new_Sampling]; rewrite IH.
    + rewrite bool_decide_eq_false_2 by discriminate. now rewrite Hext.
    + rewrite bool_decide_eq_true_2 by reflexivity.
      rewrite <- app_assoc. cbn [app]. now rewrite Hext.
Qed.

Lemma sampling_init_partition (do_sample : list bool) (seeds : list Z) (σ : store) :
  rows_partitioned (HeterogeneousSampling.__init__ do_sample seeds σ).1
    (Nat.min (length do_sample) (length seeds)).
Proof.
  intros i. unfold HeterogeneousSampling.__init__, enumerate.
  pose proof (sampling_init_greedy_fold (zip do_sample seeds) 0 [] ∅ σ) as Hg.
  destruct (sampling_init_fold (zip do_sample seeds) 0 [] ∅ σ)
    as (g' & m' & σ' & Hfold & Hm & _ & _ & Hrows).
  rewrite Hfold in Hg |- *. cbn [fst snd] in Hg.
  cbn [fst HeterogeneousSampling.greedy_indices HeterogeneousSampling.sampling_mapping].
  rewrite Hg. cbn [app]. rewrite length_zip_with in Hm |- *.
  destruct (lt_dec i (Nat.min (length do_sample) (length seeds))) as [Hi|Hi].
  - destruct (lookup_lt_is_Some_2 (zip do_sample seeds) i) as [[sample seed] Hz].
    { now rewrite length_zip_with. }
    specialize (Hrows i sample seed Hz). cbn [Nat.add] in Hrows.
    split; [|intros _; exact Hi].
    rewrite list_elem_of_In, filter_In, in_seq, Nat.sub_0_r, Hz.
    cbn [fmap option_fmap option_map fst]. rewrite bool_decide_eq_true.
    destruct sample.
    + destruct Hrows as (l & Hl & _). rewrite Hl.
      split; [intros [_ [=]]|intros [_ [=]]].
    + rewrite Hrows, lookup_empty. split; [intros _; auto|intros _; split; [lia|auto]].
  - rewrite (Hm i) by lia. rewrite lookup_empty. split.
    + rewrite list_elem_of_In, filter_In, in_seq. split; [lia|intros [? _]; lia].
    + intros [? ?]. discriminate.
Qed.

End Partition.

(** X18. After the construction of the heterogeneous sampler and after
    every compaction, every row of the batch is either in [greedy_indices]
    or a key of [sampling_mapping], never both, and neither of the two names
    a row outside the batch. *)
Theorem sampling_rows_partitioned `{Torch} :
  (forall (do_sample : list bool) (seeds : list Z) (σ : store),
      rows_partitioned (HeterogeneousSampling.__init__ do_sample seeds σ).1
        (Nat.min (length do_sample) (length seeds)))
  /\ (forall (self : HeterogeneousSampling.t) (indices : list nat),
        rows_partitioned (HeterogeneousSampling.filter self indices) (length indices)).
Proof.
  split; [apply sampling_init_partition|].
  intros self indices i. rewrite sampling_filter_greedy, sampling_filter_lookup. split.
  - rewrite list_elem_of_In, filter_In, in_seq, bool_decide_eq_true. split.
    + intros [? ?]. split; [lia|assumption].
    + intros [? ?]. split; [lia|assumption].
  - intros [l Hl]. destruct (indices !! i) eqn:Hi; [|discriminate].
    eapply lookup_lt_Some, Hi.
Qed.

Section MixedCall.
Context `{Torch}.

(** The rows without a sampler in one call of the heterogeneous sampler on
    a batch whose rows are partitioned. *)
Lemma heterogeneous_sampling_call_greedy (self : HeterogeneousSampling.t)
    (logits : list (list float)) (σ : store) :
  samplers_separate (HeterogeneousSampling.sampling_mapping self) ->
  samplers_allocated (HeterogeneousSampling.sampling_mapping self) σ ->
  rows_partitioned self (length logits) ->
  exists (out : list Z) (σ' : store),
    HeterogeneousSampling.__call__ self logits σ = Ok (out, σ')
    /\ forall i lg,
         logits !! i = Some lg ->
         HeterogeneousSampling.sampling_mapping self !! i = None ->
         out !! i = Some (argmax lg).
Proof.
  intros Hsep Hall Hpart. unfold HeterogeneousSampling.__call__.
  set (m := HeterogeneousSampling.sampling_mapping self) in *.
  set (out0 := match HeterogeneousSampling.greedy_indices self with
               | [] => replicate (length logits) 0
               | _ :: _ => map argmax logits
               end).
  assert (Hcheck : forallb (fun '(i, _) => (i <? length logits)%nat) (map_to_list m) = true).
  { apply forallb_forall. intros [i l] Hin.
    apply list_elem_of_In, elem_of_map_to_list in Hin.
    apply Nat.ltb_lt. apply (Hpart i). subst m. rewrite Hin. eauto. }
  rewrite Hcheck.
  destruct (sample_rows_run m (enumerate logits) Hsep) with (out := out0) (σ := σ)
    as (out & σ' & Hrun & _ & _ & _ & _ & Hkeep).
  { rewrite enumerate_fst. apply NoDup_seq. }
  { exact Hall. }
  exists out, σ'. split; [exact Hrun|].
  intros i lg Hlg Hm. rewrite (Hkeep i) by now right.
  assert (Hin : i ∈ HeterogeneousSampling.greedy_indices self).
  { apply (Hpart i). split; [eapply lookup_lt_Some, Hlg|exact Hm]. }
  subst out0. destruct (HeterogeneousSampling.greedy_indices self) as [|j g];
    [inversion Hin|].
  rewrite list_lookup_fmap, Hlg. reflexivity.
Qed.

(** The id that a sampler draws for a row that is not empty is a position
    of the row, when the probabilities and the draws of torch have the
    length of what they are made for. *)
Lemma sampling_call_range (s : Sampling.t) (lg : list float) :
  (forall row, length (softmax row) = length row) ->
  (forall g n, length (exponential_ g n).1 = n) ->
  lg <> [] ->
  0 <= (Sampling.__call__ s lg).1 < Z.of_nat (length lg).
Proof.
  intros Hsm Hex Hne. unfold Sampling.__call__.
  pose proof (Hex (Sampling.generator s) (length (softmax lg))) as Hq.
  destruct (exponential_ (Sampling.generator s) (length (softmax lg))) as [q g].
  cbn [fst snd] in Hq |- *.
  assert (Hlen : length (zip_with PrimFloat.div (softmax lg) q) = length lg).
  { rewrite length_zip_with, Hq, Hsm. lia. }
  rewrite <- Hlen. apply argmax_lt. intros E. rewrite E in Hlen.
  destruct lg; [contradiction|discriminate].
Qed.

(** X19. One call of the heterogeneous sampler on a batch whose rows are
    partitioned, on rows of logits without NaN that are not empty: a row
    with a sampler gets the draw of its own sampler on its own logits, which
    is a position of the row, and that sampler advances by that one draw; a
    row without a sampler gets the id of its largest logit (the first one
    when several are largest); no other object of the store changes. *)
Theorem heterogeneous_sampling_call_rows (self : HeterogeneousSampling.t)
    (logits : list (list float)) (σ : store) :
  samplers_separate (HeterogeneousSampling.sampling_mapping self) ->
  samplers_allocated (HeterogeneousSampling.sampling_mapping self) σ ->
  rows_partitioned self (length logits) ->
  (forall row, length (softmax row) = length row) ->
  (forall g n, length (exponential_ g n).1 = n) ->
  Forall (fun lg => lg <> []) logits ->
  Forall no_nan logits ->
  exists (out : list Z) (σ' : store),
    HeterogeneousSampling.__call__ self logits σ = Ok (out, σ')
    /\ length out = length logits /\ length σ' = length σ
    /\ (forall i lg,
          logits !! i = Some lg ->
          match HeterogeneousSampling.sampling_mapping self !! i with
          | Some l =>
              exists s, σ !! l = Some s
                        /\ out !! i = Some (Sampling.__call__ s lg).1
                        /\ 0 <= (Sampling.__call__ s lg).1 < Z.of_nat (length lg)
                        /\ σ' !! l = Some (Sampling.__call__ s lg).2
          | None => out !! i = Some (argmax lg) /\ first_largest lg (argmax lg)
          end)
    /\ (forall l, (forall i, HeterogeneousSampling.sampling_mapping self !! i <> Some l) ->
                  σ' !! l = σ !! l).
Proof.
  intros Hsep Hall Hpart Hsm Hex Hne Hnan.
  destruct (heterogeneous_sampling_call_run self logits σ Hsep Hall)
    as (out & σ' & Hrun & Hlo & Hlσ & Hrows & Hframe).
  { intros i l Hm. apply (Hpart i). eauto. }
  destruct (heterogeneous_sampling_call_greedy self logits σ Hsep Hall Hpart)
    as (out2 & σ2 & Hrun2 & Hgreedy).
  rewrite Hrun in Hrun2. injection Hrun2 as <- <-.
  exists out, σ'. split; [exact Hrun|]. split; [exact Hlo|]. split; [exact Hlσ|].
  split; [|exact Hframe].
  intros i lg Hlg.
  assert (Hin : lg ∈ logits) by (eapply list_elem_of_lookup_2, Hlg).
  pose proof (proj1 (Forall_forall _ _) Hne lg Hin) as Hlg0.
  pose proof (proj1 (Forall_forall _ _) Hnan lg Hin) as Hlgn.
  destruct (HeterogeneousSampling.sampling_mapping self !! i) as [l|] eqn:Hm.
  - destruct (lookup_lt_is_Some_2 σ l) as [s Hs]; [eapply Hall, Hm|].
    exists s. split; [exact Hs|].
    destruct (Hrows i lg l s Hlg Hm Hs) as [Ho Hσ].
    split; [exact Ho|]. split; [now apply sampling_call_range|exact Hσ].
  - split; [exact (Hgreedy i lg Hlg Hm)|now apply argmax_first_largest].
Qed.

(** X20. The first call after the construction on a batch with one flag,
    one seed and one row of logits (without NaN, not empty) for every
    sequence: a sequence whose flag is set gets the first draw of a generator
    seeded with its own seed on its own logits, which is a position of its
    row; a sequence whose flag is not set gets the id of its largest logit
    (the first one when several are largest); what a sequence gets does not
    depend on the other sequences. *)
Theorem mixed_batch_first_call (do_sample : list bool) (seeds : list Z)
    (logits : list (list float)) (σ : store) :
  length do_sample = length logits ->
  length seeds = length logits ->
  (forall row, length (softmax row) = length row) ->
  (forall g n, length (exponential_ g n).1 = n) ->
  Forall (fun lg => lg <> []) logits ->
  Forall no_nan logits ->
  exists (out : list Z) (σ' : store),
    HeterogeneousSampling.__call__ (HeterogeneousSampling.__init__ do_sample seeds σ).1
      logits (HeterogeneousSampling.__init__ do_sample seeds σ).2
    = Ok (out, σ')
    /\ forall (i : nat) (sample : bool) (seed : Z) (lg : list float),
         do_sample !! i = Some sample -> seeds !! i = Some seed ->
         logits !! i = Some lg ->
         out !! i
         = Some (if sample then (Sampling.__call__ (Sampling.__init__ seed) lg).1
                 else argmax lg)
         /\ if sample
            then 0 <= (Sampling.__call__ (Sampling.__init__ seed) lg).1
                 < Z.of_nat (length lg)
            else first_largest lg (argmax lg).
Proof.
  intros Hd Hs Hsm Hex Hne Hnan.
  destruct (sampling_init_separate do_sample seeds σ) as [Hsep Hall].
  pose proof (sampling_init_partition do_sample seeds σ) as Hpart.
  replace (Nat.min (length do_sample) (length seeds)) with (length logits) in Hpart
    by lia.
  destruct (heterogeneous_sampling_call_run _ logits _ Hsep Hall)
    as (out & σ' & Hrun & _ & _ & Hrows & _).
  { intros i l Hm. apply (Hpart i). eauto. }
  destruct (heterogeneous_sampling_call_greedy _ logits _ Hsep Hall Hpart)
    as (out2 & σ2 & Hrun2 & Hgreedy).
  rewrite Hrun in Hrun2. injection Hrun2 as <- <-.
  exists out, σ'. split; [exact Hrun|].
  intros i sample seed lg Hi Hseed Hlg.
  assert (Hin : lg ∈ logits) by (eapply list_elem_of_lookup_2, Hlg).
  pose proof (proj1 (Forall_forall _ _) Hne lg Hin) as Hlg0.
  pose proof (proj1 (Forall_forall _ _) Hnan lg Hin) as Hlgn.
  destruct (heterogeneous_sampling_init do_sample seeds σ i sample seed Hi Hseed)
    as [Hiff Hobj].
  destruct (HeterogeneousSampling.sampling_mapping
              (HeterogeneousSampling.__init__ do_sample seeds σ).1 !! i)
    as [l|] eqn:Hm.
  - rewrite (proj1 Hiff) by eauto.
    split; [exact (proj1 (Hrows i lg l _ Hlg Hm (Hobj l eq_refl)))|].
    now apply sampling_call_range.
  - destruct sample.
    + destruct (proj2 Hiff eq_refl) as [? ?]. discriminate.
    + split; [exact (Hgreedy i lg Hlg Hm)|now apply argmax_first_largest].
Qed.

End MixedCall.

Lemma mixed_batch_first_call_witness :
  exists (out : list Z) (σ' : list (@Sampling.t example_torch)),
    @HeterogeneousSampling.__call__ example_torch
      (@HeterogeneousSampling.__init__ example_torch [true; false] [11; 22] []).1
      [example_scores 3; example_scores 4]
      (@HeterogeneousSampling.__init__ example_torch [true; false] [11; 22] []).2
    = Ok (out, σ')
    /\ forall (i : nat) (sample : bool) (seed : Z) (lg : list float),
         [true; false] !! i = Some sample -> [11; 22] !! i = Some seed ->
         [example_scores 3; example_scores 4] !! i = Some lg ->
         out !! i
         = Some (if sample
                 then (@Sampling.__call__ example_torch
                         (@Sampling.__init__ example_torch seed) lg).1
                 else argmax lg)
         /\ if sample
            then 0 <= (@Sampling.__call__ example_torch
                         (@Sampling.__init__ example_torch seed) lg).1
                 < Z.of_nat (length lg)
            else first_largest lg (argmax lg).
Proof.
  apply (@mixed_batch_first_call example_torch [true; false] [11; 22]
           [example_scores 3; example_scores 4] []).
  - reflexivity.
  - reflexivity.
  - intros row. reflexivity.
  - intros g n. apply length_replicate.
  - repeat constructor; discriminate.
  - vm_compute. repeat constructor.
Defined.

Lemma heterogeneous_sampling_call_rows_witness :
  exists (out : list Z) (σ' : list (@Sampling.t example_torch)),
    @HeterogeneousSampling.__call__ example_torch example_sampling
      [example_scores 3; example_scores 4; example_scores 5] example_store
    = Ok (out, σ')
    /\ length out = 3%nat
    /\ out !! 1%nat = Some (argmax (example_scores 4))
    /\ first_largest (example_scores 4) (argmax (example_scores 4)).
Proof.
  destruct (@heterogeneous_sampling_call_rows example_torch example_sampling
              [example_scores 3; example_scores 4; example_scores 5] example_store)
    as (out & σ' & Hrun & Hlen & _ & Hrows & _).
  - apply (@sampling_init_separate example_torch [true; false; true] [1; 2; 3] []).
  - apply (@sampling_init_separate example_torch [true; false; true] [1; 2; 3] []).
  - apply (@sampling_init_partition example_torch [true; false; true] [1; 2; 3] []).
  - intros row. reflexivity.
  - intros g n. apply length_replicate.
  - repeat constructor; discriminate.
  - vm_compute. repeat constructor.
  - exists out, σ'. split; [exact Hrun|]. split; [exact Hlen|].
    exact (Hrows 1%nat (example_scores 4) eq_refl).
Defined.

Lemma sampling_eq (x y : HeterogeneousSampling.t) :
  HeterogeneousSampling.seeds x = HeterogeneousSampling.seeds y ->
  HeterogeneousSampling.greedy_indices x = HeterogeneousSampling.greedy_indices y ->
  HeterogeneousSampling.sampling_mapping x = HeterogeneousSampling.sampling_mapping y ->
  x = y.
Proof. destruct x, y. cbn. congruence. Qed.

Lemma sampling_filter_seeds (self : HeterogeneousSampling.t) (indices : list nat) :
  HeterogeneousSampling.seeds (HeterogeneousSampling.filter self indices)
  = HeterogeneousSampling.seeds self.
Proof.
  unfold HeterogeneousSampling.filter. destruct (fold_left _ _ _). reflexivity.
Qed.

(** X21. Two compactions one after the other are one compaction: keeping
    the rows [first] and then, of these, the rows [second] leaves the
    heterogeneous sampler that keeping the rows [first[j]] for [j] in
    [second] leaves. *)
Theorem sampling_filter_compose (self : HeterogeneousSampling.t)
    (first second : list nat) :
  Forall (fun j => (j < length first)%nat) second ->
  HeterogeneousSampling.filter (HeterogeneousSampling.filter self first) second
  = HeterogeneousSampling.filter self (map (fun j => first !!! j) second).
Proof.
  intros Hrange.
  assert (Hrow : forall i,
            second !! i
              ≫= (HeterogeneousSampling.sampling_mapping
                    (HeterogeneousSampling.filter self first) !!.)
            = map (fun j => first !!! j) second !! i
                ≫= (HeterogeneousSampling.sampling_mapping self !!.)).
  { intros i. rewrite list_lookup_fmap.
    destruct (second !! i) as [j|] eqn:Hj; [|reflexivity]. cbn.
    rewrite sampling_filter_lookup.
    assert (Hlt : (j < length first)%nat).
    { exact (proj1 (Forall_forall _ _) Hrange j (list_elem_of_lookup_2 _ _ _ Hj)). }
    now rewrite (list_lookup_lookup_total_lt first j Hlt). }
  apply sampling_eq.
  - now rewrite !sampling_filter_seeds.
  - rewrite !sampling_filter_greedy, length_map.
    apply filter_ext. intros i. now rewrite Hrow.
  - apply map_eq. intros i. rewrite !sampling_filter_lookup. apply Hrow.
Qed.

Lemma sampling_filter_compose_witness :
  HeterogeneousSampling.filter (HeterogeneousSampling.filter example_sampling [2; 0]%nat)
    [1]%nat
  = HeterogeneousSampling.filter example_sampling
      (map (fun j => [2; 0]%nat !!! j) [1]%nat).
Proof.
  apply (sampling_filter_compose example_sampling [2; 0]%nat [1]%nat).
  repeat constructor.
Defined.

(** ** The chooser of a batch over its life *)

Lemma list_index_out_of_range {A : Type} (l : list A) (indices : list nat) :
  Exists (fun idx => (length l <= idx)%nat) indices ->
  list_index l indices = Raise IndexError.
Proof.
  unfold list_index. induction indices as [|i indices IH]; intros Hex.
  - inversion Hex.
  - cbn [traverse]. destruct (getitem l i) as [x|e] eqn:Hg.
    + cbn [mbind result_bind]. rewrite IH; [reflexivity|].
      apply Exists_cons in Hex. destruct Hex as [Hbad|Hex]; [|exact Hex].
      unfold getitem in Hg. destruct (l !! i) eqn:Hi; [|discriminate].
      apply lookup_lt_Some in Hi. lia.
    + unfold getitem in Hg. destruct (l !! i); [discriminate|].
      injection Hg as <-. reflexivity.
Qed.

Lemma any_false_lookup (l : list bool) (i : nat) :
  any l = false -> l !! i <> Some true.
Proof.
  intros Hany Hi. assert (any l = true) by (apply any_true_lookup; eauto). congruence.
Qed.

Section ChooserLife.
Context `{Torch} `{LogitsProcess}.

(** X22. The compaction of a chooser raises [IndexError] when one of the
    rows to keep is not a row of the batch. *)
Theorem chooser_filter_index_error (self : HeterogeneousNextTokenChooser.t)
    (indices : list nat) :
  Exists (fun idx => (length (HeterogeneousNextTokenChooser.seeds self) <= idx)%nat)
    indices ->
  HeterogeneousNextTokenChooser.filter self indices = Raise IndexError.
Proof.
  intros Hex. unfold HeterogeneousNextTokenChooser.filter.
  now rewrite (list_index_out_of_range _ indices Hex).
Qed.

(** X23. The construction of a chooser from one value of every parameter
    for every sequence leaves a chooser whose selection agrees with its
    flags: a sampler for exactly the sequences whose flag is set after the
    warpers were looked at, no sampler shared, every sampler in the store. *)
Theorem chooser_init_consistent (watermark : list bool)
    (temperature repetition_penalty : list float) (top_k : list Z)
    (top_p typical_p : list float) (do_sample : list bool) (seeds : list Z) (σ : store) :
  length temperature = length do_sample ->
  length top_k = length do_sample ->
  length top_p = length do_sample ->
  length typical_p = length do_sample ->
  length seeds = length do_sample ->
  chooser_consistent
    (HeterogeneousNextTokenChooser.__init__ watermark temperature repetition_penalty
       top_k top_p typical_p do_sample seeds σ).1
    (HeterogeneousNextTokenChooser.__init__ watermark temperature repetition_penalty
       top_k top_p typical_p do_sample seeds σ).2.
Proof.
  intros H1 H2 H3 H4 H5.
  destruct (heterogeneous_chooser_init watermark temperature repetition_penalty
              top_k top_p typical_p do_sample seeds σ H1 H2 H3 H4)
    as (ds & Hds & Hlen & _ & Hchoice).
  assert (Hseeds : HeterogeneousNextTokenChooser.seeds
                     (HeterogeneousNextTokenChooser.__init__ watermark temperature
                        repetition_penalty top_k top_p typical_p do_sample seeds σ).1
                   = seeds).
  { unfold HeterogeneousNextTokenChooser.__init__.
    repeat match goal with |- context [if ?b then _ else _] => destruct b end;
      cbn; repeat match goal with |- context [let '(_, _) := ?x in _] =>
                    destruct x end; reflexivity. }
  unfold chooser_consistent. rewrite Hseeds, Hds.
  destruct (any ds) eqn:Hany; injection Hchoice as Hc Hσ; rewrite Hc; cbn iota;
    rewrite ?Hσ.
  - split; [lia|]. split.
    + intros i. cbn [row_sampler].
      apply heterogeneous_sampling_init_rows. lia.
    + apply sampling_init_separate.
  - split; [lia|]. split; [|exact I].
    intros i. cbn [row_sampler]. split; [intros [? ?]; discriminate|].
    intros Hi. now apply any_false_lookup in Hi.
Qed.

(** X24. The compaction keeps a chooser in agreement with its flags: when
    the rows to keep are rows of the batch, each named once, it returns a
    chooser whose seed and flag of row [i] are those of the old row
    [indices[i]] and whose selection agrees with its flags again, so that it
    can be compacted and called again. *)
Theorem chooser_filter_consistent (self : HeterogeneousNextTokenChooser.t)
    (indices : list nat) (σ : store) :
  chooser_consistent self σ ->
  NoDup indices ->
  Forall (fun idx => (idx < length (HeterogeneousNextTokenChooser.do_sample self))%nat)
    indices ->
  exists self' : HeterogeneousNextTokenChooser.t,
    HeterogeneousNextTokenChooser.filter self indices = Ok self'
    /\ chooser_consistent self' σ
    /\ length (HeterogeneousNextTokenChooser.seeds self') = length indices
    /\ forall i idx,
         indices !! i = Some idx ->
         HeterogeneousNextTokenChooser.seeds self' !! i
         = HeterogeneousNextTokenChooser.seeds self !! idx
         /\ HeterogeneousNextTokenChooser.do_sample self' !! i
            = HeterogeneousNextTokenChooser.do_sample self !! idx.
Proof.
  intros (Hlen & Hiff & Hchoice) Hnd Hrange.
  unfold HeterogeneousNextTokenChooser.filter.
  destruct (list_index_ok (HeterogeneousNextTokenChooser.seeds self) indices)
    as (seeds' & Hs & Hsl & Hsr); [now rewrite Hlen|].
  destruct (list_index_ok (HeterogeneousNextTokenChooser.do_sample self) indices Hrange)
    as (ds' & Hd & Hdl & Hdr).
  rewrite Hs, Hd. cbn [mbind result_bind].
  assert (Hrow : forall i, ds' !! i = Some true
                 <-> exists idx, indices !! i = Some idx
                       /\ HeterogeneousNextTokenChooser.do_sample self !! idx = Some true).
  { intros i. destruct (indices !! i) as [idx|] eqn:Hi.
    - rewrite (Hdr i idx Hi). split; [eauto|]. intros (? & [= <-] & ?). assumption.
    - rewrite (lookup_ge_None_2 ds' i).
      + split; [discriminate|]. intros (? & [=] & _).
      + rewrite Hdl. now apply lookup_ge_None. }
  destruct (any ds') eqn:Hany.
  - apply any_true_lookup in Hany. destruct Hany as [i0 Hi0].
    apply Hrow in Hi0. destruct Hi0 as (idx0 & Hidx0 & Htrue).
    apply Hiff in Htrue.
    destruct (HeterogeneousNextTokenChooser.choice self) as [|l|sampling] eqn:Hc;
      [destruct Htrue; discriminate|contradiction|].
    destruct Hchoice as [Hsep Hall]. cbn [mbind result_bind].
    eexists. split; [reflexivity|].
    cbn [HeterogeneousNextTokenChooser.seeds HeterogeneousNextTokenChooser.do_sample].
    split; [|split; [exact Hsl|intros i idx Hi; split; [now apply Hsr|now apply Hdr]]].
    unfold chooser_consistent.
    cbn [HeterogeneousNextTokenChooser.seeds HeterogeneousNextTokenChooser.do_sample
           HeterogeneousNextTokenChooser.choice row_sampler].
    split; [congruence|]. split.
    + intros i. rewrite sampling_filter_lookup, Hrow.
      destruct (indices !! i) as [idx|]; cbn.
      * rewrite (Hiff idx). split; [eauto|]. intros (? & [= <-] & ?). assumption.
      * split; [intros [? ?]; discriminate|]. intros (? & [=] & _).
    + split; [now apply sampling_filter_separate|now apply sampling_filter_allocated].
  - cbn [mbind result_bind]. eexists. split; [reflexivity|].
    cbn [HeterogeneousNextTokenChooser.seeds HeterogeneousNextTokenChooser.do_sample].
    split; [|split; [exact Hsl|intros i idx Hi; split; [now apply Hsr|now apply Hdr]]].
    unfold chooser_consistent.
    cbn [HeterogeneousNextTokenChooser.seeds HeterogeneousNextTokenChooser.do_sample
           HeterogeneousNextTokenChooser.choice row_sampler].
    split; [congruence|]. split; [|exact I].
    intros i. split; [intros [? ?]; discriminate|].
    intros Hi. now apply any_false_lookup in Hi.
Qed.

End ChooserLife.

Lemma chooser_filter_index_error_witness :
  @HeterogeneousNextTokenChooser.filter example_processors example_chooser [0; 3]%nat
  = Raise IndexError.
Proof.
  apply (@chooser_filter_index_error example_processors example_chooser [0; 3]%nat).
  apply Exists_cons. right. apply Exists_cons. left. cbn. lia.
Defined.

Lemma chooser_init_consistent_witness :
  @chooser_consistent example_torch
    (@HeterogeneousNextTokenChooser.__init__ example_torch [false; false]
       [1%float; 0.5%float] [1%float; 1%float] [0; 0]
       [1%float; 1%float] [1%float; 1%float] [false; false] [11; 22] []).1
    (@HeterogeneousNextTokenChooser.__init__ example_torch [false; false]
       [1%float; 0.5%float] [1%float; 1%float] [0; 0]
       [1%float; 1%float] [1%float; 1%float] [false; false] [11; 22] []).2.
Proof.
  apply (@chooser_init_consistent example_torch); reflexivity.
Defined.

Lemma chooser_filter_consistent_witness :
  exists self' : HeterogeneousNextTokenChooser.t,
    @HeterogeneousNextTokenChooser.filter example_processors example_chooser [2; 0]%nat
    = Ok self'
    /\ @chooser_consistent example_torch self' example_store
    /\ length (HeterogeneousNextTokenChooser.seeds self') = length [2; 0]%nat
    /\ forall i idx,
         [2; 0]%nat !! i = Some idx ->
         HeterogeneousNextTokenChooser.seeds self' !! i
         = HeterogeneousNextTokenChooser.seeds example_chooser !! idx
         /\ HeterogeneousNextTokenChooser.do_sample self' !! i
            = HeterogeneousNextTokenChooser.do_sample example_chooser !! idx.
Proof.
  apply (@chooser_filter_consistent example_torch example_processors example_chooser
           [2; 0]%nat example_store).
  - split; [reflexivity|]. split.
    + intros i. apply (@heterogeneous_sampling_init_rows example_torch). reflexivity.
    + apply (@sampling_init_separate example_torch).
  - apply NoDup_cons. split; [|apply NoDup_singleton].
    intros Hin. apply list_elem_of_singleton in Hin. discriminate.
  - repeat constructor.
Defined.

Section FromPb.
Context `{Torch}.

(** X25. The two choosers made from the parameters of a request agree: row
    [i] of the chooser that [from_pb] makes of a list of parameters has a
    sampler exactly when the single chooser that [from_pb] makes of the
    parameters of row [i] samples, and both samplers are new generators
    seeded with the seed of these parameters. *)
Theorem from_pb_choosers_agree (pbs : list generate_pb2.NextTokenChooserParameters)
    (i : nat) (pb : generate_pb2.NextTokenChooserParameters) (σ σ1 : store) :
  pbs !! i = Some pb ->
  (is_Some (row_sampler
              (HeterogeneousNextTokenChooser.choice
                 (HeterogeneousNextTokenChooser_from_pb pbs σ).1) i)
   <-> is_Some (row_sampler
                  (NextTokenChooser.choice (NextTokenChooser_from_pb pb σ1).1) 0))
  /\ (forall l,
        row_sampler
          (HeterogeneousNextTokenChooser.choice
             (HeterogeneousNextTokenChooser_from_pb pbs σ).1) i = Some l ->
        (HeterogeneousNextTokenChooser_from_pb pbs σ).2 !! l
        = Some (Sampling.__init__ (generate_pb2.seed pb)))
  /\ (forall l,
        row_sampler (NextTokenChooser.choice (NextTokenChooser_from_pb pb σ1).1) 0
        = Some l ->
        (NextTokenChooser_from_pb pb σ1).2 !! l
        = Some (Sampling.__init__ (generate_pb2.seed pb))).
Proof.
  intros Hpb.
  set (b := generate_pb2.do_sample pb || float_ne (generate_pb2.temperature pb) 1
            || negb (generate_pb2.top_k pb =? 0)
            || (generate_pb2.top_p pb <? 1)%float
            || (generate_pb2.typical_p pb <? 1)%float).
  assert (Hbatch :
            (is_Some (row_sampler
                        (HeterogeneousNextTokenChooser.choice
                           (HeterogeneousNextTokenChooser_from_pb pbs σ).1) i)
             <-> b = true)
            /\ forall l,
                 row_sampler
                   (HeterogeneousNextTokenChooser.choice
                      (HeterogeneousNextTokenChooser_from_pb pbs σ).1) i = Some l ->
                 (HeterogeneousNextTokenChooser_from_pb pbs σ).2 !! l
                 = Some (Sampling.__init__ (generate_pb2.seed pb))).
  { unfold HeterogeneousNextTokenChooser_from_pb.
    destruct (heterogeneous_chooser_init
                (map generate_pb2.watermark pbs) (map generate_pb2.temperature pbs)
                (map generate_pb2.repetition_penalty pbs) (map generate_pb2.top_k pbs)
                (map generate_pb2.top_p pbs) (map generate_pb2.typical_p pbs)
                (map generate_pb2.do_sample pbs) (map generate_pb2.seed pbs) σ)
      as (ds & _ & Hlen & Hrow & Hchoice); try (now rewrite !length_map).
    specialize (Hrow i (generate_pb2.temperature pb) (generate_pb2.top_k pb)
                  (generate_pb2.top_p pb) (generate_pb2.typical_p pb)
                  (generate_pb2.do_sample pb)).
    rewrite !list_lookup_fmap, Hpb in Hrow.
    specialize (Hrow eq_refl eq_refl eq_refl eq_refl eq_refl). fold b in Hrow.
    assert (Hseed : map generate_pb2.seed pbs !! i = Some (generate_pb2.seed pb))
      by now rewrite list_lookup_fmap, Hpb.
    destruct (any ds) eqn:Hany; injection Hchoice as -> ->; cbn [row_sampler].
    - apply (heterogeneous_sampling_init ds _ σ i b _ Hrow Hseed).
    - assert (Hb : b = false).
      { destruct b; [|reflexivity]. now apply any_false_lookup in Hrow. }
      rewrite Hb. split; [|discriminate].
      split; [intros [? ?]; discriminate|discriminate]. }
  assert (Hsingle :
            (is_Some (row_sampler
                        (NextTokenChooser.choice (NextTokenChooser_from_pb pb σ1).1) 0)
             <-> b = true)
            /\ forall l,
                 row_sampler
                   (NextTokenChooser.choice (NextTokenChooser_from_pb pb σ1).1) 0
                 = Some l ->
                 (NextTokenChooser_from_pb pb σ1).2 !! l
                 = Some (Sampling.__init__ (generate_pb2.seed pb))).
  { unfold NextTokenChooser_from_pb, NextTokenChooser.__init__,
      NextTokenChooser.has_warpers.
    rewrite !orb_assoc. fold b. destruct b; cbn.
    - split; [split; eauto|]. intros l [= <-].
      rewrite lookup_app_r by lia. now rewrite Nat.sub_diag.
    - split; [|discriminate]. split; [intros [? ?]; discriminate|discriminate]. }
  destruct Hbatch as [Hb1 Hb2]. destruct Hsingle as [Hs1 Hs2].
  split; [now rewrite Hb1, Hs1|]. split; assumption.
Qed.

(** X26. The neutral parameters make a chooser that does nothing but take
    the largest score: with no watermark, temperature and repetition penalty
    1, [top_k] 0, [top_p] and [typical_p] not below 1 and no [do_sample] for
    any sequence, the construction makes no processor, no warper and no
    sampler, and leaves the store as it is. *)
Theorem neutral_parameters_greedy_chooser (watermark : list bool)
    (temperature repetition_penalty : list float) (top_k : list Z)
    (top_p typical_p : list float) (do_sample : list bool) (seeds : list Z) (σ : store) :
  Forall (fun w => w = false) watermark ->
  Forall (fun x => float_ne x 1 = false) temperature ->
  Forall (fun x => float_ne x 1 = false) repetition_penalty ->
  Forall (fun k => k = 0) top_k ->
  Forall (fun x => (x <? 1)%float = false) top_p ->
  Forall (fun x => (x <? 1)%float = false) typical_p ->
  Forall (fun s => s = false) do_sample ->
  greedy_chooser
    (HeterogeneousNextTokenChooser.__init__ watermark temperature repetition_penalty
       top_k top_p typical_p do_sample seeds σ).1
  /\ (HeterogeneousNextTokenChooser.__init__ watermark temperature repetition_penalty
        top_k top_p typical_p do_sample seeds σ).2 = σ.
Proof.
  intros Hw Ht Hr Hk Hp Htp Hs.
  assert (Hany : forall l : list bool, Forall (fun w => w = false) l -> any l = false).
  { intros l Hl. rewrite <- (map_id l). apply any_false_iff. exact Hl. }
  unfold HeterogeneousNextTokenChooser.__init__.
  rewrite (Hany watermark Hw).
  rewrite (proj2 (any_false_iff (fun x => float_ne x 1) repetition_penalty) Hr).
  rewrite (proj2 (any_false_iff (fun x => float_ne x 1) temperature) Ht).
  rewrite (proj2 (any_false_iff (fun x => negb (x =? 0)) top_k)).
  2: { apply (Forall_impl _ _ _ Hk). intros k ->. reflexivity. }
  rewrite (proj2 (any_false_iff (fun x => (x <? 1)%float) top_p) Hp).
  rewrite (proj2 (any_false_iff (fun x => (x <? 1)%float) typical_p) Htp).
  rewrite (Hany do_sample Hs).
  cbn. repeat split.
Qed.

End FromPb.

Lemma from_pb_choosers_agree_witness :
  (is_Some (row_sampler
              (HeterogeneousNextTokenChooser.choice
                 (@HeterogeneousNextTokenChooser_from_pb example_torch
                    [{| generate_pb2.temperature := 0.5%float;
                        generate_pb2.top_k := 0;
                        generate_pb2.top_p := 1%float;
                        generate_pb2.typical_p := 1%float;
                        generate_pb2.do_sample := false;
                        generate_pb2.seed := 7;
                        generate_pb2.repetition_penalty := 1%float;
                        generate_pb2.watermark := false |}] []).1) 0)
   <-> is_Some (row_sampler
                  (NextTokenChooser.choice
                     (@NextTokenChooser_from_pb example_torch
                        {| generate_pb2.temperature := 0.5%float;
                           generate_pb2.top_k := 0;
                           generate_pb2.top_p := 1%float;
                           generate_pb2.typical_p := 1%float;
                           generate_pb2.do_sample := false;
                           generate_pb2.seed := 7;
                           generate_pb2.repetition_penalty := 1%float;
                           generate_pb2.watermark := false |} []).1) 0)).
Proof.
  apply (@from_pb_choosers_agree example_torch
           [{| generate_pb2.temperature := 0.5%float;
               generate_pb2.top_k := 0;
               generate_pb2.top_p := 1%float;
               generate_pb2.typical_p := 1%float;
               generate_pb2.do_sample := false;
               generate_pb2.seed := 7;
               generate_pb2.repetition_penalty := 1%float;
               generate_pb2.watermark := false |}] 0%nat _ [] [] eq_refl).
Defined.

Lemma neutral_parameters_greedy_chooser_witness :
  greedy_chooser
    (@HeterogeneousNextTokenChooser.__init__ example_torch [false] [1%float] [1%float]
       [0] [1%float] [1%float] [false] [0] []).1
  /\ (@HeterogeneousNextTokenChooser.__init__ example_torch [false] [1%float] [1%float]
        [0] [1%float] [1%float] [false] [0] []).2 = [].
Proof.
  apply (@neutral_parameters_greedy_chooser example_torch); repeat constructor.
Defined.

(** ** The values and the counts of the top-n extraction *)

(** [batch_top_tokens] on well-shaped arguments: a count between 0 and the
    size of the vocabulary for every row, one of them above 0, rows without
    NaN that hold a value that is not below the least finite one. *)
Lemma top_n_run (d : dtype) (top_n_tokens : list Z) (logprobs : list (list float)) :
  length logprobs = length top_n_tokens ->
  Forall (fun row => length row = shape1 logprobs) logprobs ->
  Forall no_nan logprobs ->
  Forall (fun row => exists y, y ∈ row /\ (finfo_min d <=? y)%float = true) logprobs ->
  Forall (fun n => 0 <= n <= Z.of_nat (shape1 logprobs)) top_n_tokens ->
  Exists (fun n => 0 < n) top_n_tokens ->
  batch_top_tokens d top_n_tokens top_n_tokens logprobs
  = Ok (zip_with (fun r n => if 0 <? n
                             then map fst (take (row_count d r n) (sort_desc r)) else [])
          logprobs top_n_tokens,
        zip_with (fun r n => if 0 <? n
                             then map snd (take (row_count d r n) (sort_desc r)) else [])
          logprobs top_n_tokens).
Proof.
  intros Hlen Hrows Hnan Hmin Hns Hpos.
  apply batch_top_tokens_run; try assumption.
  apply Forall2_same_length_lookup. split; [exact Hlen|].
  intros i row n Hrow Hn.
  assert (Hin : row ∈ logprobs) by (apply list_elem_of_lookup; eauto).
  assert (Hin' : n ∈ top_n_tokens) by (apply list_elem_of_lookup; eauto).
  pose proof (proj1 (Forall_forall _ _) Hrows row Hin) as Hr.
  pose proof (proj1 (Forall_forall _ _) Hnan row Hin) as Hnr.
  pose proof (proj1 (Forall_forall _ _) Hmin row Hin) as Hmr.
  pose proof (proj1 (Forall_forall _ _) Hns n Hin') as Hnn.
  cbn beta in Hr, Hnn. apply row_count_pos; [exact Hnr| |exact Hmr].
  rewrite Hr. apply Exists_exists in Hpos. destruct Hpos as (m & Hm & Hm0).
  pose proof (proj1 (Forall_forall _ _) Hns m Hm) as Hmm. cbn beta in Hmm. lia.
Qed.

Lemma StronglySorted_take {A : Type} (R : A -> A -> Prop) (l : list A) (n : nat) :
  StronglySorted R l -> StronglySorted R (take n l).
Proof.
  intros Hl. revert n. induction Hl as [|x l Hl IH Hx]; intros [|n]; cbn;
    try constructor.
  - apply IH.
  - apply Forall_forall. intros y Hy. apply (proj1 (Forall_forall _ _) Hx).
    eapply subseteq_take, Hy.
Qed.

Lemma descending_values (l : list (nat * float)) :
  descending l ->
  StronglySorted (fun a b : float => (b <=? a)%float = true) (map snd l).
Proof.
  induction 1 as [|x l Hl IH Hx]; cbn; constructor; [exact IH|].
  apply Forall_forall. intros y Hy. apply list_elem_of_fmap in Hy.
  destruct Hy as (e & -> & He). exact (proj1 (Forall_forall _ _) Hx e He).
Qed.

(** X27. The values that the top-n extraction returns for a row are in
    descending order, and there are no more of them than the vocabulary has
    ids. *)
Theorem top_n_values_descending (d : dtype) (top_n_tokens : list Z)
    (logprobs : list (list float)) :
  length logprobs = length top_n_tokens ->
  Forall (fun row => length row = shape1 logprobs) logprobs ->
  Forall no_nan logprobs ->
  Forall (fun row => exists y, y ∈ row /\ (finfo_min d <=? y)%float = true) logprobs ->
  Forall (fun n => 0 <= n <= Z.of_nat (shape1 logprobs)) top_n_tokens ->
  Exists (fun n => 0 < n) top_n_tokens ->
  exists (ids : list (list nat)) (vals : list (list float)),
    batch_top_tokens d top_n_tokens top_n_tokens logprobs = Ok (ids, vals)
    /\ Forall (fun vs => StronglySorted (fun a b : float => (b <=? a)%float = true) vs
                         /\ (length vs <= shape1 logprobs)%nat) vals.
Proof.
  intros Hlen Hrows Hnan Hmin Hns Hpos.
  rewrite (top_n_run d top_n_tokens logprobs Hlen Hrows Hnan Hmin Hns Hpos).
  eexists _, _. split; [reflexivity|].
  apply Forall_forall. intros vs Hvs. apply elem_of_lookup_zip_with in Hvs.
  destruct Hvs as (i & row & n & -> & Hrow & Hn).
  assert (Hin : row ∈ logprobs) by (apply list_elem_of_lookup; eauto).
  pose proof (proj1 (Forall_forall _ _) Hrows row Hin) as Hr.
  pose proof (proj1 (Forall_forall _ _) Hnan row Hin) as Hnr.
  cbn beta in Hr. destruct (0 <? n).
  - split.
    + apply descending_values, StronglySorted_take, sort_desc_descending, Hnr.
    + rewrite length_map, length_take, sort_desc_length. lia.
  - split; [constructor|cbn; lia].
Qed.

Lemma top_n_values_descending_witness :
  exists (ids : list (list nat)) (vals : list (list float)),
    batch_top_tokens float32 [1; 2] [1; 2]
      [[(-0.5)%float; (-2)%float; (-0.5)%float; (-3)%float];
       [(-1)%float; (-1)%float; (-1)%float; (-4)%float]]
    = Ok (ids, vals)
    /\ Forall (fun vs => StronglySorted (fun a b : float => (b <=? a)%float = true) vs
                         /\ (length vs
                             <= shape1 [[(-0.5)%float; (-2)%float; (-0.5)%float;
                                         (-3)%float];
                                        [(-1)%float; (-1)%float; (-1)%float;
                                         (-4)%float]])%nat) vals.
Proof.
  apply (top_n_values_descending float32 [1; 2]
           [[(-0.5)%float; (-2)%float; (-0.5)%float; (-3)%float];
            [(-1)%float; (-1)%float; (-1)%float; (-4)%float]]).
  - reflexivity.
  - repeat constructor.
  - repeat constructor.
  - constructor; [|constructor; [|constructor]].
    + exists (-0.5)%float. split; [constructor|reflexivity].
    + exists (-1)%float. split; [constructor|reflexivity].
  - repeat constructor; cbn; lia.
  - constructor. lia.
Defined.

(** X28. A requested count above the size of the vocabulary is not cut
    down to it for the first [topk]: when the largest requested count exceeds
    the length of the rows, the extraction raises [RuntimeError]. *)
Theorem top_n_count_above_vocabulary_raises (d : dtype) (top_n_tokens : list Z)
    (top_n_tokens_tensor : list Z) (row : list float) (logprobs : list (list float))
    (max_top_n : Z) :
  py_max top_n_tokens = Ok max_top_n ->
  Z.of_nat (length row) < max_top_n ->
  batch_top_tokens d top_n_tokens top_n_tokens_tensor (row :: logprobs)
  = Raise RuntimeError.
Proof.
  intros Hmax Hlt. unfold batch_top_tokens. rewrite Hmax. cbn [mbind result_bind].
  destruct (Z.eqb_spec max_top_n 0) as [E|_]; [lia|].
  assert (Hrow : topk_row max_top_n row = Raise RuntimeError).
  { unfold topk_row.
    destruct (Z.leb_spec max_top_n (Z.of_nat (length row))) as [Hle|_]; [lia|].
    now rewrite andb_false_r. }
  assert (Htop : topk (row :: logprobs) max_top_n = Raise RuntimeError).
  { unfold topk. cbn [traverse]. now rewrite Hrow. }
  rewrite Htop. reflexivity.
Qed.

Lemma top_n_count_above_vocabulary_raises_witness :
  batch_top_tokens float32 [1; 5] [1; 5]
    [[0%float; (-1)%float; (-2)%float]; [0%float; (-1)%float; (-2)%float]]
  = Raise RuntimeError.
Proof.
  apply (top_n_count_above_vocabulary_raises float32 [1; 5] [1; 5]
           [0%float; (-1)%float; (-2)%float]
           [[0%float; (-1)%float; (-2)%float]] 5).
  - reflexivity.
  - cbn. lia.
Defined.

Lemma row_count_exact (d : dtype) (row : list float) (n : Z) (x : float) :
  no_nan row -> 0 < n ->
  rank_value row (Z.to_nat n) = Some x -> (x =? neg_infinity)%float = false ->
  (forall y, rank_value row (Z.to_nat n + 1) = Some y -> (y <? x)%float = true) ->
  row_count d row n = Z.to_nat n.
Proof.
  intros Hnan Hn Hx Hfin Hnext.
  pose proof (row_count_ge d row n x Hnan Hn Hx Hfin) as Hge.
  destruct (le_lt_dec (row_count d row n) (Z.to_nat n)) as [Hle|Hgt]; [lia|].
  exfalso.
  pose proof (row_count_le d row n) as Hlen.
  destruct (lookup_lt_is_Some_2 (sort_desc row) (Z.to_nat n)) as [e He].
  { rewrite sort_desc_length. lia. }
  assert (Hy : rank_value row (Z.to_nat n + 1) = Some e.2).
  { unfold rank_value. replace (Z.to_nat n + 1 - 1)%nat with (Z.to_nat n) by lia.
    now rewrite He. }
  specialize (Hnext e.2 Hy).
  assert (Hkept : e ∈ take (row_count d row n) (sort_desc row)).
  { apply list_elem_of_lookup. exists (Z.to_nat n). rewrite lookup_take_lt by lia.
    exact He. }
  rewrite (row_kept d row n Hnan) in Hkept.
  apply list_elem_of_In, filter_In in Hkept. destruct Hkept as [_ Hth].
  unfold row_threshold in Hth.
  replace (Nat.max (Z.to_nat n) 1) with (Z.to_nat n) in Hth by lia.
  rewrite Hx in Hth. cbn [default from_option] in Hth. unfold id in Hth.
  rewrite Hfin in Hth.
  pose proof (sort_desc_no_nan row Hnan) as Hall.
  assert (He2 : is_nan e.2 = false).
  { apply (proj1 (Forall_forall _ _) Hall e). apply list_elem_of_lookup. eauto. }
  assert (Hx2 : is_nan x = false).
  { unfold rank_value in Hx.
    destruct (sort_desc row !! (Z.to_nat n - 1)%nat) as [e'|] eqn:He'; [|discriminate].
    injection Hx as <-. apply (proj1 (Forall_forall _ _) Hall e').
    apply list_elem_of_lookup. eauto. }
  rewrite (float_ltb_not_leb e.2 x He2 Hx2), Hth in Hnext. discriminate.
Qed.

(** X29. Without a tie at the boundary the extraction returns exactly what
    was asked for: when the value at rank [n] of a row is not minus infinity
    and the value at rank [n + 1], if there is one, is strictly smaller, the
    row gets exactly [n] ids and [n] values. *)
Theorem top_n_exact_without_tie (d : dtype) (top_n_tokens : list Z)
    (logprobs : list (list float)) (i : nat) (row : list float) (n : Z) (x : float) :
  length logprobs = length top_n_tokens ->
  Forall (fun row => length row = shape1 logprobs) logprobs ->
  Forall no_nan logprobs ->
  Forall (fun row => exists y, y ∈ row /\ (finfo_min d <=? y)%float = true) logprobs ->
  Forall (fun n => 0 <= n <= Z.of_nat (shape1 logprobs)) top_n_tokens ->
  logprobs !! i = Some row -> top_n_tokens !! i = Some n -> 0 < n ->
  rank_value row (Z.to_nat n) = Some x -> (x =? neg_infinity)%float = false ->
  (forall y, rank_value row (Z.to_nat n + 1) = Some y -> (y <? x)%float = true) ->
  exists (ids : list (list nat)) (vals : list (list float))
         (ids_i : list nat) (vals_i : list float),
    batch_top_tokens d top_n_tokens top_n_tokens logprobs = Ok (ids, vals)
    /\ ids !! i = Some ids_i /\ vals !! i = Some vals_i
    /\ length ids_i = Z.to_nat n /\ length vals_i = Z.to_nat n.
Proof.
  intros Hlen Hrows Hnan Hmin Hns Hrow Hn Hn0 Hx Hfin Hnext.
  assert (Hpos : Exists (fun n => 0 < n) top_n_tokens).
  { apply Exists_exists. exists n. split; [|exact Hn0].
    apply list_elem_of_lookup. eauto. }
  rewrite (top_n_run d top_n_tokens logprobs Hlen Hrows Hnan Hmin Hns Hpos).
  assert (Hin : row ∈ logprobs) by (apply list_elem_of_lookup; eauto).
  pose proof (proj1 (Forall_forall _ _) Hnan row Hin) as Hnr.
  pose proof (row_count_exact d row n x Hnr Hn0 Hx Hfin Hnext) as Hcount.
  pose proof (row_count_le d row n) as Hle.
  destruct (Z.ltb_spec 0 n) as [_|]; [|lia].
  eexists _, _, _, _. split; [reflexivity|].
  split; [rewrite lookup_zip_with, Hrow; cbn; rewrite Hn; cbn;
          destruct (Z.ltb_spec 0 n); [reflexivity|lia]|].
  split; [rewrite lookup_zip_with, Hrow; cbn; rewrite Hn; cbn;
          destruct (Z.ltb_spec 0 n); [reflexivity|lia]|].
  rewrite !length_map, !length_take, sort_desc_length. lia.
Qed.

Lemma top_n_exact_without_tie_witness :
  exists (ids : list (list nat)) (vals : list (list float))
         (ids_i : list nat) (vals_i : list float),
    batch_top_tokens float32 [2] [2] [[(-0.5)%float; (-2)%float; (-1)%float]]
    = Ok (ids, vals)
    /\ ids !! 0%nat = Some ids_i /\ vals !! 0%nat = Some vals_i
    /\ length ids_i = Z.to_nat 2 /\ length vals_i = Z.to_nat 2.
Proof.
  apply (top_n_exact_without_tie float32 [2] [[(-0.5)%float; (-2)%float; (-1)%float]]
           0 [(-0.5)%float; (-2)%float; (-1)%float] 2 (-1)%float).
  - reflexivity.
  - repeat constructor.
  - repeat constructor.
  - constructor; [|constructor].
    exists (-0.5)%float. split; [constructor|reflexivity].
  - repeat constructor; cbn; lia.
  - reflexivity.
  - reflexivity.
  - lia.
  - reflexivity.
  - reflexivity.
  - intros y Hy. vm_compute in Hy. injection Hy as <-. reflexivity.
Defined.
